(** * License service and payment-aware fetcher of tavily-mcp-licensed

    A shallow embedding of [LicenseService] (checkLicense, checkLicenseBatch,
    acquireLicenseToken, estimateTokens, logUsage) and of [licensedFetchText]
    from [src/index.ts], with the properties of the specification that concern
    them.  Beyond these, the development covers the rest of the service
    ([getSessionSummary], [resetSession], [cleanup]), whole sessions of calls
    on one service, the usage logging of the tool handlers
    ([buildUsageLicense], [logUsageFromContent] and the fetch loop that calls
    them) and the body of the request of [search].

    Modelling conventions.
    - An [async] function is a program tree [Prog]: its synchronous steps read
      the clock and read or write the service object, and every [await] of a
      network call is a node [Await] whose continuation receives either the
      rejection or the reply.  [try]/[catch] is [try_catch].
    - The outside world is an [Env]: the values of successive [Date.now()]
      readings, the outcome of the n-th network request, and the order in
      which concurrently pending requests complete.
    - A JavaScript string is a [string]; [String.length] counts its units.
      Numbers that the code only counts or adds are in [Z]; numbers that are
      passed through untouched are in [Q].  A JavaScript number is a double:
      where a sum depends on arguments of the caller, as that of
      [total_tokens] does, it is the double's sum, [js_add].
    - Objects are values: no caller of the service writes to a license it
      was given, so a license shared between the cache and a caller is the
      same value on both sides. *)

From Stdlib Require Import ZArith QArith Qround String Ascii List Lia.
From stdpp Require Import base option list gmap strings.

Local Open Scope string_scope.
Local Open Scope Z_scope.

Set Warnings "-clear-no-such-hyp".

(** ** JavaScript values read from untyped JSON *)

Inductive JsVal : Type :=
| JUndefined
| JNull
| JBool (b : bool)
| JNum (q : Q)
| JStr (s : string).

(** [v === 'lit'] for a string literal. *)
Definition strict_eq_str (v : JsVal) (lit : string) : bool :=
  match v with
  | JStr s => bool_decide (s = lit)
  | _ => false
  end.

(** Truthiness of [string | undefined] and of [string | null]. *)
Definition truthy (o : option string) : bool :=
  match o with
  | Some s => negb (bool_decide (s = ""))
  | None => false
  end.

(** [a || b] on [string | null]. *)
Definition or_else (a b : option string) : option string :=
  if truthy a then a else b.

(** A thrown value: its [message] and what [String(error)] gives. *)
Record JsError : Type := mkError {
  message : string;
  as_string : string
}.

(** [new Error(msg)] *)
Definition new_Error (msg : string) : JsError :=
  {| message := msg; as_string := "Error: " ++ msg |}.

(** [error?.message || String(error)] *)
Definition error_text (e : JsError) : string :=
  if bool_decide (message e = "") then as_string e else message e.

(** ** types.ts *)

Inductive LicenseStage : Type := infer | embed | tune | train.
Inductive Distribution : Type := private | public.
Inductive Action : Type := allow | deny | unknown.
Inductive PaymentMethod : Type := account_balance | x402_payment.

Record LicenseInfo : Type := mkLicenseInfo {
  url : string;
  license_found : bool;
  action : Action;
  distribution : option Distribution;
  price : JsVal;
  payto : JsVal;
  license_version_id : JsVal;
  license_sig : option string;
  license_type : JsVal;
  error : option string
}.

Record UsageLogEntry : Type := mkUsageLogEntry {
  log_url : string;
  log_tokens : Z;
  log_license_version_id : JsVal;
  log_license_sig : option string;
  log_stage : LicenseStage;
  log_distribution : Distribution;
  log_timestamp : Z
}.

Record LedgerAcquireResponse : Type := mkAcquireResponse {
  licensed_url : string;
  acq_license_version_id : Z;
  acq_license_sig : string;
  expires_at : string;
  cost : Q;
  currency : string;
  acq_stage : LicenseStage;
  acq_distribution : Distribution;
  estimated_tokens : Z;
  license_status : string;
  rate_per_1k_tokens : Q
}.

Record X402Challenge : Type := mkChallenge {
  x_price : option string;
  x_payto : option string;
  x_stage : option string;
  x_distribution : option string;
  x_facilitator_url : option string
}.

Record AcquireMeta : Type := mkAcquireMeta {
  m_licensed_url : string;
  m_cost : Q;
  m_currency : string;
  m_expires_at : string;
  m_license_version_id : Z;
  m_license_sig : string
}.

Record LicensedFetchResult : Type := mkFetchResult {
  requested_url : string;
  final_url : string;
  status : Z;
  content_type : option string;
  content_text : option string;
  payment_attempted : bool;
  payment_required : bool;
  x402 : option X402Challenge;
  acquire : option AcquireMeta;
  fetch_error : option string
}.

Record LicenseTrackingSummary : Type := mkSummary {
  total_urls : Z;
  licensed_content : Z;
  unlicensed_content : Z;
  denied_content : Z;
  total_tokens : Z;
  tracking_enabled : bool;
  errors : Z
}.

Record LicenseServiceConfig : Type := mkConfig {
  apiUrl : string;
  apiKey : option string;
  licenseCheckTimeout : Z;
  licenseAcquireTimeout : Z;
  usageLogTimeout : Z;
  enableTracking : bool;
  enableCache : bool;
  cacheTTL : Z
}.

(** ** What the ledger and the web return *)

(** One element of the lookup response, as the ledger interface declares it:
    an object whose fields are read without any check.  A field that is
    absent reads as [JUndefined]; a string, number or boolean in the place
    of an object reads as the record with every field [JUndefined]. *)
Record LedgerRecord : Type := mkRecord {
  r_license_type : JsVal;
  r_opt_in_status : JsVal;
  r_rate_per_token : JsVal;
  r_wallet_id : JsVal;
  r_id : JsVal
}.

(** [response.data] of the lookup: an array of records, or a bare value. *)
Inductive LookupData : Type :=
| DataArray (records : list LedgerRecord)
| DataSingle (record : LedgerRecord).

(** The [Response] of [fetch]: [resp_url] is the URL after redirects,
    [resp_headers] what [headers.get] sees (lower-case names), and
    [resp_body] is [None] when [text()] rejects. *)
Record Response : Type := mkResponse {
  resp_url : string;
  resp_status : Z;
  resp_headers : list (string * string);
  resp_body : option string
}.

Record AcquireBody : Type := mkAcquireBody {
  b_url : string;
  b_estimated_tokens : Z;
  b_stage : LicenseStage;
  b_distribution : Distribution;
  b_payment_method : PaymentMethod;
  b_payment_proof : option string;
  b_payment_amount : option Q
}.

(** The network calls of the two modules. *)
Inductive Request : Type :=
| GetLicenses (u : string) (timeout : Z) (key : option string)
| PostAcquire (body : AcquireBody) (timeout : Z) (key : option string)
| PostUsageLog (entry : UsageLogEntry) (timeout : Z) (key : option string)
| Fetch (u : string) (userAgent : string) (timeoutMs : Z).

Definition reply_type (q : Request) : Type :=
  match q with
  | GetLicenses _ _ _ => LookupData
  | PostAcquire _ _ _ => LedgerAcquireResponse
  | PostUsageLog _ _ _ => unit
  | Fetch _ _ _ => Response
  end.

Definition is_lookup (q : Request) : bool :=
  match q with GetLicenses _ _ _ => true | _ => false end.
Definition is_fetch (q : Request) : bool :=
  match q with Fetch _ _ _ => true | _ => false end.
Definition is_acquire (q : Request) : bool :=
  match q with PostAcquire _ _ _ => true | _ => false end.
Definition is_usage_log (q : Request) : bool :=
  match q with PostUsageLog _ _ _ => true | _ => false end.

(** ** The service object *)

Record CacheEntry : Type := mkCacheEntry {
  license : LicenseInfo;
  expires : Z
}.

Record Service : Type := mkService {
  licenseCache : gmap string CacheEntry;
  sessionSummary : LicenseTrackingSummary
}.

(** The state left by the constructor. *)
Definition new_Service (cfg : LicenseServiceConfig) : Service :=
  {| licenseCache := ∅;
     sessionSummary :=
       {| total_urls := 0; licensed_content := 0; unlicensed_content := 0;
          denied_content := 0; total_tokens := 0;
          tracking_enabled := enableTracking cfg; errors := 0 |} |}.

(** ** Programs *)

Inductive Prog (A : Type) : Type :=
| Ret (a : A)
| Throw (e : JsError)
| DateNow (k : Z -> Prog A)
| GetService (k : Service -> Prog A)
| PutService (s : Service) (k : Prog A)
| Await (q : Request) (k : JsError + reply_type q -> Prog A).

Arguments Ret {A} a.
Arguments Throw {A} e.
Arguments DateNow {A} k.
Arguments GetService {A} k.
Arguments PutService {A} s k.
Arguments Await {A} q k.

Fixpoint bind {A B : Type} (p : Prog A) (f : A -> Prog B) : Prog B :=
  match p with
  | Ret a => f a
  | Throw e => Throw e
  | DateNow k => DateNow (fun t => bind (k t) f)
  | GetService k => GetService (fun s => bind (k s) f)
  | PutService s k => PutService s (bind k f)
  | Await q k => Await q (fun r => bind (k r) f)
  end.

(** [try { p } catch (error) { h error }] *)
Fixpoint try_catch {A : Type} (p : Prog A) (h : JsError -> Prog A) : Prog A :=
  match p with
  | Ret a => Ret a
  | Throw e => h e
  | DateNow k => DateNow (fun t => try_catch (k t) h)
  | GetService k => GetService (fun s => try_catch (k s) h)
  | PutService s k => PutService s (try_catch k h)
  | Await q k => Await q (fun r => try_catch (k r) h)
  end.

Notation "x <- p ;; k" := (bind p (fun x => k))
  (at level 100, p at next level, right associativity).
Notation "p ;;; k" := (bind p (fun _ => k))
  (at level 100, right associativity).

(** [Date.now()] *)
Definition date_now : Prog Z := DateNow Ret.
Definition get_service : Prog Service := GetService Ret.
Definition modify (f : Service -> Service) : Prog unit :=
  GetService (fun s => PutService (f s) (Ret tt)).

(** [await request]: a rejection is thrown at the [await]. *)
Definition await (q : Request) : Prog (reply_type q) :=
  Await q (fun r => match r with inl e => Throw e | inr v => Ret v end).

(** ** The outside world and running a program in it *)

(** [clock n] is what the n-th [Date.now()] of the process returns;
    [respond n q] is how the request [q], sent as the n-th request of the
    process, ends: rejected (timeout, transport error, non-success status)
    or answered; [arrival] fixes the order in which replies to requests
    that are pending together come back (see [arrival_order]). *)
Record Env : Type := mkEnv {
  clock : nat -> Z;
  respond : nat -> forall q : Request, JsError + reply_type q;
  arrival : nat -> nat
}.

(** The service object, the requests sent so far, oldest first, and the
    number of clock readings so far. *)
Record World : Type := mkWorld {
  service : Service;
  net : list Request;
  ticks : nat
}.

Definition tick (w : World) : World :=
  {| service := service w; net := net w; ticks := S (ticks w) |}.
Definition send (q : Request) (w : World) : World :=
  {| service := service w; net := net w ++ [q]; ticks := ticks w |}.
Definition store (s : Service) (w : World) : World :=
  {| service := s; net := net w; ticks := ticks w |}.

(** A call that is awaited before anything else runs. *)
Fixpoint run {A : Type} (env : Env) (p : Prog A) (w : World)
  : (JsError + A) * World :=
  match p with
  | Ret a => (inr a, w)
  | Throw e => (inl e, w)
  | DateNow k => run env (k (clock env (ticks w))) (tick w)
  | GetService k => run env (k (service w)) w
  | PutService s k => run env k (store s w)
  | Await q k => run env (k (respond env (length (net w)) q)) (send q w)
  end.

(** A started promise: settled, or parked on a request already sent. *)
Inductive Task (A : Type) : Type :=
| Settled (r : JsError + A)
| Pending (rest : Prog A).

Arguments Settled {A} r.
Arguments Pending {A} rest.

(** Run a call up to its first [await]. *)
Fixpoint start {A : Type} (env : Env) (p : Prog A) (w : World)
  : Task A * World :=
  match p with
  | Ret a => (Settled (inr a), w)
  | Throw e => (Settled (inl e), w)
  | DateNow k => start env (k (clock env (ticks w))) (tick w)
  | GetService k => start env (k (service w)) w
  | PutService s k => start env k (store s w)
  | Await q k => (Pending (k (respond env (length (net w)) q)), send q w)
  end.

(** ** LicenseService *)

(** *** Sums of numbers

    A number of JavaScript is an IEEE 754 double.  An integer is such a
    number when it has at most 53 significant bits and is below 2^1024 in
    absolute value, and the sum of two numbers is the number nearest to
    their exact sum, a tie going to the even significand.  An exact sum of
    2^1024 - 2^970 or more in absolute value has no nearest number: it
    overflows to [Infinity], which no integer stands for, and [to_number]
    is meant for the integers below that. *)

(** The number nearest to the integer [z]. *)
Definition to_number (z : Z) : Z :=
  let m := Z.abs z in
  if m <? 2 ^ 53 then z
  else
    let e := Z.log2 m - 52 in
    let q := m / 2 ^ e in
    let r := m mod 2 ^ e in
    let half := 2 ^ (e - 1) in
    let significand :=
      if r <? half then q
      else if half <? r then q + 1
      else if Z.even q then q else q + 1 in
    Z.sgn z * (significand * 2 ^ e).

(** [a + b] on numbers that hold integers. *)
Definition js_add (a b : Z) : Z := to_number (a + b).

Arguments js_add : simpl never.

Section Counters.

Definition with_summary (f : LicenseTrackingSummary -> LicenseTrackingSummary)
    (s : Service) : Service :=
  {| licenseCache := licenseCache s; sessionSummary := f (sessionSummary s) |}.

(** [this.licenseCache.set(url, entry)] *)
Definition cache_set (u : string) (c : CacheEntry) (s : Service) : Service :=
  {| licenseCache := <[u := c]> (licenseCache s);
     sessionSummary := sessionSummary s |}.

Definition inc_total_urls (m : LicenseTrackingSummary) :=
  {| total_urls := total_urls m + 1;
     licensed_content := licensed_content m;
     unlicensed_content := unlicensed_content m;
     denied_content := denied_content m;
     total_tokens := total_tokens m;
     tracking_enabled := tracking_enabled m;
     errors := errors m |}.

Definition inc_licensed_content (m : LicenseTrackingSummary) :=
  {| total_urls := total_urls m;
     licensed_content := licensed_content m + 1;
     unlicensed_content := unlicensed_content m;
     denied_content := denied_content m;
     total_tokens := total_tokens m;
     tracking_enabled := tracking_enabled m;
     errors := errors m |}.

Definition inc_unlicensed_content (m : LicenseTrackingSummary) :=
  {| total_urls := total_urls m;
     licensed_content := licensed_content m;
     unlicensed_content := unlicensed_content m + 1;
     denied_content := denied_content m;
     total_tokens := total_tokens m;
     tracking_enabled := tracking_enabled m;
     errors := errors m |}.

Definition inc_denied_content (m : LicenseTrackingSummary) :=
  {| total_urls := total_urls m;
     licensed_content := licensed_content m;
     unlicensed_content := unlicensed_content m;
     denied_content := denied_content m + 1;
     total_tokens := total_tokens m;
     tracking_enabled := tracking_enabled m;
     errors := errors m |}.

Definition add_total_tokens (n : Z) (m : LicenseTrackingSummary) :=
  {| total_urls := total_urls m;
     licensed_content := licensed_content m;
     unlicensed_content := unlicensed_content m;
     denied_content := denied_content m;
     total_tokens := js_add (total_tokens m) n;
     tracking_enabled := tracking_enabled m;
     errors := errors m |}.

Definition inc_errors (m : LicenseTrackingSummary) :=
  {| total_urls := total_urls m;
     licensed_content := licensed_content m;
     unlicensed_content := unlicensed_content m;
     denied_content := denied_content m;
     total_tokens := total_tokens m;
     tracking_enabled := tracking_enabled m;
     errors := errors m + 1 |}.

End Counters.

(** [{ url, license_found: false, action: 'unknown' }] *)
Definition no_license (u : string) : LicenseInfo :=
  {| url := u; license_found := false; action := unknown;
     distribution := None; price := JUndefined; payto := JUndefined;
     license_version_id := JUndefined; license_sig := None;
     license_type := JUndefined; error := None |}.

(** The same with [error: error.message]. *)
Definition failed_license (u : string) (msg : string) : LicenseInfo :=
  {| url := u; license_found := false; action := unknown;
     distribution := None; price := JUndefined; payto := JUndefined;
     license_version_id := JUndefined; license_sig := None;
     license_type := JUndefined; error := Some msg |}.

(** [Array.isArray(response.data) ? response.data : [response.data]] *)
Definition licenseArray (data : LookupData) : list LedgerRecord :=
  match data with
  | DataArray records => records
  | DataSingle record => [record]
  end.

Definition is_ai_license (l : LedgerRecord) : bool :=
  strict_eq_str (r_license_type l) "ai-license".

(** The [LicenseInfo] built from the chosen record. *)
Definition license_of_record (u : string) (licenseData : LedgerRecord)
  : LicenseInfo :=
  let optStatus := r_opt_in_status licenseData in
  let found :=
    strict_eq_str optStatus "opt-in" || strict_eq_str optStatus "opt-out" in
  let act :=
    if strict_eq_str optStatus "opt-in" then allow
    else if strict_eq_str optStatus "opt-out" then deny
    else unknown in
  {| url := u; license_found := found; action := act;
     distribution := None;
     price := r_rate_per_token licenseData;
     payto := r_wallet_id licenseData;
     license_version_id := r_id licenseData;
     license_sig := None;
     license_type := r_license_type licenseData;
     error := None |}.

Arguments license_of_record : simpl never.

Definition checkLicense (cfg : LicenseServiceConfig) (u : string)
  : Prog LicenseInfo :=
  if negb (enableTracking cfg) then Ret (no_license u)
  else
    hit <- (if enableCache cfg then
              s <- get_service ;;
              match licenseCache s !! u with
              | Some cached =>
                  now <- date_now ;;
                  Ret (if expires cached >? now
                       then Some (license cached) else None)
              | None => Ret None
              end
            else Ret None) ;;
    match hit with
    | Some l => Ret l
    | None =>
        try_catch
          (data <- await (GetLicenses u (licenseCheckTimeout cfg) (apiKey cfg)) ;;
           match licenseArray data with
           | [] => Ret (no_license u)
           | first :: _ =>
               let licenseData :=
                 default first (List.find is_ai_license (licenseArray data)) in
               let lic := license_of_record u licenseData in
               (if enableCache cfg then
                  now <- date_now ;;
                  modify (cache_set u
                            {| license := lic;
                               expires := now + cacheTTL cfg * 1000 |})
                else Ret tt) ;;;
               modify (with_summary inc_total_urls) ;;;
               (if license_found lic then
                  match action lic with
                  | deny => modify (with_summary inc_denied_content)
                  | _ => modify (with_summary inc_licensed_content)
                  end
                else modify (with_summary inc_unlicensed_content)) ;;;
               Ret lic
           end)
          (fun error =>
             modify (with_summary inc_errors) ;;;
             Ret (failed_license u (message error)))
    end.

Record AcquireParams : Type := mkAcquireParams {
  p_url : string;
  p_stage : LicenseStage;
  p_distribution : Distribution;
  p_estimatedTokens : Z;
  p_paymentMethod : PaymentMethod;
  p_paymentProof : option string;
  p_paymentAmount : option Q
}.

Definition acquireLicenseToken (cfg : LicenseServiceConfig)
    (params : AcquireParams) : Prog LedgerAcquireResponse :=
  if negb (truthy (apiKey cfg)) then
    Throw (new_Error
      "COPYRIGHTSH_LEDGER_API_KEY is required for /api/v1/licenses/acquire")
  else
    let body :=
      {| b_url := p_url params;
         b_estimated_tokens := p_estimatedTokens params;
         b_stage := p_stage params;
         b_distribution := p_distribution params;
         b_payment_method := p_paymentMethod params;
         b_payment_proof := p_paymentProof params;
         b_payment_amount := p_paymentAmount params |} in
    await (PostAcquire body (licenseAcquireTimeout cfg) (apiKey cfg)).

(** The tiktoken encoder: absent when its initialisation failed; [encode]
    gives [None] when it throws. *)
Definition Encoder : Type := option (string -> option (list Z)).

(** [Math.ceil(content.length / 4)] *)
Definition rough_estimate (content : string) : Z :=
  Qceiling (inject_Z (Z.of_nat (String.length content)) / inject_Z 4).

Definition estimateTokens (tokenEncoder : Encoder) (content : string) : Z :=
  if bool_decide (content = "") then 0
  else
    match tokenEncoder with
    | Some encode =>
        match encode content with
        | Some tokens => Z.of_nat (length tokens)
        | None => rough_estimate content
        end
    | None => rough_estimate content
    end.

Definition logUsage (cfg : LicenseServiceConfig) (u : string) (tokens : Z)
    (lic : LicenseInfo) (stage : option LicenseStage)
    (dist : option Distribution) : Prog bool :=
  if negb (enableTracking cfg) || negb (truthy (apiKey cfg)) then Ret false
  else if tokens =? 0 then Ret false
  else
    now <- date_now ;;
    let usageLog :=
      {| log_url := u;
         log_tokens := tokens;
         log_license_version_id := license_version_id lic;
         log_license_sig := license_sig lic;
         log_stage := default infer stage;
         log_distribution := default private dist;
         log_timestamp := now |} in
    try_catch
      (await (PostUsageLog usageLog (usageLogTimeout cfg) (apiKey cfg)) ;;;
       modify (with_summary (add_total_tokens tokens)) ;;;
       Ret true)
      (fun error =>
         modify (with_summary inc_errors) ;;;
         Ret false).

(** *** checkLicenseBatch

    [urls.map] starts every check in turn, each running up to its [await];
    the pending ones are then resumed one at a time in the order in which
    the environment lets their replies arrive, and the callback chained on
    each check stores its outcome in [results]. *)

(** [.then(license => results.set(url, license)).catch(error => ...)] *)
Definition record_outcome (u : string) (r : JsError + LicenseInfo)
    (results : gmap string LicenseInfo) : gmap string LicenseInfo :=
  match r with
  | inr lic => <[u := lic]> results
  | inl error => <[u := failed_license u (message error)]> results
  end.

Fixpoint dispatch (env : Env) (cfg : LicenseServiceConfig)
    (urls : list string) (w : World)
  : list (string * Task LicenseInfo) * World :=
  match urls with
  | [] => ([], w)
  | u :: rest =>
      let '(t, w1) := start env (checkLicense cfg u) w in
      let '(ts, w2) := dispatch env cfg rest w1 in
      ((u, t) :: ts, w2)
  end.

(** The checks that settled without a request, and those parked on one. *)
Fixpoint settled_now (ts : list (string * Task LicenseInfo))
    (results : gmap string LicenseInfo) : gmap string LicenseInfo :=
  match ts with
  | [] => results
  | (u, Settled r) :: ts' => settled_now ts' (record_outcome u r results)
  | (_, Pending _) :: ts' => settled_now ts' results
  end.

Fixpoint parked (ts : list (string * Task LicenseInfo))
  : list (string * Prog LicenseInfo) :=
  match ts with
  | [] => []
  | (u, Pending rest) :: ts' => (u, rest) :: parked ts'
  | (_, Settled _) :: ts' => parked ts'
  end.

(** Any order of completion: each request, taken from the last sent to the
    first, is put at a place of the environment's choosing among the later
    ones. *)
Definition arrival_order {A : Type} (env : Env) (pending : list A) : list A :=
  foldr (fun t acc =>
           let i := (arrival env (length acc) mod S (length acc))%nat in
           (take i acc ++ t :: drop i acc)%list)
        [] pending.

Fixpoint settle (env : Env) (arrived : list (string * Prog LicenseInfo))
    (results : gmap string LicenseInfo) (w : World)
  : gmap string LicenseInfo * World :=
  match arrived with
  | [] => (results, w)
  | (u, rest) :: arrived' =>
      let '(r, w1) := run env rest w in
      settle env arrived' (record_outcome u r results) w1
  end.

Definition checkLicenseBatch (env : Env) (cfg : LicenseServiceConfig)
    (urls : list string) (w : World) : gmap string LicenseInfo * World :=
  match urls with
  | [] => (∅, w)
  | _ =>
      let '(ts, w1) := dispatch env cfg urls w in
      settle env (arrival_order env (parked ts)) (settled_now ts ∅) w1
  end.

(** ** licensedFetchText *)

Definition parseStage (value : option string) (fallback : LicenseStage)
  : LicenseStage :=
  match value with
  | Some "infer" => infer
  | Some "embed" => embed
  | Some "tune" => tune
  | Some "train" => train
  | _ => fallback
  end.

Definition parseDistribution (value : option string) (fallback : Distribution)
  : Distribution :=
  match value with
  | Some "private" => private
  | Some "public" => public
  | _ => fallback
  end.

(** [headers.get(name)] *)
Fixpoint headers_get (h : list (string * string)) (name : string)
  : option string :=
  match h with
  | [] => None
  | (n, v) :: h' => if bool_decide (n = name) then Some v else headers_get h' name
  end.

(** [toLowerCase] on the letters that matter for finding ["x402"] in a
    header value: A to Z. *)
Definition lower_ascii (c : ascii) : ascii :=
  let n := nat_of_ascii c in
  if ((65 <=? n) && (n <=? 90))%nat then ascii_of_nat (n + 32) else c.

Fixpoint toLowerCase (s : string) : string :=
  match s with
  | EmptyString => EmptyString
  | String c s' => String (lower_ascii c) (toLowerCase s')
  end.

(** [s.includes(needle)] *)
Fixpoint includes (s needle : string) : bool :=
  String.prefix needle s ||
  match s with
  | EmptyString => false
  | String _ s' => includes s' needle
  end.

(** [s.slice(0, e)] for an integer [e]: a negative [e] counts from the
    end. *)
Definition slice0 (s : string) (e : Z) : string :=
  let len := Z.of_nat (String.length s) in
  let final := if e <? 0 then Z.max (len + e) 0 else Z.min e len in
  String.substring 0 (Z.to_nat final) s.

Record FetchOptions : Type := mkFetchOptions {
  ledger : LicenseServiceConfig;
  o_stage : option LicenseStage;
  o_distribution : option Distribution;
  o_estimatedTokens : option Z;
  o_paymentMethod : option PaymentMethod;
  o_fetchTimeoutMs : option Z;
  o_userAgent : option string;
  o_maxChars : option Z
}.

(** The request of [fetchWithTimeout]; the abort on expiry is one of the
    rejections the environment may answer with. *)
Definition fetchWithTimeout (u userAgent : string) (timeoutMs : Z)
  : Prog Response :=
  await (Fetch u userAgent timeoutMs).

(** [try { x = await p } catch (error) { ... }] with the outcome named. *)
Definition attempt {A : Type} (p : Prog A) : Prog (JsError + A) :=
  try_catch (x <- p ;; Ret (inr x)) (fun e => Ret (inl e)).

Definition isX402 (first : Response) : bool :=
  let paymentRequiredHeader := headers_get (resp_headers first) "payment-required" in
  let paymentProtocolHeader := headers_get (resp_headers first) "x-payment-protocol" in
  includes (toLowerCase (default "" paymentRequiredHeader)) "x402" ||
  includes (toLowerCase (default "" paymentProtocolHeader)) "x402".

Definition challenge_of (first : Response) : X402Challenge :=
  let get := headers_get (resp_headers first) in
  {| x_price := or_else (get "x402-price") (get "x-license-price");
     x_payto := or_else (get "x402-payto") (get "x-license-payto");
     x_stage := get "x402-stage";
     x_distribution :=
       or_else (get "x402-distribution") (get "x-license-distribution");
     x_facilitator_url := get "x402-facilitator-url" |}.

(** [response.url || fallback] *)
Definition url_or (response_url fallback : string) : string :=
  if bool_decide (response_url = "") then fallback else response_url.

(** [envFetchTimeout] is [parseInt(process.env.FETCH_TIMEOUT_MS || '12000', 10)]. *)
Definition licensedFetchText (envFetchTimeout : Z) (u : string)
    (opts : FetchOptions) : Prog LicensedFetchResult :=
  let stage := default infer (o_stage opts) in
  let dist := default private (o_distribution opts) in
  let estimatedTokens := default 1500 (o_estimatedTokens opts) in
  let fetchTimeoutMs := default envFetchTimeout (o_fetchTimeoutMs opts) in
  let userAgent :=
    default "Copyright.sh Licensed Fetcher (x402)" (o_userAgent opts) in
  let maxChars := default 200000 (o_maxChars opts) in
  outcome <- attempt (fetchWithTimeout u userAgent fetchTimeoutMs) ;;
  match outcome with
  | inl error =>
      Ret {| requested_url := u; final_url := u; status := 0;
             content_type := None; content_text := None;
             payment_attempted := false; payment_required := false;
             x402 := None; acquire := None;
             fetch_error := Some (error_text error) |}
  | inr first =>
      let firstUrl := url_or (resp_url first) u in
      let contentType := headers_get (resp_headers first) "content-type" in
      if negb (resp_status first =? 402) then
        let text := default "" (resp_body first) in
        Ret {| requested_url := u; final_url := firstUrl;
               status := resp_status first;
               content_type := contentType;
               content_text := Some (slice0 text maxChars);
               payment_attempted := false; payment_required := false;
               x402 := None; acquire := None; fetch_error := None |}
      else
        let challenge := challenge_of first in
        if negb (isX402 first) then
          let body := default "" (resp_body first) in
          Ret {| requested_url := u; final_url := firstUrl;
                 status := resp_status first;
                 content_type := contentType;
                 content_text := Some (slice0 body maxChars);
                 payment_attempted := false; payment_required := true;
                 x402 := Some challenge; acquire := None;
                 fetch_error := Some
                   "HTTP 402 received but did not advertise x402 in payment-required header" |}
        else
          try_catch
            (acq <- acquireLicenseToken (ledger opts)
                      {| p_url := u;
                         p_stage := parseStage (x_stage challenge) stage;
                         p_distribution :=
                           parseDistribution (x_distribution challenge) dist;
                         p_estimatedTokens := estimatedTokens;
                         p_paymentMethod :=
                           default account_balance (o_paymentMethod opts);
                         p_paymentProof := None;
                         p_paymentAmount := None |} ;;
             second <- fetchWithTimeout (licensed_url acq) userAgent fetchTimeoutMs ;;
             let secondText := default "" (resp_body second) in
             Ret {| requested_url := u;
                    final_url := url_or (resp_url second) (licensed_url acq);
                    status := resp_status second;
                    content_type :=
                      headers_get (resp_headers second) "content-type";
                    content_text := Some (slice0 secondText maxChars);
                    payment_attempted := true; payment_required := true;
                    x402 := Some challenge;
                    acquire := Some
                      {| m_licensed_url := licensed_url acq;
                         m_cost := cost acq;
                         m_currency := currency acq;
                         m_expires_at := expires_at acq;
                         m_license_version_id := acq_license_version_id acq;
                         m_license_sig := acq_license_sig acq |};
                    fetch_error := None |})
            (fun error =>
               let body := default "" (resp_body first) in
               Ret {| requested_url := u; final_url := firstUrl;
                      status := resp_status first;
                      content_type := contentType;
                      content_text := Some (slice0 body maxChars);
                      payment_attempted := true; payment_required := true;
                      x402 := Some challenge; acquire := None;
                      fetch_error := Some (error_text error) |})
  end.

(** * The vocabulary of the statements *)

(** ** One license check *)

Section CheckLicenseTerms.

Variable env : Env.
Variable cfg : LicenseServiceConfig.

(** The request a check sends. *)
Definition lookup_request (u : string) : Request :=
  GetLicenses u (licenseCheckTimeout cfg) (apiKey cfg).

(** The cached license that a check started at time [now] would return. *)
Definition live_entry (s : Service) (now : Z) (u : string)
  : option LicenseInfo :=
  if enableCache cfg then
    match licenseCache s !! u with
    | Some cached =>
        if expires cached >? now then Some (license cached) else None
    | None => None
    end
  else None.

(** The world once the cache has been consulted: the clock is read only
    when an entry exists. *)
Definition probed (u : string) (w : World) : World :=
  if enableCache cfg then
    match licenseCache (service w) !! u with
    | Some _ => tick w
    | None => w
    end
  else w.

(** The record the check picks from a non-empty array. *)
Definition chosen_record (first : LedgerRecord) (records : list LedgerRecord)
  : LedgerRecord :=
  default first (List.find is_ai_license records).

(** The counters after a license built from a record has been counted. *)
Definition tally (lic : LicenseInfo) (m : LicenseTrackingSummary)
  : LicenseTrackingSummary :=
  let m1 := inc_total_urls m in
  if license_found lic then
    match action lic with
    | deny => inc_denied_content m1
    | _ => inc_licensed_content m1
    end
  else inc_unlicensed_content m1.

(** The world after the license of a record has been cached and counted. *)
Definition recorded (u : string) (lic : LicenseInfo) (w : World) : World :=
  let w1 :=
    if enableCache cfg then
      store (cache_set u {| license := lic;
                            expires := clock env (ticks w) + cacheTTL cfg * 1000 |}
                       (service w))
            (tick w)
    else w in
  store (with_summary (tally lic) (service w1)) w1.

(** What the part of a check after its [await] does with the reply. *)
Definition completed (u : string) (reply : JsError + LookupData) (w : World)
  : (JsError + LicenseInfo) * World :=
  match reply with
  | inl e =>
      (inr (failed_license u (message e)),
       store (with_summary inc_errors (service w)) w)
  | inr data =>
      match licenseArray data with
      | [] => (inr (no_license u), w)
      | first :: _ =>
          let lic :=
            license_of_record u (chosen_record first (licenseArray data)) in
          (inr lic, recorded u lic w)
      end
  end.

(** The license a reply leads to, whatever the state of the service. *)
Definition answer_of (u : string) (reply : JsError + LookupData)
  : LicenseInfo :=
  match reply with
  | inl e => failed_license u (message e)
  | inr data =>
      match licenseArray data with
      | [] => no_license u
      | first :: _ =>
          license_of_record u (chosen_record first (licenseArray data))
      end
  end.

End CheckLicenseTerms.

Definition tracked_config : LicenseServiceConfig :=
  {| apiUrl := "https://ledger.copyright.sh";
     apiKey := Some "ledger-key";
     licenseCheckTimeout := 5000;
     licenseAcquireTimeout := 8000;
     usageLogTimeout := 3000;
     enableTracking := true;
     enableCache := true;
     cacheTTL := 300 |}.

Definition timeout_error : JsError :=
  {| message := "timeout of 5000ms exceeded";
     as_string := "AxiosError: timeout of 5000ms exceeded" |}.

(** A ledger and a web that reject every request. *)
Definition unreachable : Env :=
  {| clock := fun n => 1000 * Z.of_nat n;
     respond := fun _ q => inl timeout_error;
     arrival := fun _ => 0%nat |}.

Definition fresh_world (cfg : LicenseServiceConfig) : World :=
  {| service := new_Service cfg; net := []; ticks := 0 |}.

(** [r] is the first record of [records] whose type is ['ai-license']. *)
Definition first_ai_license (records : list LedgerRecord) (r : LedgerRecord)
  : Prop :=
  exists before after : list LedgerRecord,
    records = (before ++ r :: after)%list /\
    r_license_type r = JStr "ai-license" /\
    Forall (fun x => r_license_type x <> JStr "ai-license") before.

(** A ledger that answers every lookup with [data] and accepts every usage
    log; acquisitions and fetches are rejected. *)
Definition ledger_with (data : LookupData) : Env :=
  {| clock := fun n => 1000 * Z.of_nat n;
     respond := fun _ q =>
       match q return JsError + reply_type q with
       | GetLicenses _ _ _ => inr data
       | PostUsageLog _ _ _ => inr tt
       | PostAcquire _ _ _ => inl timeout_error
       | Fetch _ _ _ => inl timeout_error
       end;
     arrival := fun _ => 0%nat |}.

Definition commercial_opt_out : LedgerRecord :=
  {| r_license_type := JStr "commercial"; r_opt_in_status := JStr "opt-out";
     r_rate_per_token := JNum (1 # 100); r_wallet_id := JStr "wallet-1";
     r_id := JNum (inject_Z 7) |}.

Definition general_opt_in : LedgerRecord :=
  {| r_license_type := JStr "ai-license"; r_opt_in_status := JStr "opt-in";
     r_rate_per_token := JNum (1 # 1000); r_wallet_id := JStr "wallet-2";
     r_id := JNum (inject_Z 8) |}.

(** One check counted: [total_urls] grows by one, and so does exactly one
    of the content counters, named by [license_found] and [action] of the
    returned license; nothing else moves. *)
Definition counted_once (lic : LicenseInfo) (m m' : LicenseTrackingSummary)
  : Prop :=
  total_urls m' = total_urls m + 1 /\
  ((license_found lic = true /\ action lic = deny /\
    denied_content m' = denied_content m + 1 /\
    licensed_content m' = licensed_content m /\
    unlicensed_content m' = unlicensed_content m) \/
   (license_found lic = true /\ action lic <> deny /\
    licensed_content m' = licensed_content m + 1 /\
    denied_content m' = denied_content m /\
    unlicensed_content m' = unlicensed_content m) \/
   (license_found lic = false /\
    unlicensed_content m' = unlicensed_content m + 1 /\
    licensed_content m' = licensed_content m /\
    denied_content m' = denied_content m)) /\
  total_tokens m' = total_tokens m /\
  errors m' = errors m /\
  tracking_enabled m' = tracking_enabled m.

(** The reading of the specification, for one call: with tracking enabled,
    a check that returns without an error is counted once. *)
Definition check_is_counted (env : Env) (cfg : LicenseServiceConfig)
    (u : string) (w : World) : Prop :=
  forall (lic : LicenseInfo) (w' : World),
    enableTracking cfg = true ->
    run env (checkLicense cfg u) w = (inr lic, w') ->
    error lic = None ->
    counted_once lic (sessionSummary (service w)) (sessionSummary (service w')).

(** The world after one check of a URL against a ledger that knows it. *)
Definition after_first_check : World :=
  snd (run (ledger_with (DataArray [general_opt_in]))
           (checkLicense tracked_config "https://example.com/a")
           (fresh_world tracked_config)).

(** The reading of the specification, for one pair of calls: after a first
    check that looked the URL up and returned without an error, a second
    check of the same URL started less than 300 seconds after the first
    one sends nothing and returns the same license. *)
Definition second_check_is_served (env : Env) (cfg : LicenseServiceConfig)
    (u : string) (w : World) : Prop :=
  forall (lic : LicenseInfo) (w1 : World),
    enableTracking cfg = true ->
    enableCache cfg = true ->
    cacheTTL cfg = 300 ->
    (forall i j : nat, (i <= j)%nat -> clock env i <= clock env j) ->
    live_entry cfg (service w) (clock env (ticks w)) u = None ->
    run env (checkLicense cfg u) w = (inr lic, w1) ->
    error lic = None ->
    clock env (ticks w1) < clock env (ticks w) + 300000 ->
    exists w2 : World,
      run env (checkLicense cfg u) w1 = (inr lic, w2) /\
      net w2 = (net w ++ [lookup_request cfg u])%list.

(** ** A batch of checks *)

Section BatchTerms.

Variable env : Env.
Variable cfg : LicenseServiceConfig.

(** A check that settled at once was answered without the ledger. *)
Definition settled_ok (w : World) (u : string) (r : JsError + LicenseInfo)
  : Prop :=
  (enableTracking cfg = false /\ r = inr (no_license u)) \/
  (exists c : CacheEntry,
     licenseCache (service w) !! u = Some c /\ r = inr (license c)).

(** A parked check waits for the reply to the request it sent as the n-th
    one, and does with it what [completed] says. *)
Definition parked_ok (sent : list Request) (base : nat)
    (t : string * Prog LicenseInfo) : Prop :=
  exists n : nat,
    (base <= n)%nat /\
    sent !! n = Some (lookup_request cfg t.1) /\
    forall w' : World,
      run env t.2 w'
        = completed env cfg t.1 (respond env n (lookup_request cfg t.1)) w'.

Definition task_ok (w : World) (sent : list Request)
    (t : string * Task LicenseInfo) : Prop :=
  match t.2 with
  | Settled r => settled_ok w t.1 r
  | Pending rest => parked_ok sent (length (net w)) (t.1, rest)
  end.

(** Where a value of the map returned by a batch comes from: tracking is
    off, or it was cached when the batch started, or it is what a lookup
    sent by the batch was answered with. *)
Definition outcome_for (w w' : World) (u : string) (l : LicenseInfo) : Prop :=
  (enableTracking cfg = false /\ l = no_license u) \/
  (exists c : CacheEntry,
     licenseCache (service w) !! u = Some c /\ l = license c) \/
  (exists n : nat,
     (length (net w) <= n)%nat /\
     net w' !! n = Some (lookup_request cfg u) /\
     l = answer_of u (respond env n (lookup_request cfg u))).

End BatchTerms.

Definition well_formed (l : LicenseInfo) : Prop :=
  (action l = allow \/ action l = deny \/ action l = unknown) /\
  (license_found l = false -> action l = unknown).

Definition cache_well_formed (s : Service) : Prop :=
  forall (u : string) (c : CacheEntry),
    licenseCache s !! u = Some c -> well_formed (license c).

(** A ledger that knows one URL, rejects the lookup of another, and lets
    the replies arrive in the reverse of the order of sending. *)
Definition patchy_ledger : Env :=
  {| clock := fun n => 1000 * Z.of_nat n;
     respond := fun _ q =>
       match q return JsError + reply_type q with
       | GetLicenses u _ _ =>
           if bool_decide (u = "https://example.com/down")
           then inl timeout_error
           else inr (DataArray [general_opt_in])
       | PostUsageLog _ _ _ => inr tt
       | PostAcquire _ _ _ => inl timeout_error
       | Fetch _ _ _ => inl timeout_error
       end;
     arrival := fun n => n |}.

Definition usage_request (cfg : LicenseServiceConfig) (u : string)
    (tokens : Z) (lic : LicenseInfo) (stage : option LicenseStage)
    (dist : option Distribution) (now : Z) : Request :=
  PostUsageLog
    {| log_url := u;
       log_tokens := tokens;
       log_license_version_id := license_version_id lic;
       log_license_sig := license_sig lic;
       log_stage := default infer stage;
       log_distribution := default private dist;
       log_timestamp := now |}
    (usageLogTimeout cfg) (apiKey cfg).

(** The reading of the specification, for one call: a usage log that the
    ledger accepts adds exactly [tokens] to [total_tokens]. *)
Definition usage_is_added (env : Env) (cfg : LicenseServiceConfig)
    (u : string) (tokens : Z) (lic : LicenseInfo)
    (stage : option LicenseStage) (dist : option Distribution) (w : World)
  : Prop :=
  forall w' : World,
    enableTracking cfg = true ->
    truthy (apiKey cfg) = true ->
    tokens <> 0 ->
    run env (logUsage cfg u tokens lic stage dist) w = (inr true, w') ->
    total_tokens (sessionSummary (service w'))
      = total_tokens (sessionSummary (service w)) + tokens.

(** The world after one accepted usage log of 2^53 tokens on a new
    service. *)
Definition after_large_log : World :=
  snd (run (ledger_with (DataArray []))
           (logUsage tracked_config "https://example.com/a" (2 ^ 53)
                     (no_license "https://example.com/a") None None)
           (fresh_world tracked_config)).

(** What the encoder gives for [content], when it is there and works. *)
Definition encoding (tokenEncoder : Encoder) (content : string)
  : option (list Z) :=
  match tokenEncoder with
  | Some encode => encode content
  | None => None
  end.

(** ** One payment-aware fetch *)

Section FetcherTerms.

Variable env : Env.
Variable envFetchTimeout : Z.
Variable u : string.
Variable opts : FetchOptions.

(** The request sent for [target], with the header and deadline that the
    options fix for both fetches. *)
Definition fetch_request (target : string) : Request :=
  Fetch target
        (default "Copyright.sh Licensed Fetcher (x402)" (o_userAgent opts))
        (default envFetchTimeout (o_fetchTimeoutMs opts)).

Definition budget : Z := default 200000 (o_maxChars opts).

(** The acquisition request that answers the challenge of [first]. *)
Definition acquire_request (first : Response) : Request :=
  PostAcquire
    {| b_url := u;
       b_estimated_tokens := default 1500 (o_estimatedTokens opts);
       b_stage :=
         parseStage (x_stage (challenge_of first))
                    (default infer (o_stage opts));
       b_distribution :=
         parseDistribution (x_distribution (challenge_of first))
                           (default private (o_distribution opts));
       b_payment_method := default account_balance (o_paymentMethod opts);
       b_payment_proof := None;
       b_payment_amount := None |}
    (licenseAcquireTimeout (ledger opts)) (apiKey (ledger opts)).

(** The metadata attached after a successful acquisition. *)
Definition metadata_of (acq : LedgerAcquireResponse) : AcquireMeta :=
  {| m_licensed_url := licensed_url acq;
     m_cost := cost acq;
     m_currency := currency acq;
     m_expires_at := expires_at acq;
     m_license_version_id := acq_license_version_id acq;
     m_license_sig := acq_license_sig acq |}.

(** The result built from the second response. *)
Definition paid_result (first second : Response)
    (acq : LedgerAcquireResponse) : LicensedFetchResult :=
  {| requested_url := u;
     final_url := url_or (resp_url second) (licensed_url acq);
     status := resp_status second;
     content_type := headers_get (resp_headers second) "content-type";
     content_text := Some (slice0 (default "" (resp_body second)) budget);
     payment_attempted := true;
     payment_required := true;
     x402 := Some (challenge_of first);
     acquire := Some (metadata_of acq);
     fetch_error := None |}.

(** The result that falls back on the first response. *)
Definition unpaid_result (first : Response) (e : JsError)
  : LicensedFetchResult :=
  {| requested_url := u;
     final_url := url_or (resp_url first) u;
     status := resp_status first;
     content_type := headers_get (resp_headers first) "content-type";
     content_text := Some (slice0 (default "" (resp_body first)) budget);
     payment_attempted := true;
     payment_required := true;
     x402 := Some (challenge_of first);
     acquire := None;
     fetch_error := Some (error_text e) |}.

End FetcherTerms.

(** The reading of the specification, for one call: after a recognised
    challenge and a successful acquisition there is a second response, the
    result is built from it with the acquisition metadata, and its
    [final_url] is the licensed URL. *)
Definition paid_fetch_as_specified (env : Env) (envFetchTimeout : Z)
    (u : string) (opts : FetchOptions) (w : World) (first : Response)
    (acq : LedgerAcquireResponse) : Prop :=
  respond env (length (net w)) (fetch_request envFetchTimeout opts u)
    = inr first ->
  resp_status first = 402 ->
  isX402 first = true ->
  truthy (apiKey (ledger opts)) = true ->
  respond env (S (length (net w))) (acquire_request u opts first) = inr acq ->
  exists (r : LicensedFetchResult) (w' : World) (second : Response),
    run env (licensedFetchText envFetchTimeout u opts) w = (inr r, w') /\
    respond env (S (S (length (net w))))
            (fetch_request envFetchTimeout opts (licensed_url acq))
      = inr second /\
    net w' = (net w ++ [fetch_request envFetchTimeout opts u;
                        acquire_request u opts first;
                        fetch_request envFetchTimeout opts (licensed_url acq)])%list /\
    payment_attempted r = true /\
    final_url r = licensed_url acq /\
    status r = resp_status second /\
    content_type r = headers_get (resp_headers second) "content-type" /\
    content_text r
      = Some (slice0 (default "" (resp_body second)) (budget opts)) /\
    acquire r = Some (metadata_of acq).

Definition paywall : Response :=
  {| resp_url := "https://example.com/a";
     resp_status := 402;
     resp_headers := [("content-type", "text/html");
                      ("payment-required", "x402");
                      ("x402-price", "0.002");
                      ("x402-stage", "infer")];
     resp_body := Some "Payment required" |}.

Definition granted : LedgerAcquireResponse :=
  {| licensed_url := "https://example.com/licensed/a?token=t1";
     acq_license_version_id := 42;
     acq_license_sig := "sig";
     expires_at := "2026-01-01T00:00:00Z";
     cost := 3 # 1000;
     currency := "USD";
     acq_stage := infer;
     acq_distribution := private;
     estimated_tokens := 1500;
     license_status := "active";
     rate_per_1k_tokens := 2 # 1000 |}.

(** The licensed URL redirects to a content host. *)
Definition delivered : Response :=
  {| resp_url := "https://cdn.example.com/a";
     resp_status := 200;
     resp_headers := [("content-type", "text/html")];
     resp_body := Some "hello" |}.

(** A site behind a paywall: the page answers 402 with an x402 challenge,
    the ledger grants the license, and any other URL is answered by
    [second]. *)
Definition paywalled_site (second : JsError + Response) : Env :=
  {| clock := fun n => 1000 * Z.of_nat n;
     respond := fun _ q =>
       match q return JsError + reply_type q with
       | Fetch target _ _ =>
           if bool_decide (target = "https://example.com/a")
           then inr paywall else second
       | PostAcquire _ _ _ => inr granted
       | GetLicenses _ _ _ => inr (DataArray [])
       | PostUsageLog _ _ _ => inr tt
       end;
     arrival := fun _ => 0%nat |}.

Definition default_options : FetchOptions :=
  {| ledger := tracked_config;
     o_stage := None; o_distribution := None; o_estimatedTokens := None;
     o_paymentMethod := None; o_fetchTimeoutMs := None; o_userAgent := None;
     o_maxChars := None |}.

Definition connection_reset : JsError :=
  {| message := "fetch failed"; as_string := "TypeError: fetch failed" |}.

(** A page that is served at once. *)
Definition open_site : Env :=
  {| clock := fun n => 1000 * Z.of_nat n;
     respond := fun _ q =>
       match q return JsError + reply_type q with
       | Fetch target _ _ =>
           inr {| resp_url := target; resp_status := 200;
                  resp_headers := [("content-type", "text/plain")];
                  resp_body := Some "hello" |}
       | PostAcquire _ _ _ => inr granted
       | GetLicenses _ _ _ => inr (DataArray [])
       | PostUsageLog _ _ _ => inr tt
       end;
     arrival := fun _ => 0%nat |}.

(** A page that answers 402 without naming x402. *)
Definition plain_paywall : Env :=
  {| clock := fun n => 1000 * Z.of_nat n;
     respond := fun _ q =>
       match q return JsError + reply_type q with
       | Fetch target _ _ =>
           inr {| resp_url := target; resp_status := 402;
                  resp_headers := [("content-type", "text/html");
                                   ("x-license-price", "0.01")];
                  resp_body := Some "Subscribers only" |}
       | PostAcquire _ _ _ => inr granted
       | GetLicenses _ _ _ => inr (DataArray [])
       | PostUsageLog _ _ _ => inr tt
       end;
     arrival := fun _ => 0%nat |}.

Definition five_chars : FetchOptions :=
  {| ledger := tracked_config;
     o_stage := None; o_distribution := None; o_estimatedTokens := None;
     o_paymentMethod := None; o_fetchTimeoutMs := None; o_userAgent := None;
     o_maxChars := Some 5 |}.

Definition three_chars : FetchOptions :=
  {| ledger := tracked_config;
     o_stage := None; o_distribution := None; o_estimatedTokens := None;
     o_paymentMethod := None; o_fetchTimeoutMs := None; o_userAgent := None;
     o_maxChars := Some 3 |}.

(** The same world with another order of arrival. *)
Definition with_arrival (f : nat -> nat) (env : Env) : Env :=
  {| clock := clock env; respond := respond env; arrival := f |}.

(** * The rest of the service and its callers *)

(** ** The rest of LicenseService *)

(** [getSessionSummary]: a copy of the counters. *)
Definition getSessionSummary : Prog LicenseTrackingSummary :=
  s <- get_service ;;
  Ret (sessionSummary s).

(** The summary that [resetSession] installs. *)
Definition zero_summary (cfg : LicenseServiceConfig) : LicenseTrackingSummary :=
  {| total_urls := 0; licensed_content := 0; unlicensed_content := 0;
     denied_content := 0; total_tokens := 0;
     tracking_enabled := enableTracking cfg; errors := 0 |}.

Definition resetSession (cfg : LicenseServiceConfig) : Prog unit :=
  modify (fun s => {| licenseCache := licenseCache s;
                      sessionSummary := zero_summary cfg |}).

(** [cleanup], as far as the service object goes: [licenseCache.clear()].
    The release of the tiktoken encoder concerns [estimateTokens] alone,
    whose encoder is an argument here. *)
Definition cleanup : Prog unit :=
  modify (fun s => {| licenseCache := ∅;
                      sessionSummary := sessionSummary s |}).

(** ** The callers in the tool handlers *)

(** Truthiness of a value read from JSON. *)
Definition js_truthy (v : JsVal) : bool :=
  match v with
  | JUndefined => false
  | JNull => false
  | JBool b => b
  | JNum q => negb (Qnum q =? 0)
  | JStr s => negb (bool_decide (s = ""))
  end.

Definition buildUsageLicense (u : string) (lic : option LicenseInfo)
    (fetched : option LicensedFetchResult) : option LicenseInfo :=
  if match lic with
     | Some l => js_truthy (license_version_id l)
     | None => false
     end
  then lic
  else
    match fetched with
    | Some f =>
        match acquire f with
        | Some a =>
            if negb (m_license_version_id a =? 0) then
              Some {| url := u; license_found := true; action := allow;
                      distribution := None; price := JUndefined;
                      payto := JUndefined;
                      license_version_id :=
                        JNum (inject_Z (m_license_version_id a));
                      license_sig := Some (m_license_sig a);
                      license_type := JStr "x402";
                      error := None |}
            else lic
        | None => lic
        end
    | None => lic
    end.

Definition logUsageFromContent (cfg : LicenseServiceConfig)
    (tokenEncoder : Encoder) (u content : string) (lic : option LicenseInfo)
    (stage : LicenseStage) (dist : Distribution) : Prog unit :=
  match lic with
  | None => Ret tt
  | Some l =>
      let tokens := estimateTokens tokenEncoder content in
      if tokens =? 0 then Ret tt
      else
        logUsage cfg u tokens l (Some stage) (Some dist) ;;;
        Ret tt
  end.

(** The fetch options of a tool call, as [getFetchOptions] returns them for
    arguments of the declared types. *)
Record FetchArgs : Type := mkFetchArgs {
  a_stage : LicenseStage;
  a_distribution : Distribution;
  a_estimatedTokens : Z;
  a_maxChars : Z;
  a_paymentMethod : PaymentMethod
}.

(** The options object that the handlers hand to the fetcher. *)
Definition handler_options (cfg : LicenseServiceConfig) (a : FetchArgs)
  : FetchOptions :=
  {| ledger := cfg;
     o_stage := Some (a_stage a);
     o_distribution := Some (a_distribution a);
     o_estimatedTokens := Some (a_estimatedTokens a);
     o_paymentMethod := Some (a_paymentMethod a);
     o_fetchTimeoutMs := None;
     o_userAgent := None;
     o_maxChars := Some (a_maxChars a) |}.

(** One turn of the loop over the URLs that [handleSearch], [handleExtract]
    and [handleCrawl] run when [fetch] is set: fetch the page, then log the
    usage of what was delivered.  [licenses] is the map of the batch; the
    result returned is the one the handler files under the URL in
    [fetchedByUrl] for its report. *)
Definition fetchAndLog (cfg : LicenseServiceConfig) (tokenEncoder : Encoder)
    (envFetchTimeout : Z) (a : FetchArgs)
    (licenses : gmap string LicenseInfo) (u : string)
  : Prog LicensedFetchResult :=
  fetched <- licensedFetchText envFetchTimeout u (handler_options cfg a) ;;
  (if truthy (content_text fetched)
      && (200 <=? status fetched) && (status fetched <? 300)
   then
     let usageLicense :=
       buildUsageLicense u (licenses !! u) (Some fetched) in
     logUsageFromContent cfg tokenEncoder u (default "" (content_text fetched))
                         usageLicense (a_stage a) (a_distribution a)
   else Ret tt) ;;;
  Ret fetched.

(** ** The body of a search request *)

(** [search] builds the body of its request from the arguments of the
    tool call, [params], and from [defaults], the object that
    [getDefaultParameters] read from [DEFAULT_PARAMETERS]: the empty object
    when the variable is unset or does not hold a JSON object. *)

Set Warnings "-register-all".

(** A value of an argument object of type [any], as JSON gives it. *)
Inductive Param : Type :=
| PUndefined
| PNull
| PBool (b : bool)
| PNum (q : Q)
| PStr (s : string)
| PArray (items : list Param)
| PObject (fields : list (string * Param)).

Definition param_truthy (v : Param) : bool :=
  match v with
  | PUndefined => false
  | PNull => false
  | PBool b => b
  | PNum q => negb (Qnum q =? 0)
  | PStr s => negb (bool_decide (s = ""))
  | PArray _ => true
  | PObject _ => true
  end.

(** [a || b] *)
Definition param_or (a b : Param) : Param :=
  if param_truthy a then a else b.

(** [o.key] of an object that came as JSON. *)
Definition param_get (o : gmap string Param) (key : string) : Param :=
  default PUndefined (o !! key).

(** [o.key] of an object literal, its properties in the order written. *)
Fixpoint field (o : list (string * Param)) (key : string) : Param :=
  match o with
  | [] => PUndefined
  | (k, v) :: rest => if bool_decide (k = key) then v else field rest key
  end.

(** [o.key = v] for a property that the literal has. *)
Definition set_field (key : string) (v : Param) (o : list (string * Param))
  : list (string * Param) :=
  map (fun kv => if bool_decide (kv.1 = key) then (kv.1, v) else kv) o.

(** The object literal that [search] starts from. *)
Definition searchParams (API_KEY : string) (params : gmap string Param)
  : list (string * Param) :=
  [("query", param_get params "query");
   ("search_depth", param_get params "search_depth");
   ("topic", param_get params "topic");
   ("days", param_get params "days");
   ("time_range", param_get params "time_range");
   ("max_results", param_get params "max_results");
   ("include_images", param_get params "include_images");
   ("include_image_descriptions",
    param_get params "include_image_descriptions");
   ("include_raw_content", param_get params "include_raw_content");
   ("include_domains",
    param_or (param_get params "include_domains") (PArray []));
   ("exclude_domains",
    param_or (param_get params "exclude_domains") (PArray []));
   ("country", param_get params "country");
   ("include_favicon", param_get params "include_favicon");
   ("start_date", param_get params "start_date");
   ("end_date", param_get params "end_date");
   ("api_key", PStr API_KEY)].

(** [for (const key in searchParams) if (key in defaults)
    searchParams[key] = defaults[key]] *)
Definition apply_defaults (defaults : gmap string Param)
    (o : list (string * Param)) : list (string * Param) :=
  map (fun kv => (kv.1, default kv.2 (defaults !! kv.1))) o.

(** The rule on dates: absolute dates put the relative ones aside. *)
Definition drop_relative_dates (o : list (string * Param))
  : list (string * Param) :=
  if (param_truthy (field o "start_date") || param_truthy (field o "end_date"))
     && (param_truthy (field o "time_range") || param_truthy (field o "days"))
  then set_field "time_range" PUndefined (set_field "days" PUndefined o)
  else o.

(** What the cleaning loop lets through. *)
Definition kept (v : Param) : bool :=
  match v with
  | PUndefined => false
  | PNull => false
  | PStr s => negb (bool_decide (s = ""))
  | PArray [] => false
  | _ => true
  end.

(** The body that [search] posts. *)
Definition cleanedParams (API_KEY : string) (defaults params : gmap string Param)
  : list (string * Param) :=
  List.filter (fun kv => kept kv.2)
    (drop_relative_dates
       (apply_defaults defaults (searchParams API_KEY params))).

(** * The vocabulary of the further statements *)


(** ** The results of the fetcher, path by path *)

Section FetcherResults.

Variable u : string.
Variable opts : FetchOptions.

(** No response at all. *)
Definition failed_result (e : JsError) : LicensedFetchResult :=
  {| requested_url := u; final_url := u; status := 0;
     content_type := None; content_text := None;
     payment_attempted := false; payment_required := false;
     x402 := None; acquire := None;
     fetch_error := Some (error_text e) |}.

(** A response that is not a 402. *)
Definition direct_result (first : Response) : LicensedFetchResult :=
  {| requested_url := u;
     final_url := url_or (resp_url first) u;
     status := resp_status first;
     content_type := headers_get (resp_headers first) "content-type";
     content_text := Some (slice0 (default "" (resp_body first)) (budget opts));
     payment_attempted := false; payment_required := false;
     x402 := None; acquire := None; fetch_error := None |}.

(** A 402 that does not name x402. *)
Definition unrecognised_result (first : Response) : LicensedFetchResult :=
  {| requested_url := u;
     final_url := url_or (resp_url first) u;
     status := resp_status first;
     content_type := headers_get (resp_headers first) "content-type";
     content_text := Some (slice0 (default "" (resp_body first)) (budget opts));
     payment_attempted := false; payment_required := true;
     x402 := Some (challenge_of first); acquire := None;
     fetch_error := Some
       "HTTP 402 received but did not advertise x402 in payment-required header" |}.

End FetcherResults.

(** The error of [acquireLicenseToken] when no key is configured. *)
Definition missing_key_error : JsError :=
  new_Error
    "COPYRIGHTSH_LEDGER_API_KEY is required for /api/v1/licenses/acquire".

(** The value of a header mentions x402, in any case of the letter. *)
Definition mentions_x402 (value : option string) : Prop :=
  exists pre mark post : string,
    value = Some (pre ++ mark ++ post) /\ toLowerCase mark = "x402".

Definition stage_name (s : LicenseStage) : string :=
  match s with
  | infer => "infer" | embed => "embed" | tune => "tune" | train => "train"
  end.

Definition distribution_name (d : Distribution) : string :=
  match d with private => "private" | public => "public" end.

Definition keyless_config : LicenseServiceConfig :=
  {| apiUrl := "https://ledger.copyright.sh";
     apiKey := None;
     licenseCheckTimeout := 5000;
     licenseAcquireTimeout := 8000;
     usageLogTimeout := 3000;
     enableTracking := true;
     enableCache := false;
     cacheTTL := 300 |}.

Definition keyless_options : FetchOptions :=
  {| ledger := keyless_config;
     o_stage := None; o_distribution := None; o_estimatedTokens := None;
     o_paymentMethod := None; o_fetchTimeoutMs := None; o_userAgent := None;
     o_maxChars := None |}.

Definition payment_declined : JsError :=
  {| message := "Request failed with status code 402";
     as_string := "AxiosError: Request failed with status code 402" |}.

(** A paywalled page whose ledger refuses the acquisition. *)
Definition refusing_ledger : Env :=
  {| clock := fun n => 1000 * Z.of_nat n;
     respond := fun _ q =>
       match q return JsError + reply_type q with
       | Fetch _ _ _ => inr paywall
       | PostAcquire _ _ _ => inl payment_declined
       | GetLicenses _ _ _ => inr (DataArray [])
       | PostUsageLog _ _ _ => inr tt
       end;
     arrival := fun _ => 0%nat |}.

(** ** A session: the calls made on one service, one after the other *)

(** The options with which the tool handlers call the fetcher: the ledger
    is their own service. *)
Definition on_ledger (cfg : LicenseServiceConfig) (opts : FetchOptions)
  : FetchOptions :=
  {| ledger := cfg;
     o_stage := o_stage opts;
     o_distribution := o_distribution opts;
     o_estimatedTokens := o_estimatedTokens opts;
     o_paymentMethod := o_paymentMethod opts;
     o_fetchTimeoutMs := o_fetchTimeoutMs opts;
     o_userAgent := o_userAgent opts;
     o_maxChars := o_maxChars opts |}.

(** The public methods of the service and the fetcher that uses it. *)
Inductive Call : Type :=
| CheckLicense (u : string)
| CheckLicenseBatch (urls : list string)
| AcquireLicenseToken (params : AcquireParams)
| LogUsage (u : string) (tokens : Z) (lic : LicenseInfo)
    (stage : option LicenseStage) (dist : option Distribution)
| GetSessionSummary
| ResetSession
| Cleanup
| LicensedFetchText (envFetchTimeout : Z) (u : string) (opts : FetchOptions).

(** The world after a call that is awaited to its end. *)
Definition perform (env : Env) (cfg : LicenseServiceConfig) (c : Call)
    (w : World) : World :=
  match c with
  | CheckLicense u => snd (run env (checkLicense cfg u) w)
  | CheckLicenseBatch urls => snd (checkLicenseBatch env cfg urls w)
  | AcquireLicenseToken params =>
      snd (run env (acquireLicenseToken cfg params) w)
  | LogUsage u tokens lic stage dist =>
      snd (run env (logUsage cfg u tokens lic stage dist) w)
  | GetSessionSummary => snd (run env getSessionSummary w)
  | ResetSession => snd (run env (resetSession cfg) w)
  | Cleanup => snd (run env cleanup w)
  | LicensedFetchText envFetchTimeout u opts =>
      snd (run env (licensedFetchText envFetchTimeout u (on_ledger cfg opts)) w)
  end.

Definition session (env : Env) (cfg : LicenseServiceConfig)
    (calls : list Call) (w : World) : World :=
  foldl (fun w c => perform env cfg c w) w calls.

(** The number of URLs that the calls ask to be checked. *)
Definition checks_of (c : Call) : Z :=
  match c with
  | CheckLicense _ => 1
  | CheckLicenseBatch urls => Z.of_nat (length urls)
  | _ => 0
  end.

Definition checks (calls : list Call) : Z :=
  foldr (fun c n => checks_of c + n) 0 calls.

(** The number of requests of one kind among those sent. *)
Definition sent (kind : Request -> bool) (qs : list Request) : Z :=
  Z.of_nat (length (List.filter kind qs)).

(** The counters add up, none is negative, and the flag is the
    configuration's. *)
Definition summary_consistent (cfg : LicenseServiceConfig)
    (m : LicenseTrackingSummary) : Prop :=
  total_urls m = licensed_content m + unlicensed_content m + denied_content m /\
  0 <= licensed_content m /\
  0 <= unlicensed_content m /\
  0 <= denied_content m /\
  0 <= errors m /\
  tracking_enabled m = enableTracking cfg.

(** What the service may send under a configuration. *)
Definition permitted (cfg : LicenseServiceConfig) (q : Request) : Prop :=
  match q with
  | GetLicenses _ timeout key =>
      enableTracking cfg = true /\
      timeout = licenseCheckTimeout cfg /\ key = apiKey cfg
  | PostAcquire _ timeout key =>
      truthy (apiKey cfg) = true /\
      timeout = licenseAcquireTimeout cfg /\ key = apiKey cfg
  | PostUsageLog entry timeout key =>
      enableTracking cfg = true /\ truthy (apiKey cfg) = true /\
      log_tokens entry <> 0 /\
      timeout = usageLogTimeout cfg /\ key = apiKey cfg
  | Fetch _ _ _ => True
  end.

(** Every cached license is stored under its own URL and carries no
    error. *)
Definition cache_keyed (s : Service) : Prop :=
  forall (u : string) (c : CacheEntry),
    licenseCache s !! u = Some c ->
    url (license c) = u /\ error (license c) = None.

(** [m'] counts at most [k] more URLs and errors than [m], and no fewer. *)
Definition grows_within (k : Z) (m m' : LicenseTrackingSummary) : Prop :=
  total_urls m <= total_urls m' /\
  errors m <= errors m' /\
  (total_urls m' - total_urls m) + (errors m' - errors m) <= k.

Definition untracked_config : LicenseServiceConfig :=
  {| apiUrl := "https://ledger.copyright.sh";
     apiKey := Some "ledger-key";
     licenseCheckTimeout := 5000;
     licenseAcquireTimeout := 8000;
     usageLogTimeout := 3000;
     enableTracking := false;
     enableCache := true;
     cacheTTL := 300 |}.

(** A session that uses every method. *)
Definition busy_session : list Call :=
  [CheckLicense "https://example.com/a";
   CheckLicenseBatch ["https://example.com/a"; "https://example.com/b"];
   LogUsage "https://example.com/a" 120
            (license_of_record "https://example.com/a" general_opt_in)
            None None;
   LicensedFetchText 12000 "https://example.com/a" default_options;
   GetSessionSummary;
   CheckLicense "https://example.com/a";
   ResetSession;
   Cleanup;
   CheckLicense "https://example.com/b"].

Definition uncached_config : LicenseServiceConfig :=
  {| apiUrl := "https://ledger.copyright.sh";
     apiKey := Some "ledger-key";
     licenseCheckTimeout := 5000;
     licenseAcquireTimeout := 8000;
     usageLogTimeout := 3000;
     enableTracking := true;
     enableCache := false;
     cacheTTL := 300 |}.

(** The calls that may write or drop the cache entry of [u]. *)
Definition touches (c : Call) (u : string) : Prop :=
  match c with
  | CheckLicense u' => u' = u
  | CheckLicenseBatch urls => u ∈ urls
  | Cleanup => True
  | _ => False
  end.

(** The license version that a lookup or an acquisition supplies. *)
Definition supplies_id (lic : option LicenseInfo)
    (fetched : option LicensedFetchResult) : Prop :=
  (exists l : LicenseInfo,
     lic = Some l /\ js_truthy (license_version_id l) = true) \/
  (exists (f : LicensedFetchResult) (m : AcquireMeta),
     fetched = Some f /\ acquire f = Some m /\ m_license_version_id m <> 0).

(** The license that stands for an acquisition in the usage log. *)
Definition acquired_license (u : string) (m : AcquireMeta) : LicenseInfo :=
  {| url := u; license_found := true; action := allow;
     distribution := None; price := JUndefined; payto := JUndefined;
     license_version_id := JNum (inject_Z (m_license_version_id m));
     license_sig := Some (m_license_sig m);
     license_type := JStr "x402";
     error := None |}.

Definition default_args : FetchArgs :=
  {| a_stage := infer; a_distribution := private;
     a_estimatedTokens := 1500; a_maxChars := 200000;
     a_paymentMethod := account_balance |}.

(** The usage of a fetched page is due for logging: it was delivered with a
    2xx status and a text that is not empty and has tokens, there is a
    license to log it under, and the service is set up to log. *)
Definition usage_due (cfg : LicenseServiceConfig) (tokenEncoder : Encoder)
    (licenses : gmap string LicenseInfo) (u : string)
    (fetched : LicensedFetchResult) (content : string) (l : LicenseInfo)
  : Prop :=
  content_text fetched = Some content /\ content <> "" /\
  200 <= status fetched < 300 /\
  buildUsageLicense u (licenses !! u) (Some fetched) = Some l /\
  estimateTokens tokenEncoder content <> 0 /\
  enableTracking cfg = true /\ truthy (apiKey cfg) = true.

(** An encoder that gives one token for each character. *)
Definition one_token_per_char : Encoder :=
  Some (fun s => Some (map (fun c => Z.of_nat (nat_of_ascii c))
                           (list_ascii_of_string s))).

(** The names of the properties of the literal. *)
Definition search_keys : list string :=
  ["query"; "search_depth"; "topic"; "days"; "time_range"; "max_results";
   "include_images"; "include_image_descriptions"; "include_raw_content";
   "include_domains"; "exclude_domains"; "country"; "include_favicon";
   "start_date"; "end_date"; "api_key"].

(** A search for news of the last week that also names a first day. *)
Definition dated_news : gmap string Param :=
  list_to_map [("query", PStr "rocq"); ("topic", PStr "news");
               ("days", PNum (inject_Z 7));
               ("start_date", PStr "2026-01-01");
               ("end_date", PStr "");
               ("max_results", PNum (inject_Z 5))].

(** The object of a [DEFAULT_PARAMETERS] that sets [max_results] to 20 and
    [topic] to null. *)
Definition twenty_results : gmap string Param :=
  list_to_map [("max_results", PNum (inject_Z 20)); ("topic", PNull)].

(** * Properties *)

(** ** Running a call and starting it agree *)

Lemma run_start {A : Type} (env : Env) (p : Prog A) (w : World) :
  run env p w =
  match start env p w with
  | (Settled r, w') => (r, w')
  | (Pending rest, w') => run env rest w'
  end.
Proof.
  revert w. induction p as [a|e|k IH|k IH|s k IH|q k IH]; intros w; simpl;
    try reflexivity; auto.
Qed.

(** ** What one license check does *)

Section CheckLicense.

Variable env : Env.
Variable cfg : LicenseServiceConfig.

Lemma start_checkLicense_off (u : string) (w : World) :
  enableTracking cfg = false ->
  start env (checkLicense cfg u) w = (Settled (inr (no_license u)), w).
Proof. intros H. unfold checkLicense. rewrite H. reflexivity. Qed.

Lemma start_checkLicense_hit (u : string) (w : World) (l : LicenseInfo) :
  enableTracking cfg = true ->
  live_entry cfg (service w) (clock env (ticks w)) u = Some l ->
  start env (checkLicense cfg u) w = (Settled (inr l), tick w).
Proof.
  intros Ht Hl. unfold checkLicense, live_entry in *. rewrite Ht.
  destruct (enableCache cfg); [|discriminate]. simpl.
  destruct (licenseCache (service w) !! u) as [c|]; [|discriminate]. simpl.
  destruct (expires c >? clock env (ticks w)); [|discriminate].
  injection Hl as <-. reflexivity.
Qed.

Lemma start_checkLicense_miss (u : string) (w : World) :
  enableTracking cfg = true ->
  live_entry cfg (service w) (clock env (ticks w)) u = None ->
  exists rest : Prog LicenseInfo,
    start env (checkLicense cfg u) w
      = (Pending rest, send (lookup_request cfg u) (probed cfg u w)) /\
    forall w' : World,
      run env rest w'
        = completed env cfg u (respond env (length (net w)) (lookup_request cfg u)) w'.
Proof.
  intros Ht Hl. unfold checkLicense, live_entry, probed in *. rewrite Ht.
  assert (Hrest : forall (r : JsError + LookupData) (w' : World),
    run env
      (try_catch
         (bind
            (match r with inl e => Throw e | inr v => Ret v end)
            (fun data =>
               match licenseArray data with
               | [] => Ret (no_license u)
               | first :: _ =>
                   let licenseData :=
                     default first (List.find is_ai_license (licenseArray data)) in
                   let lic := license_of_record u licenseData in
                   (if enableCache cfg then
                      now <- date_now ;;
                      modify (cache_set u
                                {| license := lic;
                                   expires := now + cacheTTL cfg * 1000 |})
                    else Ret tt) ;;;
                   modify (with_summary inc_total_urls) ;;;
                   (if license_found lic then
                      match action lic with
                      | deny => modify (with_summary inc_denied_content)
                      | _ => modify (with_summary inc_licensed_content)
                      end
                    else modify (with_summary inc_unlicensed_content)) ;;;
                   Ret lic
               end))
         (fun error =>
            modify (with_summary inc_errors) ;;;
            Ret (failed_license u (message error)))) w'
    = completed env cfg u r w').
  { intros [e|data] w'; [reflexivity|].
    unfold completed. cbn [bind try_catch].
    destruct (licenseArray data) as [|first rest]; [reflexivity|].
    unfold recorded, chosen_record, tally. cbv zeta.
    generalize (license_of_record u
                  (default first (List.find is_ai_license (first :: rest)))).
    intros lic.
    destruct (enableCache cfg), (license_found lic), (action lic);
      reflexivity. }
  destruct (enableCache cfg); simpl.
  - destruct (licenseCache (service w) !! u) as [c|]; simpl.
    + destruct (expires c >? clock env (ticks w)); [discriminate|]. simpl.
      eexists. split; [reflexivity|]. intros w'. apply Hrest.
    + eexists. split; [reflexivity|]. intros w'. apply Hrest.
  - eexists. split; [reflexivity|]. intros w'. apply Hrest.
Qed.

Lemma run_checkLicense_off (u : string) (w : World) :
  enableTracking cfg = false ->
  run env (checkLicense cfg u) w = (inr (no_license u), w).
Proof.
  intros H. rewrite run_start, start_checkLicense_off by assumption.
  reflexivity.
Qed.

Lemma run_checkLicense_hit (u : string) (w : World) (l : LicenseInfo) :
  enableTracking cfg = true ->
  live_entry cfg (service w) (clock env (ticks w)) u = Some l ->
  run env (checkLicense cfg u) w = (inr l, tick w).
Proof.
  intros Ht Hl. rewrite run_start, (start_checkLicense_hit u w l) by assumption.
  reflexivity.
Qed.

Lemma run_checkLicense_miss (u : string) (w : World) :
  enableTracking cfg = true ->
  live_entry cfg (service w) (clock env (ticks w)) u = None ->
  run env (checkLicense cfg u) w
    = completed env cfg u (respond env (length (net w)) (lookup_request cfg u))
                (send (lookup_request cfg u) (probed cfg u w)).
Proof.
  intros Ht Hl. rewrite run_start.
  destruct (start_checkLicense_miss u w Ht Hl) as [rest [-> Hrest]].
  apply Hrest.
Qed.

Lemma service_probed (u : string) (w : World) :
  service (probed cfg u w) = service w.
Proof.
  unfold probed. destruct (enableCache cfg); [|reflexivity].
  destruct (licenseCache (service w) !! u); reflexivity.
Qed.

Lemma net_probed (u : string) (w : World) : net (probed cfg u w) = net w.
Proof.
  unfold probed. destruct (enableCache cfg); [|reflexivity].
  destruct (licenseCache (service w) !! u); reflexivity.
Qed.

Lemma completed_answer (u : string) (reply : JsError + LookupData)
    (w : World) :
  fst (completed env cfg u reply w) = inr (answer_of u reply).
Proof.
  destruct reply as [e|data]; simpl; [reflexivity|].
  destruct (licenseArray data); reflexivity.
Qed.

(** Nothing is sent after the [await]. *)
Lemma completed_net (u : string) (reply : JsError + LookupData) (w : World) :
  net (snd (completed env cfg u reply w)) = net w.
Proof.
  destruct reply as [e|data]; simpl; [reflexivity|].
  destruct (licenseArray data); simpl; [reflexivity|].
  unfold recorded. destruct (enableCache cfg); reflexivity.
Qed.

End CheckLicense.

(** Projections of a world that went through [store], [send] and [tick]. *)
Ltac world_simpl :=
  cbn [service net ticks store send tick sessionSummary licenseCache
       with_summary cache_set fst snd];
  rewrite ?service_probed, ?net_probed.

(** ** Failed lookups *)

(** C4. When the ledger lookup of a check is rejected (timeout, transport
    error or non-success status), [checkLicense] does not throw: it returns
    a license with [license_found = false], [action = unknown] and the
    message of the rejection as [error], adds one to the [errors] counter,
    leaves every other counter alone and writes nothing into the cache. *)
Theorem checkLicense_lookup_failure
    (env : Env) (cfg : LicenseServiceConfig) (u : string) (w : World)
    (e : JsError) :
  enableTracking cfg = true ->
  live_entry cfg (service w) (clock env (ticks w)) u = None ->
  respond env (length (net w)) (lookup_request cfg u) = inl e ->
  exists (lic : LicenseInfo) (w' : World),
    run env (checkLicense cfg u) w = (inr lic, w') /\
    url lic = u /\
    license_found lic = false /\
    action lic = unknown /\
    error lic = Some (message e) /\
    sessionSummary (service w')
      = inc_errors (sessionSummary (service w)) /\
    errors (sessionSummary (service w'))
      = errors (sessionSummary (service w)) + 1 /\
    licenseCache (service w') = licenseCache (service w) /\
    net w' = (net w ++ [lookup_request cfg u])%list.
Proof.
  intros Ht Hmiss Hreply.
  rewrite (run_checkLicense_miss env cfg u w Ht Hmiss).
  change (JsError + reply_type (lookup_request cfg u))%type
    with (JsError + LookupData)%type in Hreply.
  rewrite Hreply. simpl.
  eexists _, _. split; [reflexivity|].
  world_simpl. repeat split; reflexivity.
Qed.

Lemma checkLicense_lookup_failure_witness :
  exists (lic : LicenseInfo) (w' : World),
    run unreachable (checkLicense tracked_config "https://example.com/a")
        (fresh_world tracked_config) = (inr lic, w') /\
    url lic = "https://example.com/a" /\
    license_found lic = false /\
    action lic = unknown /\
    error lic = Some "timeout of 5000ms exceeded" /\
    sessionSummary (service w')
      = inc_errors (sessionSummary (service (fresh_world tracked_config))) /\
    errors (sessionSummary (service w')) = 0 + 1 /\
    licenseCache (service w') = ∅ /\
    net w' = [lookup_request tracked_config "https://example.com/a"].
Proof.
  apply (checkLicense_lookup_failure unreachable tracked_config
           "https://example.com/a" (fresh_world tracked_config) timeout_error);
    reflexivity.
Defined.

(** ** Which record decides, and how *)

Lemma strict_eq_str_true (v : JsVal) (lit : string) :
  strict_eq_str v lit = true <-> v = JStr lit.
Proof.
  destruct v; simpl; try (split; [discriminate|discriminate]).
  rewrite bool_decide_eq_true. split; [intros ->; reflexivity|].
  intros H; injection H; auto.
Qed.

Lemma strict_eq_str_false (v : JsVal) (lit : string) :
  strict_eq_str v lit = false <-> v <> JStr lit.
Proof.
  rewrite <- strict_eq_str_true. destruct (strict_eq_str v lit); split;
    congruence.
Qed.

Lemma find_ai_license_some (records : list LedgerRecord) (r : LedgerRecord) :
  List.find is_ai_license records = Some r -> first_ai_license records r.
Proof.
  induction records as [|x records IH]; simpl; [discriminate|].
  destruct (is_ai_license x) eqn:Hx.
  - intros H; injection H as ->. exists [], records.
    split; [reflexivity|]. split; [|constructor].
    apply strict_eq_str_true, Hx.
  - intros H. destruct (IH H) as (before & after & -> & Hr & Hb).
    exists (x :: before), after. split; [reflexivity|]. split; [assumption|].
    constructor; [|assumption]. apply strict_eq_str_false, Hx.
Qed.

Lemma find_ai_license_none (records : list LedgerRecord) :
  List.find is_ai_license records = None ->
  forall x, x ∈ records -> r_license_type x <> JStr "ai-license".
Proof.
  induction records as [|y records IH]; simpl; intros H x Hin.
  - inversion Hin.
  - destruct (is_ai_license y) eqn:Hy; [discriminate|].
    apply elem_of_cons in Hin as [->|Hin]; [|exact (IH H x Hin)].
    apply strict_eq_str_false, Hy.
Qed.

Lemma chosen_record_spec (first : LedgerRecord) (rest : list LedgerRecord) :
  let r := chosen_record first (first :: rest) in
  ((exists x, x ∈ first :: rest /\ r_license_type x = JStr "ai-license") ->
   first_ai_license (first :: rest) r) /\
  ((forall x, x ∈ first :: rest -> r_license_type x <> JStr "ai-license") ->
   r = first).
Proof.
  unfold chosen_record.
  destruct (List.find is_ai_license (first :: rest)) as [r|] eqn:Hfind; simpl.
  - apply find_ai_license_some in Hfind. split; [auto|].
    intros Hnone. destruct Hfind as (before & after & Heq & Hr & _).
    exfalso. apply (Hnone r); [|assumption].
    rewrite Heq. apply elem_of_app. right. apply elem_of_cons. left. reflexivity.
  - split; [|reflexivity].
    intros (x & Hin & Hx). exfalso.
    exact (find_ai_license_none _ Hfind x Hin Hx).
Qed.

Lemma license_of_record_action (u : string) (r : LedgerRecord) :
  (r_opt_in_status r = JStr "opt-in" ->
   action (license_of_record u r) = allow) /\
  (r_opt_in_status r = JStr "opt-out" ->
   action (license_of_record u r) = deny) /\
  (r_opt_in_status r <> JStr "opt-in" ->
   r_opt_in_status r <> JStr "opt-out" ->
   action (license_of_record u r) = unknown) /\
  (license_found (license_of_record u r) = true <->
   r_opt_in_status r = JStr "opt-in" \/ r_opt_in_status r = JStr "opt-out").
Proof.
  unfold license_of_record; cbn [action license_found].
  repeat split.
  - intros ->. reflexivity.
  - intros ->. reflexivity.
  - intros H1 H2. apply strict_eq_str_false in H1, H2. rewrite H1, H2.
    reflexivity.
  - intros H. apply orb_prop in H as [H|H]; apply strict_eq_str_true in H; auto.
  - intros [-> | ->]; reflexivity.
Qed.

(** C3. Whatever the ledger answers to the lookup, [checkLicense] decides
    on the first record whose license type is ['ai-license'] when there is
    one and on the first record otherwise; the opt-in field of that record
    gives [allow] for ['opt-in'], [deny] for ['opt-out'] and [unknown] for
    anything else, and [license_found] is true exactly for ['opt-in'] and
    ['opt-out'].  A response without records gives [license_found = false]
    and [action = unknown]. *)
Theorem checkLicense_record_choice
    (env : Env) (cfg : LicenseServiceConfig) (u : string) (w : World)
    (data : LookupData) :
  enableTracking cfg = true ->
  live_entry cfg (service w) (clock env (ticks w)) u = None ->
  respond env (length (net w)) (lookup_request cfg u) = inr data ->
  exists (lic : LicenseInfo) (w' : World),
    run env (checkLicense cfg u) w = (inr lic, w') /\
    match licenseArray data with
    | [] => license_found lic = false /\ action lic = unknown
    | first :: _ =>
        exists r : LedgerRecord,
          ((exists x, x ∈ licenseArray data /\
                      r_license_type x = JStr "ai-license") ->
           first_ai_license (licenseArray data) r) /\
          ((forall x, x ∈ licenseArray data ->
                      r_license_type x <> JStr "ai-license") ->
           r = first) /\
          (r_opt_in_status r = JStr "opt-in" -> action lic = allow) /\
          (r_opt_in_status r = JStr "opt-out" -> action lic = deny) /\
          (r_opt_in_status r <> JStr "opt-in" ->
           r_opt_in_status r <> JStr "opt-out" -> action lic = unknown) /\
          (license_found lic = true <->
           r_opt_in_status r = JStr "opt-in" \/
           r_opt_in_status r = JStr "opt-out")
    end.
Proof.
  intros Ht Hmiss Hreply.
  rewrite (run_checkLicense_miss env cfg u w Ht Hmiss).
  change (JsError + reply_type (lookup_request cfg u))%type
    with (JsError + LookupData)%type in Hreply.
  rewrite Hreply. unfold completed.
  destruct (licenseArray data) as [|first rest] eqn:Harr.
  - eexists _, _. split; [reflexivity|]. split; reflexivity.
  - eexists _, _. split; [reflexivity|].
    exists (chosen_record first (first :: rest)).
    destruct (chosen_record_spec first rest) as [Hai Hfirst].
    split; [exact Hai|]. split; [exact Hfirst|].
    apply license_of_record_action.
Qed.

Lemma checkLicense_record_choice_witness :
  exists (lic : LicenseInfo) (w' : World),
    run (ledger_with (DataArray [commercial_opt_out; general_opt_in]))
        (checkLicense tracked_config "https://example.com/a")
        (fresh_world tracked_config) = (inr lic, w') /\
    exists r : LedgerRecord,
      ((exists x, x ∈ [commercial_opt_out; general_opt_in] /\
                  r_license_type x = JStr "ai-license") ->
       first_ai_license [commercial_opt_out; general_opt_in] r) /\
      ((forall x, x ∈ [commercial_opt_out; general_opt_in] ->
                  r_license_type x <> JStr "ai-license") ->
       r = commercial_opt_out) /\
      (r_opt_in_status r = JStr "opt-in" -> action lic = allow) /\
      (r_opt_in_status r = JStr "opt-out" -> action lic = deny) /\
      (r_opt_in_status r <> JStr "opt-in" ->
       r_opt_in_status r <> JStr "opt-out" -> action lic = unknown) /\
      (license_found lic = true <->
       r_opt_in_status r = JStr "opt-in" \/
       r_opt_in_status r = JStr "opt-out").
Proof.
  apply (checkLicense_record_choice
           (ledger_with (DataArray [commercial_opt_out; general_opt_in]))
           tracked_config "https://example.com/a" (fresh_world tracked_config)
           (DataArray [commercial_opt_out; general_opt_in]));
    reflexivity.
Defined.

(** The second record, which has the general type, is the one that counts. *)
Example general_license_preferred :
  fst (run (ledger_with (DataArray [commercial_opt_out; general_opt_in]))
           (checkLicense tracked_config "https://example.com/a")
           (fresh_world tracked_config))
  = inr (license_of_record "https://example.com/a" general_opt_in).
Proof. reflexivity. Qed.

(** ** Session counters *)

(** C2, as stated, fails at two inputs.  A second check of the same URL,
    answered from the cache one second later, returns the license without
    an error and leaves [total_urls] at 1.  A check of a URL for which the
    ledger has no record returns without an error and leaves [total_urls]
    at 0. *)
Lemma uncounted_successful_checks :
  ~ check_is_counted (ledger_with (DataArray [general_opt_in])) tracked_config
      "https://example.com/a" after_first_check /\
  ~ check_is_counted (ledger_with (DataArray [])) tracked_config
      "https://example.com/a" (fresh_world tracked_config).
Proof.
  split; intros H.
  - assert (Hrun :
      run (ledger_with (DataArray [general_opt_in]))
          (checkLicense tracked_config "https://example.com/a")
          after_first_check
      = (inr (license_of_record "https://example.com/a" general_opt_in),
         tick after_first_check)).
    { apply run_checkLicense_hit; reflexivity. }
    destruct (H _ _ eq_refl Hrun eq_refl) as [Htotal _].
    vm_compute in Htotal. discriminate.
  - destruct (H (no_license "https://example.com/a")
                (send (lookup_request tracked_config "https://example.com/a")
                      (fresh_world tracked_config))
                eq_refl eq_refl eq_refl) as [Htotal _].
    vm_compute in Htotal. discriminate.
Qed.

(** C2, amended. With tracking enabled, a check that is answered from the
    cache changes no counter; a check whose lookup returns at least one
    record returns without an error, adds one to [total_urls] and one to
    exactly one of the three content counters: [denied_content] when the
    returned license is found with action [deny], [licensed_content] when
    it is found with another action, [unlicensed_content] when it is not
    found.  [total_tokens], [errors] and the tracking flag are unchanged. *)
Theorem checkLicense_counters
    (env : Env) (cfg : LicenseServiceConfig) (u : string) (w : World) :
  enableTracking cfg = true ->
  (forall l : LicenseInfo,
     live_entry cfg (service w) (clock env (ticks w)) u = Some l ->
     exists w' : World,
       run env (checkLicense cfg u) w = (inr l, w') /\
       sessionSummary (service w') = sessionSummary (service w)) /\
  (forall data : LookupData,
     live_entry cfg (service w) (clock env (ticks w)) u = None ->
     respond env (length (net w)) (lookup_request cfg u) = inr data ->
     licenseArray data <> [] ->
     exists (lic : LicenseInfo) (w' : World),
       run env (checkLicense cfg u) w = (inr lic, w') /\
       error lic = None /\
       counted_once lic (sessionSummary (service w))
                    (sessionSummary (service w'))).
Proof.
  intros Ht. split.
  - intros l Hl. exists (tick w). split; [|reflexivity].
    apply run_checkLicense_hit; assumption.
  - intros data Hmiss Hreply Hne.
    rewrite (run_checkLicense_miss env cfg u w Ht Hmiss).
    change (JsError + reply_type (lookup_request cfg u))%type
      with (JsError + LookupData)%type in Hreply.
    rewrite Hreply. unfold completed.
    destruct (licenseArray data) as [|first rest]; [contradiction|].
    set (lic := license_of_record u (chosen_record first (first :: rest))).
    eexists _, _. split; [reflexivity|]. split; [reflexivity|].
    assert (Hsum :
      sessionSummary
        (service (recorded env cfg u lic
                    (send (lookup_request cfg u) (probed cfg u w))))
      = tally lic (sessionSummary (service w))).
    { unfold recorded. destruct (enableCache cfg); world_simpl; reflexivity. }
    unfold counted_once. rewrite Hsum. unfold tally.
    destruct (license_found lic) eqn:Hfound.
    + destruct (action lic) eqn:Hact; cbn;
        (split; [reflexivity|]); (split; [|repeat split; reflexivity]).
      * right; left. repeat split; try reflexivity. discriminate.
      * left. repeat split; reflexivity.
      * right; left. repeat split; try reflexivity. discriminate.
    + cbn. split; [reflexivity|]. split; [|repeat split; reflexivity].
      right; right. repeat split; reflexivity.
Qed.

Lemma checkLicense_counters_witness :
  (forall l : LicenseInfo,
     live_entry tracked_config (service (fresh_world tracked_config))
                (clock (ledger_with (DataArray [commercial_opt_out])) 0)
                "https://example.com/a" = Some l ->
     exists w' : World,
       run (ledger_with (DataArray [commercial_opt_out]))
           (checkLicense tracked_config "https://example.com/a")
           (fresh_world tracked_config) = (inr l, w') /\
       sessionSummary (service w')
         = sessionSummary (service (fresh_world tracked_config))) /\
  exists (lic : LicenseInfo) (w' : World),
    run (ledger_with (DataArray [commercial_opt_out]))
        (checkLicense tracked_config "https://example.com/a")
        (fresh_world tracked_config) = (inr lic, w') /\
    error lic = None /\
    counted_once lic (sessionSummary (service (fresh_world tracked_config)))
                 (sessionSummary (service w')).
Proof.
  pose proof (checkLicense_counters
                (ledger_with (DataArray [commercial_opt_out])) tracked_config
                "https://example.com/a" (fresh_world tracked_config) eq_refl)
    as [Hhit Hmiss].
  split; [exact Hhit|].
  apply (Hmiss (DataArray [commercial_opt_out])); [reflexivity|reflexivity|].
  discriminate.
Defined.

(** The denied record is counted under [denied_content]. *)
Example denied_record_counted :
  sessionSummary
    (service (snd (run (ledger_with (DataArray [commercial_opt_out]))
                       (checkLicense tracked_config "https://example.com/a")
                       (fresh_world tracked_config))))
  = {| total_urls := 1; licensed_content := 0; unlicensed_content := 0;
       denied_content := 1; total_tokens := 0; tracking_enabled := true;
       errors := 0 |}.
Proof. reflexivity. Qed.

(** ** The license cache *)

(** C6, as stated, fails: when the ledger knows no record for the URL the
    first check succeeds with an empty answer, nothing is cached, and a
    second check at once sends a second lookup. *)
Lemma empty_answer_is_not_cached :
  ~ second_check_is_served (ledger_with (DataArray [])) tracked_config
      "https://example.com/a" (fresh_world tracked_config).
Proof.
  intros H.
  destruct (H (no_license "https://example.com/a")
              (send (lookup_request tracked_config "https://example.com/a")
                    (fresh_world tracked_config)))
    as (w2 & Hrun & Hnet); try reflexivity.
  - intros i j Hij. cbn. lia.
  - vm_compute in Hrun. injection Hrun as <-. vm_compute in Hnet.
    discriminate.
Qed.

Lemma recorded_cache (env : Env) (cfg : LicenseServiceConfig) (u : string)
    (lic : LicenseInfo) (w : World) :
  enableCache cfg = true ->
  licenseCache (service (recorded env cfg u lic w))
    = <[u := {| license := lic;
                expires := clock env (ticks w) + cacheTTL cfg * 1000 |}]>
        (licenseCache (service w)) /\
  ticks (recorded env cfg u lic w) = S (ticks w) /\
  net (recorded env cfg u lic w) = net w.
Proof. intros Hc. unfold recorded. rewrite Hc. repeat split. Qed.

Lemma recorded_no_cache (env : Env) (cfg : LicenseServiceConfig) (u : string)
    (lic : LicenseInfo) (w : World) :
  enableCache cfg = false ->
  licenseCache (service (recorded env cfg u lic w)) = licenseCache (service w).
Proof. intros Hc. unfold recorded. rewrite Hc. reflexivity. Qed.

Lemma ticks_send (q : Request) (w : World) : ticks (send q w) = ticks w.
Proof. reflexivity. Qed.

(** A check writes the cache only when its lookup returned a record, and
    then with the configured time to live. *)
Lemma cache_written_only_on_success
    (env : Env) (cfg : LicenseServiceConfig) (u : string) (w : World) :
  let '(r, w') := run env (checkLicense cfg u) w in
  licenseCache (service w') = licenseCache (service w) \/
  (enableCache cfg = true /\
   exists (data : LookupData) (lic : LicenseInfo) (now : Z),
     respond env (length (net w)) (lookup_request cfg u) = inr data /\
     licenseArray data <> [] /\
     r = inr lic /\
     error lic = None /\
     licenseCache (service w')
       = <[u := {| license := lic; expires := now + cacheTTL cfg * 1000 |}]>
           (licenseCache (service w))).
Proof.
  destruct (enableTracking cfg) eqn:Ht.
  2:{ rewrite run_checkLicense_off by assumption. left; reflexivity. }
  destruct (live_entry cfg (service w) (clock env (ticks w)) u) as [l|] eqn:Hl.
  { rewrite (run_checkLicense_hit env cfg u w l) by assumption.
    left; reflexivity. }
  rewrite (run_checkLicense_miss env cfg u w Ht Hl).
  change (JsError + reply_type (lookup_request cfg u))%type
    with (JsError + LookupData)%type.
  destruct (respond env (length (net w)) (lookup_request cfg u))
    as [e|data] eqn:Hreply; unfold completed.
  { left. world_simpl. reflexivity. }
  destruct (licenseArray data) as [|first rest] eqn:Harr.
  { left. world_simpl. reflexivity. }
  destruct (enableCache cfg) eqn:Hc.
  - right. split; [reflexivity|].
    eexists data, _, _. split; [reflexivity|].
    split; [rewrite Harr; discriminate|].
    split; [reflexivity|]. split; [reflexivity|].
    destruct (recorded_cache env cfg u
                (license_of_record u (chosen_record first (first :: rest)))
                (send (lookup_request cfg u) (probed cfg u w)) Hc)
      as (-> & _ & _).
    world_simpl. reflexivity.
  - left. rewrite recorded_no_cache by assumption. world_simpl. reflexivity.
Qed.

(** C6, amended. With tracking and caching enabled and a time to live of
    300 seconds, a first check that misses the cache and whose lookup
    returns at least one record sends exactly one request and stores its
    license with expiry 300000 ms after the moment of storing; a second
    check of the same URL started before that expiry sends nothing and
    returns the stored license unchanged, and one started at or after it
    sends a second lookup.  Any check writes the cache only when its lookup
    returned a record, and then with the configured time to live. *)
Theorem cache_round_trip :
  (forall (env : Env) (cfg : LicenseServiceConfig) (u : string) (w : World)
          (data : LookupData),
     enableTracking cfg = true ->
     enableCache cfg = true ->
     cacheTTL cfg = 300 ->
     live_entry cfg (service w) (clock env (ticks w)) u = None ->
     respond env (length (net w)) (lookup_request cfg u) = inr data ->
     licenseArray data <> [] ->
     exists (lic : LicenseInfo) (w1 : World),
       let stored_at := clock env (ticks (probed cfg u w)) in
       run env (checkLicense cfg u) w = (inr lic, w1) /\
       net w1 = (net w ++ [lookup_request cfg u])%list /\
       licenseCache (service w1)
         = <[u := {| license := lic; expires := stored_at + 300000 |}]>
             (licenseCache (service w)) /\
       (clock env (ticks w1) < stored_at + 300000 ->
        exists w2 : World,
          run env (checkLicense cfg u) w1 = (inr lic, w2) /\
          net w2 = net w1 /\
          service w2 = service w1) /\
       (stored_at + 300000 <= clock env (ticks w1) ->
        exists (lic2 : LicenseInfo) (w2 : World),
          run env (checkLicense cfg u) w1 = (inr lic2, w2) /\
          net w2 = (net w1 ++ [lookup_request cfg u])%list)) /\
  (forall (env : Env) (cfg : LicenseServiceConfig) (u : string) (w : World)
          (r : JsError + LicenseInfo) (w' : World),
     run env (checkLicense cfg u) w = (r, w') ->
     licenseCache (service w') = licenseCache (service w) \/
     (enableCache cfg = true /\
      exists (data : LookupData) (lic : LicenseInfo) (now : Z),
        respond env (length (net w)) (lookup_request cfg u) = inr data /\
        licenseArray data <> [] /\
        r = inr lic /\
        error lic = None /\
        licenseCache (service w')
          = <[u := {| license := lic; expires := now + cacheTTL cfg * 1000 |}]>
              (licenseCache (service w)))).
Proof.
  split.
  - intros env cfg u w data Ht Hc Httl Hmiss Hreply Hne.
    rewrite (run_checkLicense_miss env cfg u w Ht Hmiss).
    change (JsError + reply_type (lookup_request cfg u))%type
      with (JsError + LookupData)%type in Hreply.
    rewrite Hreply. unfold completed.
    destruct (licenseArray data) as [|first rest]; [contradiction|].
    set (lic := license_of_record u (chosen_record first (first :: rest))).
    set (w0 := send (lookup_request cfg u) (probed cfg u w)).
    destruct (recorded_cache env cfg u lic w0 Hc) as (Hcache & Hticks & Hnet).
    assert (Hstored :
      licenseCache (service (recorded env cfg u lic w0))
      = <[u := {| license := lic;
                  expires := clock env (ticks (probed cfg u w)) + 300000 |}]>
          (licenseCache (service w))).
    { rewrite Hcache, Httl. subst w0. world_simpl. reflexivity. }
    exists lic, (recorded env cfg u lic w0). cbv zeta.
    split; [reflexivity|].
    split; [rewrite Hnet; subst w0; world_simpl; reflexivity|].
    split; [exact Hstored|].
    split.
    + intros Hlive. exists (tick (recorded env cfg u lic w0)).
      split; [|split; reflexivity].
      apply run_checkLicense_hit; [assumption|].
      unfold live_entry. rewrite Hc, Hstored, lookup_insert_eq.
      cbn [expires license].
      apply Z.gtb_lt in Hlive. rewrite Hlive. reflexivity.
    + intros Hdead.
      assert (Hmiss2 :
        live_entry cfg (service (recorded env cfg u lic w0))
                   (clock env (ticks (recorded env cfg u lic w0))) u = None).
      { unfold live_entry. rewrite Hc, Hstored, lookup_insert_eq.
        cbn [expires license].
        destruct (Z.gtb_spec (clock env (ticks (probed cfg u w)) + 300000)
                    (clock env (ticks (recorded env cfg u lic w0))));
          [lia|reflexivity]. }
      rewrite (run_checkLicense_miss env cfg u _ Ht Hmiss2).
      match goal with
      | |- context [completed env cfg u ?reply ?wx] =>
          pose proof (completed_answer env cfg u reply wx) as Hans;
          pose proof (completed_net env cfg u reply wx) as Hnet2;
          destruct (completed env cfg u reply wx) as [r2 w2]
      end.
      cbn [fst snd] in Hans, Hnet2. subst r2.
      eexists _, w2. split; [reflexivity|].
      rewrite Hnet2. world_simpl. reflexivity.
  - intros env cfg u w r w' Hrun.
    pose proof (cache_written_only_on_success env cfg u w) as H.
    rewrite Hrun in H. exact H.
Qed.

Lemma cache_round_trip_witness :
  exists (lic : LicenseInfo) (w1 w2 : World),
    run (ledger_with (DataArray [general_opt_in]))
        (checkLicense tracked_config "https://example.com/a")
        (fresh_world tracked_config) = (inr lic, w1) /\
    net w1 = [lookup_request tracked_config "https://example.com/a"] /\
    licenseCache (service w1)
      = {[ "https://example.com/a" :=
             {| license := lic; expires := 0 + 300000 |} ]} /\
    run (ledger_with (DataArray [general_opt_in]))
        (checkLicense tracked_config "https://example.com/a") w1
      = (inr lic, w2) /\
    net w2 = net w1 /\
    service w2 = service w1.
Proof.
  destruct (proj1 cache_round_trip
              (ledger_with (DataArray [general_opt_in])) tracked_config
              "https://example.com/a" (fresh_world tracked_config)
              (DataArray [general_opt_in]) eq_refl eq_refl eq_refl eq_refl
              eq_refl ltac:(discriminate))
    as (lic & w1 & Hrun & Hnet & Hcache & Hhit & _).
  assert (Hw1 : w1 = after_first_check).
  { unfold after_first_check. rewrite Hrun. reflexivity. }
  destruct Hhit as (w2 & Hrun2 & Hnet2 & Hsvc2).
  { rewrite Hw1. reflexivity. }
  exists lic, w1, w2. repeat split; assumption.
Defined.

(** ** Batches *)

Section Batch.

Variable env : Env.
Variable cfg : LicenseServiceConfig.

Lemma start_checkLicense_cases (u : string) (w : World) :
  (enableTracking cfg = false /\
   start env (checkLicense cfg u) w = (Settled (inr (no_license u)), w)) \/
  (exists c : CacheEntry,
     licenseCache (service w) !! u = Some c /\
     start env (checkLicense cfg u) w = (Settled (inr (license c)), tick w)) \/
  (exists rest : Prog LicenseInfo,
     start env (checkLicense cfg u) w
       = (Pending rest, send (lookup_request cfg u) (probed cfg u w)) /\
     forall w' : World,
       run env rest w'
         = completed env cfg u
             (respond env (length (net w)) (lookup_request cfg u)) w').
Proof.
  destruct (enableTracking cfg) eqn:Ht.
  2:{ left. split; [reflexivity|]. by apply start_checkLicense_off. }
  destruct (live_entry cfg (service w) (clock env (ticks w)) u) as [l|] eqn:Hl.
  - right; left.
    pose proof (start_checkLicense_hit env cfg u w l Ht Hl) as Hstart.
    unfold live_entry in Hl. destruct (enableCache cfg); [|done].
    destruct (licenseCache (service w) !! u) as [c|]; [|done].
    destruct (expires c >? clock env (ticks w)); [|done].
    injection Hl as <-. by exists c.
  - right; right. by apply start_checkLicense_miss.
Qed.

Lemma dispatch_spec (urls : list string) (w : World) :
  let '(ts, w1) := dispatch env cfg urls w in
  service w1 = service w /\
  ts.*1 = urls /\
  (exists qs : list Request,
     net w1 = (net w ++ qs)%list /\
     (length qs <= length urls)%nat /\
     Forall (fun q => exists u, u ∈ urls /\ q = lookup_request cfg u) qs) /\
  Forall (task_ok env cfg w (net w1)) ts.
Proof.
  revert w. induction urls as [|u urls IH]; intros w; simpl.
  { repeat split; [|constructor]. exists [].
    split; [by rewrite app_nil_r|]. split; [done|constructor]. }
  assert (Hweaken : forall w0 ts w2 qs0,
    service w0 = service w -> net w0 = (net w ++ qs0)%list ->
    Forall (task_ok env cfg w0 (net w2)) ts -> Forall (task_ok env cfg w (net w2)) ts).
  { intros w0 ts w2 qs0 Hsvc Hnet Hts. eapply Forall_impl; [exact Hts|].
    intros [u' [r|rest]]; unfold task_ok, settled_ok, parked_ok; simpl.
    - by rewrite Hsvc.
    - intros (n & Hn & Hsent & Hrun). exists n. split; [|done].
      rewrite Hnet, length_app in Hn. lia. }
  destruct (start_checkLicense_cases u w)
    as [[Hoff ->]|[(c & Hc & ->)|(rest & -> & Hrest)]].
  - specialize (IH w). destruct (dispatch env cfg urls w) as [ts w2].
    destruct IH as (Hsvc & Hurls & (qs & Hnet & Hlen & Hqs) & Hts).
    split; [done|]. split; [by rewrite fmap_cons, Hurls|]. split.
    + exists qs. split; [done|]. split; [simpl; lia|].
      eapply Forall_impl; [exact Hqs|].
      intros q (u' & Hin & ->). exists u'. split; [by right|done].
    + constructor; [|done]. left. done.
  - specialize (IH (tick w)). destruct (dispatch env cfg urls (tick w)) as [ts w2].
    destruct IH as (Hsvc & Hurls & (qs & Hnet & Hlen & Hqs) & Hts).
    split; [done|]. split; [by rewrite fmap_cons, Hurls|]. split.
    + exists qs. split; [done|]. split; [simpl; lia|].
      eapply Forall_impl; [exact Hqs|].
      intros q (u' & Hin & ->). exists u'. split; [by right|done].
    + constructor.
      * right. by exists c.
      * apply (Hweaken (tick w) ts w2 []); [done|by rewrite app_nil_r|done].
  - specialize (IH (send (lookup_request cfg u) (probed cfg u w))).
    destruct (dispatch env cfg urls _) as [ts w2].
    destruct IH as (Hsvc & Hurls & (qs & Hnet & Hlen & Hqs) & Hts).
    revert Hsvc Hnet. world_simpl. intros Hsvc Hnet.
    split; [done|]. split; [by rewrite fmap_cons, Hurls|]. split.
    + exists (lookup_request cfg u :: qs). split; [|split].
      * by rewrite Hnet, <- app_assoc.
      * simpl; lia.
      * constructor; [exists u; split; [by left|done]|].
        eapply Forall_impl; [exact Hqs|].
        intros q (u' & Hin & ->). exists u'. split; [by right|done].
    + constructor.
      * exists (length (net w)). split; [done|]. split; [|exact Hrest].
        rewrite Hnet, <- app_assoc. simpl.
        by rewrite lookup_app_r, Nat.sub_diag.
      * apply (Hweaken (send (lookup_request cfg u) (probed cfg u w)) ts w2
                 [lookup_request cfg u]); [|by world_simpl|done].
        by world_simpl.
Qed.

Lemma arrival_order_perm {A : Type} (pending : list A) :
  arrival_order env pending ≡ₚ pending.
Proof.
  induction pending as [|t pending IH]; simpl; [done|].
  rewrite <- Permutation_middle, take_drop. by constructor.
Qed.

Lemma arrival_order_length {A : Type} (pending : list A) :
  length (arrival_order env pending) = length pending.
Proof. by rewrite (arrival_order_perm pending). Qed.

Lemma record_outcome_dom (u : string) (r : JsError + LicenseInfo)
    (results : gmap string LicenseInfo) :
  dom (record_outcome u r results) = {[u]} ∪ dom results.
Proof. destruct r; simpl; apply dom_insert_L. Qed.

Lemma settled_now_dom (ts : list (string * Task LicenseInfo))
    (results : gmap string LicenseInfo) :
  dom (settled_now ts results) ∪ list_to_set (parked ts).*1
    = dom results ∪ list_to_set ts.*1.
Proof.
  revert results.
  induction ts as [|[u [r|rest]] ts IH]; intros results;
    cbn [settled_now parked]; [done| |];
    rewrite ?fmap_cons, ?list_to_set_cons; cbn [fst].
  - rewrite IH, record_outcome_dom.
    generalize (dom results) (list_to_set ts.*1 : gset string).
    intros X Y. set_solver.
  - specialize (IH results). revert IH.
    generalize (dom results) (list_to_set ts.*1 : gset string)
               (dom (settled_now ts results))
               (list_to_set (parked ts).*1 : gset string).
    intros X Y Z V IH. set_solver.
Qed.

Lemma settled_now_values (w : World) (sent : list Request)
    (ts : list (string * Task LicenseInfo))
    (results : gmap string LicenseInfo) (u : string) (l : LicenseInfo) :
  Forall (task_ok env cfg w sent) ts ->
  settled_now ts results !! u = Some l ->
  results !! u = Some l \/ settled_ok cfg w u (inr l).
Proof.
  revert results. induction ts as [|[u' [r|rest]] ts IH]; intros results Hts;
    simpl; [by left| |].
  - apply Forall_cons in Hts as [Hhead Hts]. intros Hl.
    destruct (IH _ Hts Hl) as [Hres|Hok]; [|by right].
    unfold task_ok in Hhead; simpl in Hhead.
    assert (Hr : exists l', r = inr l') by (destruct Hhead as [[_ ->]|(c & _ & ->)]; eauto).
    destruct Hr as [l' ->]. simpl in Hres.
    destruct (decide (u' = u)) as [->|Hne].
    + rewrite lookup_insert_eq in Hres. injection Hres as <-. by right.
    + rewrite lookup_insert_ne in Hres by done. by left.
  - apply Forall_cons in Hts as [_ Hts]. by apply IH.
Qed.

Lemma parked_forall (w : World) (sent : list Request)
    (ts : list (string * Task LicenseInfo)) :
  Forall (task_ok env cfg w sent) ts ->
  Forall (parked_ok env cfg sent (length (net w))) (parked ts).
Proof.
  induction ts as [|[u [r|rest]] ts IH]; intros Hts; simpl; [constructor| |];
    apply Forall_cons in Hts as [Hhead Hts]; [by apply IH|].
  constructor; [exact Hhead|by apply IH].
Qed.

Lemma settle_spec (sent : list Request) (base : nat)
    (arrived : list (string * Prog LicenseInfo))
    (results : gmap string LicenseInfo) (w1 : World) :
  Forall (parked_ok env cfg sent base) arrived ->
  let '(m, w') := settle env arrived results w1 in
  dom m = dom results ∪ list_to_set arrived.*1 /\
  net w' = net w1 /\
  (forall P : Service -> Prop,
     (forall u reply w, P (service w) ->
                        P (service (snd (completed env cfg u reply w)))) ->
     P (service w1) -> P (service w')) /\
  (forall u l, m !! u = Some l ->
     results !! u = Some l \/
     exists n : nat,
       (base <= n)%nat /\
       sent !! n = Some (lookup_request cfg u) /\
       l = answer_of u (respond env n (lookup_request cfg u))).
Proof.
  revert results w1.
  induction arrived as [|[u rest] arrived IH]; intros results w1 Harr; simpl.
  { split; [set_solver|]. split; [done|]. split; [auto|]. by left. }
  apply Forall_cons in Harr as [(n & Hn & Hsent & Hrun) Harr]. simpl in *.
  rewrite Hrun.
  pose proof (completed_answer env cfg u
                (respond env n (lookup_request cfg u)) w1) as Hans.
  pose proof (completed_net env cfg u
                (respond env n (lookup_request cfg u)) w1) as Hnet.
  assert (Hinv : forall P : Service -> Prop,
    (forall u reply w, P (service w) ->
                       P (service (snd (completed env cfg u reply w)))) ->
    P (service w1) ->
    P (service (snd (completed env cfg u
                       (respond env n (lookup_request cfg u)) w1)))) by auto.
  destruct (completed env cfg u (respond env n (lookup_request cfg u)) w1)
    as [r w2]. simpl in Hans, Hnet, Hinv. subst r.
  specialize (IH (record_outcome u (inr (answer_of u
                    (respond env n (lookup_request cfg u)))) results) w2 Harr).
  destruct (settle env arrived _ w2) as [m w'].
  destruct IH as (Hdom & Hnet' & Hpres & Hval).
  split; [rewrite Hdom, record_outcome_dom; set_solver|].
  split; [congruence|].
  split; [intros P HP HP1; apply Hpres; [exact HP|by apply Hinv]|].
  intros u' l Hl. destruct (Hval u' l Hl) as [Hres|Hnew]; [|by right].
  simpl in Hres. destruct (decide (u = u')) as [->|Hne].
  - rewrite lookup_insert_eq in Hres. injection Hres as <-. right. by exists n.
  - rewrite lookup_insert_ne in Hres by done. by left.
Qed.

(** The map, the requests and the values of a batch. *)
Lemma checkLicenseBatch_outcomes (urls : list string) (w : World) :
  let '(m, w') := checkLicenseBatch env cfg urls w in
  dom m = list_to_set urls /\
  (exists qs : list Request,
     net w' = (net w ++ qs)%list /\
     (length qs <= length urls)%nat /\
     Forall (fun q => exists u, u ∈ urls /\ q = lookup_request cfg u) qs) /\
  (forall P : Service -> Prop,
     (forall u reply w, P (service w) ->
                        P (service (snd (completed env cfg u reply w)))) ->
     P (service w) -> P (service w')) /\
  (forall u l, m !! u = Some l -> outcome_for env cfg w w' u l).
Proof.
  unfold checkLicenseBatch. destruct urls as [|u0 urls].
  { split; [set_solver|]. split; [|split; [auto|intros ? ? Hl; done]].
    exists []. split; [by rewrite app_nil_r|]. split; [done|constructor]. }
  pose proof (dispatch_spec (u0 :: urls) w) as Hd.
  destruct (dispatch env cfg (u0 :: urls) w) as [ts w1].
  destruct Hd as (Hsvc & Hurls & (qs & Hnet & Hlen & Hqs) & Hts).
  pose proof (parked_forall w (net w1) ts Hts) as Hparked.
  rewrite <- (arrival_order_perm (parked ts)) in Hparked.
  pose proof (settle_spec (net w1) (length (net w))
                (arrival_order env (parked ts)) (settled_now ts ∅) w1 Hparked)
    as Hs.
  destruct (settle env _ _ w1) as [m w'].
  destruct Hs as (Hdom & Hnet' & Hpres & Hval).
  split.
  { rewrite Hdom, (arrival_order_perm (parked ts)), settled_now_dom, Hurls.
    set_solver. }
  split; [exists qs; split; [congruence|done]|].
  split; [intros P HP HP1; apply Hpres; [done|by rewrite Hsvc]|].
  intros u l Hl. destruct (Hval u l Hl) as [Hnow|(n & Hn & Hsent & ->)].
  - destruct (settled_now_values w (net w1) ts ∅ u l Hts Hnow)
      as [Hempty|[[Hoff Heq]|(c & Hc & Heq)]]; [done| |].
    + left. split; [done|congruence].
    + right; left. exists c. split; [done|congruence].
  - right; right. exists n. by rewrite Hnet'.
Qed.

End Batch.

Lemma arrival_order_cons {A : Type} (env : Env) (t : A) (pending : list A) :
  arrival_order env (t :: pending)
  = (take (arrival env (length (arrival_order env pending))
             mod S (length (arrival_order env pending)))
          (arrival_order env pending)
     ++ t :: drop (arrival env (length (arrival_order env pending))
                     mod S (length (arrival_order env pending)))
                  (arrival_order env pending))%list.
Proof. reflexivity. Qed.

(** The order of arrival depends on the environment only through the places
    it names for the requests at hand. *)
Lemma arrival_order_ext {A : Type} (env1 env2 : Env) (pending : list A) :
  (forall n : nat, (n < length pending)%nat -> arrival env1 n = arrival env2 n) ->
  arrival_order env1 pending = arrival_order env2 pending.
Proof.
  induction pending as [|t pending IH]; intros Hsame; [done|].
  rewrite !arrival_order_cons.
  rewrite IH by (intros n Hn; apply Hsame; simpl; lia).
  rewrite (Hsame (length (arrival_order env2 pending))); [done|].
  rewrite arrival_order_length. simpl. lia.
Qed.

(** Every order in which the pending requests can complete is the order of
    arrival of some environment: the batch is run against all of them. *)
Lemma every_order_arrives {A : Type} (env : Env) (pending order : list A) :
  order ≡ₚ pending ->
  exists f : nat -> nat, arrival_order (with_arrival f env) pending = order.
Proof.
  revert order. induction pending as [|t pending IH]; intros order Hperm.
  { apply Permutation_nil_r in Hperm as ->. by exists (fun _ => 0%nat). }
  assert (Hin : t ∈ order) by (rewrite Hperm; by left).
  apply list_elem_of_split in Hin as (l1 & l2 & ->).
  symmetry in Hperm. apply Permutation_cons_app_inv in Hperm.
  destruct (IH (l1 ++ l2)%list) as [f Hf]; [done|].
  exists (fun n => if decide (n = length pending) then length l1 else f n).
  set (env' := with_arrival _ env).
  assert (Hacc : arrival_order env' pending = (l1 ++ l2)%list).
  { rewrite <- Hf. apply arrival_order_ext. intros n Hn. simpl.
    case_decide; [lia|done]. }
  assert (Hlen : length (l1 ++ l2) = length pending)
    by (by rewrite <- Hperm).
  rewrite arrival_order_cons, Hacc, Hlen.
  cbn [arrival env' with_arrival]. rewrite decide_True by done.
  rewrite Nat.mod_small by (rewrite length_app in Hlen; lia).
  by rewrite take_app_length, drop_app_length.
Qed.

(** ** The invariant of licenses *)

Lemma license_of_record_well_formed (u : string) (r : LedgerRecord) :
  well_formed (license_of_record u r).
Proof.
  unfold well_formed, license_of_record; cbn [action license_found].
  destruct (strict_eq_str (r_opt_in_status r) "opt-in"),
           (strict_eq_str (r_opt_in_status r) "opt-out"); cbn; split; auto;
    discriminate.
Qed.

Lemma answer_of_well_formed (u : string) (reply : JsError + LookupData) :
  well_formed (answer_of u reply).
Proof.
  destruct reply as [e|data]; simpl; [by split; auto|].
  destruct (licenseArray data); [by split; auto|].
  apply license_of_record_well_formed.
Qed.

Lemma completed_cache_well_formed (env : Env) (cfg : LicenseServiceConfig)
    (u : string) (reply : JsError + LookupData) (w : World) :
  cache_well_formed (service w) ->
  cache_well_formed (service (snd (completed env cfg u reply w))).
Proof.
  intros Hw. destruct reply as [e|data]; simpl; [exact Hw|].
  destruct (licenseArray data) as [|first rest]; simpl; [exact Hw|].
  unfold recorded. destruct (enableCache cfg); [|exact Hw].
  intros u' c. world_simpl. intros Hc.
  destruct (decide (u = u')) as [->|Hne].
  - rewrite lookup_insert_eq in Hc. injection Hc as <-.
    apply license_of_record_well_formed.
  - rewrite lookup_insert_ne in Hc by done. exact (Hw u' c Hc).
Qed.

(** C5. Every license returned by [checkLicense], and every value of a map
    returned by [checkLicenseBatch], has an action among allow, deny and
    unknown, and has action unknown whenever [license_found] is false.
    The cache, which only ever holds licenses built by earlier checks,
    keeps that property. *)
Theorem license_invariant
    (env : Env) (cfg : LicenseServiceConfig) (w : World) :
  cache_well_formed (service w) ->
  (forall u : string,
     exists (lic : LicenseInfo) (w' : World),
       run env (checkLicense cfg u) w = (inr lic, w') /\
       well_formed lic /\
       cache_well_formed (service w')) /\
  (forall urls : list string,
     let '(m, w') := checkLicenseBatch env cfg urls w in
     (forall (u : string) (l : LicenseInfo),
        m !! u = Some l -> well_formed l) /\
     cache_well_formed (service w')).
Proof.
  intros Hw. split.
  - intros u. destruct (enableTracking cfg) eqn:Ht.
    2:{ rewrite run_checkLicense_off by done.
        eexists _, _. split; [done|]. split; [|done]. by split; auto. }
    destruct (live_entry cfg (service w) (clock env (ticks w)) u) as [l|] eqn:Hl.
    + rewrite (run_checkLicense_hit env cfg u w l) by done.
      eexists _, _. split; [done|]. split; [|done].
      unfold live_entry in Hl. destruct (enableCache cfg); [|done].
      destruct (licenseCache (service w) !! u) as [c|] eqn:Hc; [|done].
      destruct (expires c >? clock env (ticks w)); [|done].
      injection Hl as <-. exact (Hw u c Hc).
    + rewrite (run_checkLicense_miss env cfg u w Ht Hl).
      match goal with
      | |- context [completed env cfg u ?reply ?wx] =>
          pose proof (completed_answer env cfg u reply wx) as Hans;
          pose proof (completed_cache_well_formed env cfg u reply wx) as Hcw;
          destruct (completed env cfg u reply wx) as [r w']
      end.
      cbn [fst snd] in Hans, Hcw. subst r.
      eexists _, _. split; [done|]. split; [apply answer_of_well_formed|].
      apply Hcw. world_simpl. exact Hw.
  - intros urls.
    pose proof (checkLicenseBatch_outcomes env cfg urls w) as Hb.
    destruct (checkLicenseBatch env cfg urls w) as [m w'].
    destruct Hb as (_ & _ & Hpres & Hval). split.
    + intros u l Hl.
      destruct (Hval u l Hl) as [[_ ->]|[(c & Hc & ->)|(n & _ & _ & ->)]].
      * by split; auto.
      * exact (Hw u c Hc).
      * apply answer_of_well_formed.
    + apply (Hpres cache_well_formed); [|done].
      intros u reply w0. apply completed_cache_well_formed.
Qed.

Lemma license_invariant_witness :
  (forall u : string,
     exists (lic : LicenseInfo) (w' : World),
       run (ledger_with (DataArray [commercial_opt_out; general_opt_in]))
           (checkLicense tracked_config u) after_first_check = (inr lic, w') /\
       well_formed lic /\
       cache_well_formed (service w')) /\
  (forall urls : list string,
     let '(m, w') :=
       checkLicenseBatch
         (ledger_with (DataArray [commercial_opt_out; general_opt_in]))
         tracked_config urls after_first_check in
     (forall (u : string) (l : LicenseInfo),
        m !! u = Some l -> well_formed l) /\
     cache_well_formed (service w')).
Proof.
  apply (license_invariant
           (ledger_with (DataArray [commercial_opt_out; general_opt_in]))
           tracked_config after_first_check).
  assert (Hfresh : cache_well_formed (service (fresh_world tracked_config))).
  { intros u c Hc. cbn in Hc. rewrite lookup_empty in Hc. discriminate. }
  destruct (proj1 (license_invariant (ledger_with (DataArray [general_opt_in]))
                     tracked_config (fresh_world tracked_config) Hfresh)
                  "https://example.com/a")
    as (lic & w' & Hrun & _ & Hcache).
  unfold after_first_check. rewrite Hrun. exact Hcache.
Defined.

(** ** What a batch returns *)

Lemma uncached_live_entry (cfg : LicenseServiceConfig) (s : Service)
    (u : string) (now : Z) :
  enableCache cfg = false \/ licenseCache s !! u = None ->
  live_entry cfg s now u = None.
Proof.
  unfold live_entry. intros [-> | ->]; [done|]. by destruct (enableCache cfg).
Qed.

Lemma dispatch_sends_all (env : Env) (cfg : LicenseServiceConfig)
    (urls : list string) (w : World) :
  enableTracking cfg = true ->
  (forall u, u ∈ urls ->
             enableCache cfg = false \/ licenseCache (service w) !! u = None) ->
  net (snd (dispatch env cfg urls w))
    = (net w ++ map (lookup_request cfg) urls)%list.
Proof.
  intros Ht. revert w. induction urls as [|u urls IH]; intros w Hun; simpl.
  { by rewrite app_nil_r. }
  destruct (start_checkLicense_miss env cfg u w Ht) as (rest & -> & _).
  { apply uncached_live_entry, Hun. by left. }
  specialize (IH (send (lookup_request cfg u) (probed cfg u w))).
  destruct (dispatch env cfg urls _) as [ts w2]. simpl in *.
  rewrite IH.
  - world_simpl. by rewrite <- app_assoc.
  - intros u' Hin. world_simpl. apply Hun. by right.
Qed.

Lemma checkLicenseBatch_requests (env : Env) (cfg : LicenseServiceConfig)
    (urls : list string) (w : World) :
  enableTracking cfg = true ->
  (forall u, u ∈ urls ->
             enableCache cfg = false \/ licenseCache (service w) !! u = None) ->
  net (snd (checkLicenseBatch env cfg urls w))
    = (net w ++ map (lookup_request cfg) urls)%list.
Proof.
  intros Ht Hun. unfold checkLicenseBatch.
  destruct urls as [|u0 urls]; [by rewrite app_nil_r|].
  pose proof (dispatch_spec env cfg (u0 :: urls) w) as Hd.
  pose proof (dispatch_sends_all env cfg (u0 :: urls) w Ht Hun) as Hsent.
  destruct (dispatch env cfg (u0 :: urls) w) as [ts w1].
  destruct Hd as (_ & _ & _ & Hts).
  pose proof (parked_forall env cfg w (net w1) ts Hts) as Hparked.
  rewrite <- (arrival_order_perm env (parked ts)) in Hparked.
  pose proof (settle_spec env cfg (net w1) (length (net w))
                (arrival_order env (parked ts)) (settled_now ts ∅) w1 Hparked)
    as Hs.
  destruct (settle env _ _ w1) as [m w'].
  destruct Hs as (_ & Hnet & _). simpl in *. congruence.
Qed.

(** C7. For every list of URLs, [checkLicenseBatch] starts a check for each
    of them and lets all of them settle: the map it returns has exactly the
    distinct input URLs as keys, whatever the ledger answers and in whatever
    order; the value of a URL is the outcome of one of its checks, which is
    the degraded license when the lookups sent for it were rejected; the
    only requests sent are lookups of input URLs, at most one per element
    of the list and exactly one per element when none of them is cached.
    For the empty list the map is empty and nothing at all happens. *)
Theorem checkLicenseBatch_settles_all
    (env : Env) (cfg : LicenseServiceConfig) (urls : list string) (w : World) :
  let '(m, w') := checkLicenseBatch env cfg urls w in
  dom m = list_to_set urls /\
  (forall u : string, u ∈ urls ->
     exists l : LicenseInfo, m !! u = Some l /\ outcome_for env cfg w w' u l) /\
  (forall (u : string) (l : LicenseInfo),
     m !! u = Some l ->
     enableTracking cfg = true ->
     licenseCache (service w) !! u = None ->
     (forall n : nat,
        (length (net w) <= n)%nat ->
        net w' !! n = Some (lookup_request cfg u) ->
        exists e : JsError, respond env n (lookup_request cfg u) = inl e) ->
     license_found l = false /\ action l = unknown /\ is_Some (error l)) /\
  (exists qs : list Request,
     net w' = (net w ++ qs)%list /\
     (length qs <= length urls)%nat /\
     Forall (fun q => exists u, u ∈ urls /\ q = lookup_request cfg u) qs) /\
  (enableTracking cfg = true ->
   (forall u, u ∈ urls ->
              enableCache cfg = false \/ licenseCache (service w) !! u = None) ->
   net w' = (net w ++ map (lookup_request cfg) urls)%list) /\
  (urls = [] -> m = ∅ /\ w' = w).
Proof.
  pose proof (checkLicenseBatch_outcomes env cfg urls w) as Hb.
  pose proof (checkLicenseBatch_requests env cfg urls w) as Hreq.
  assert (Hnil : urls = [] -> checkLicenseBatch env cfg urls w = (∅, w))
    by (by intros ->).
  destruct (checkLicenseBatch env cfg urls w) as [m w'].
  destruct Hb as (Hdom & Hqs & _ & Hval).
  split; [exact Hdom|]. split.
  { intros u Hin.
    assert (Hu : u ∈ dom m) by (rewrite Hdom; by apply elem_of_list_to_set).
    apply elem_of_dom in Hu as [l Hl]. exists l. split; [done|]. by apply Hval. }
  split.
  { intros u l Hl Ht Hnone Hrej.
    destruct (Hval u l Hl) as [[Hoff _]|[(c & Hc & _)|(n & Hn & Hsent & ->)]];
      [congruence|congruence|].
    destruct (Hrej n Hn Hsent) as [e He].
    change (JsError + reply_type (lookup_request cfg u))%type
      with (JsError + LookupData)%type in He.
    rewrite He. simpl. by eauto. }
  split; [exact Hqs|]. split; [exact Hreq|].
  intros Hurls. specialize (Hnil Hurls). by injection Hnil as <- <-.
Qed.

(** A URL given twice is looked up twice, the failing URL is in the map
    with its degraded license, and the other one is not affected. *)
Example batch_with_failure_and_duplicate :
  let '(m, w') :=
    checkLicenseBatch patchy_ledger tracked_config
      ["https://example.com/a"; "https://example.com/down";
       "https://example.com/a"]
      (fresh_world tracked_config) in
  size m = 2%nat /\
  m !! "https://example.com/down"
    = Some (failed_license "https://example.com/down"
                           "timeout of 5000ms exceeded") /\
  m !! "https://example.com/a"
    = Some (license_of_record "https://example.com/a" general_opt_in) /\
  net w'
    = [lookup_request tracked_config "https://example.com/a";
       lookup_request tracked_config "https://example.com/down";
       lookup_request tracked_config "https://example.com/a"] /\
  sessionSummary (service w')
    = {| total_urls := 2; licensed_content := 2; unlicensed_content := 0;
         denied_content := 0; total_tokens := 0; tracking_enabled := true;
         errors := 1 |}.
Proof. vm_compute. repeat split. Qed.

(** ** Usage logging *)

(** Up to 2^53 in absolute value the sum of two numbers is exact. *)
Lemma js_add_exact (a b : Z) :
  Z.abs (a + b) <= 2 ^ 53 -> js_add a b = a + b.
Proof.
  unfold js_add, to_number. generalize (a + b). intros z Hz.
  destruct (Z.ltb_spec (Z.abs z) (2 ^ 53)) as [Hlt|Hge]; [reflexivity|].
  assert (Hcases : z = 2 ^ 53 \/ z = - 2 ^ 53) by lia.
  destruct Hcases as [-> | ->]; reflexivity.
Qed.

(** Beyond 2^53 it is rounded: to the even neighbour at a tie. *)
Example js_add_rounds :
  js_add (2 ^ 53) 1 = 2 ^ 53 /\
  js_add (2 ^ 53) 2 = 2 ^ 53 + 2 /\
  js_add (2 ^ 53) 3 = 2 ^ 53 + 4 /\
  js_add (2 ^ 54) 5 = 2 ^ 54 + 4 /\
  js_add (2 ^ 54) 6 = 2 ^ 54 + 8 /\
  js_add (- 2 ^ 53) (-1) = - 2 ^ 53.
Proof. repeat split. Qed.

(** The specification's sentence fails where the sum is no longer exact:
    on a service that has logged 2^53 tokens, an accepted log of one more
    token returns true and leaves [total_tokens] where it was. *)
Lemma large_token_counts_are_rounded :
  total_tokens (sessionSummary (service after_large_log)) = 2 ^ 53 /\
  ~ usage_is_added (ledger_with (DataArray [])) tracked_config
      "https://example.com/a" 1 (no_license "https://example.com/a")
      None None after_large_log.
Proof.
  split; [reflexivity|]. intros H.
  assert (Hrun : exists w' : World,
    run (ledger_with (DataArray []))
        (logUsage tracked_config "https://example.com/a" 1
                  (no_license "https://example.com/a") None None)
        after_large_log = (inr true, w') /\
    total_tokens (sessionSummary (service w')) = 2 ^ 53).
  { eexists. split; reflexivity. }
  destruct Hrun as (w' & Hrun & Htotal).
  specialize (H w' eq_refl eq_refl ltac:(discriminate) Hrun).
  rewrite Htotal in H. vm_compute in H. discriminate.
Qed.

(** C8, amended. [logUsage] returns false, sends nothing and changes
    nothing when tracking is disabled, the ledger key is missing or
    [tokens] is 0.  Otherwise it posts one usage-log entry; when the post
    succeeds it returns true and replaces [total_tokens] by the sum of
    [total_tokens] and [tokens] as JavaScript adds numbers (stated for sums
    that stay finite), which is exactly [total_tokens + tokens] whenever
    that sum is at most 2^53 in absolute value, and leaves every other
    counter; when the post fails it adds one to [errors], leaves
    [total_tokens] and returns false.  It never throws. *)
Theorem logUsage_outcomes
    (env : Env) (cfg : LicenseServiceConfig) (u : string) (tokens : Z)
    (lic : LicenseInfo) (stage : option LicenseStage)
    (dist : option Distribution) (w : World) :
  let '(r, w') := run env (logUsage cfg u tokens lic stage dist) w in
  if negb (enableTracking cfg) || negb (truthy (apiKey cfg)) || (tokens =? 0)
  then r = inr false /\ w' = w
  else
    let q := usage_request cfg u tokens lic stage dist (clock env (ticks w)) in
    net w' = (net w ++ [q])%list /\
    licenseCache (service w') = licenseCache (service w) /\
    match respond env (length (net w)) q with
    | inr _ =>
        r = inr true /\
        (Z.abs (total_tokens (sessionSummary (service w)) + tokens)
           < 2 ^ 1024 - 2 ^ 970 ->
         total_tokens (sessionSummary (service w'))
           = js_add (total_tokens (sessionSummary (service w))) tokens) /\
        (Z.abs (total_tokens (sessionSummary (service w)) + tokens) <= 2 ^ 53 ->
         total_tokens (sessionSummary (service w'))
           = total_tokens (sessionSummary (service w)) + tokens) /\
        total_urls (sessionSummary (service w'))
          = total_urls (sessionSummary (service w)) /\
        licensed_content (sessionSummary (service w'))
          = licensed_content (sessionSummary (service w)) /\
        unlicensed_content (sessionSummary (service w'))
          = unlicensed_content (sessionSummary (service w)) /\
        denied_content (sessionSummary (service w'))
          = denied_content (sessionSummary (service w)) /\
        errors (sessionSummary (service w'))
          = errors (sessionSummary (service w)) /\
        tracking_enabled (sessionSummary (service w'))
          = tracking_enabled (sessionSummary (service w))
    | inl _ =>
        r = inr false /\
        sessionSummary (service w')
          = inc_errors (sessionSummary (service w)) /\
        errors (sessionSummary (service w'))
          = errors (sessionSummary (service w)) + 1 /\
        total_tokens (sessionSummary (service w'))
          = total_tokens (sessionSummary (service w))
    end.
Proof.
  unfold logUsage.
  destruct (negb (enableTracking cfg) || negb (truthy (apiKey cfg)));
    [by cbn|].
  destruct (tokens =? 0); [by cbn|].
  cbn. unfold usage_request.
  destruct (respond env (length (net w)) _) as [e|[]]; cbn;
    [by repeat split|].
  do 3 (split; [reflexivity|]).
  split; [intros _; reflexivity|].
  split; [apply js_add_exact|by repeat split].
Qed.

(** On a new service an accepted log of 120 tokens makes the total 120. *)
Lemma logUsage_outcomes_witness :
  total_tokens
    (sessionSummary
       (service
          (snd (run (ledger_with (DataArray []))
                    (logUsage tracked_config "https://example.com/a" 120
                              (no_license "https://example.com/a") None None)
                    (fresh_world tracked_config)))))
  = 0 + 120.
Proof.
  pose proof (logUsage_outcomes (ledger_with (DataArray [])) tracked_config
                "https://example.com/a" 120
                (no_license "https://example.com/a") None None
                (fresh_world tracked_config)) as H.
  destruct (run (ledger_with (DataArray [])) _ (fresh_world tracked_config))
    as [r w']. vm_compute in H.
  destruct H as (_ & _ & _ & _ & Hexact & _).
  apply Hexact. discriminate.
Defined.

(** ** Token estimates *)

Lemma rough_estimate_ceil (content : string) :
  let len := Z.of_nat (String.length content) in
  rough_estimate content = (len + 3) / 4 /\
  len <= 4 * rough_estimate content < len + 4.
Proof.
  unfold rough_estimate.
  generalize (Z.of_nat (String.length content)). intros len. cbv zeta.
  unfold Qceiling, Qfloor, Qdiv, Qmult, Qinv, Qopp, inject_Z. cbn.
  rewrite Z.mul_1_r.
  split; Z.div_mod_to_equations; lia.
Qed.

(** C9. [estimateTokens] returns 0 for the empty string and never a
    negative number; when the encoder is absent or fails on the content it
    returns exactly the ceiling of a quarter of the length, the least
    integer whose fourfold reaches the length; and its result depends on
    the encoder only through what the encoder gives for that content. *)
Theorem estimateTokens_spec (tokenEncoder : Encoder) (content : string) :
  estimateTokens tokenEncoder "" = 0 /\
  0 <= estimateTokens tokenEncoder content /\
  (encoding tokenEncoder content = None ->
   let len := Z.of_nat (String.length content) in
   estimateTokens tokenEncoder content = (len + 3) / 4 /\
   len <= 4 * estimateTokens tokenEncoder content < len + 4) /\
  (forall other : Encoder,
     encoding other content = encoding tokenEncoder content ->
     estimateTokens other content = estimateTokens tokenEncoder content).
Proof.
  pose proof (rough_estimate_ceil content) as [Hdiv Hceil]. cbv zeta in *.
  assert (Hempty : content = "" -> rough_estimate content = 0).
  { intros ->. reflexivity. }
  split; [reflexivity|]. split; [|split].
  - unfold estimateTokens. case_bool_decide; [lia|].
    destruct tokenEncoder as [encode|]; [|lia].
    destruct (encode content); lia.
  - unfold estimateTokens, encoding. intros Henc.
    case_bool_decide as Hc.
    + rewrite <- Hdiv, (Hempty Hc) in *. lia.
    + destruct tokenEncoder as [encode|]; [rewrite Henc|]; split; done.
  - intros other Hsame. unfold estimateTokens, encoding in *.
    case_bool_decide; [done|].
    destruct other as [f|], tokenEncoder as [g|]; rewrite ?Hsame; try done.
    + by rewrite <- Hsame.
Qed.

Lemma estimateTokens_spec_witness :
  estimateTokens None "" = 0 /\
  0 <= estimateTokens None "hello" /\
  (estimateTokens None "hello" = (5 + 3) / 4 /\
   5 <= 4 * estimateTokens None "hello" < 5 + 4) /\
  (forall other : Encoder,
     encoding other "hello" = encoding None "hello" ->
     estimateTokens other "hello" = estimateTokens None "hello").
Proof.
  destruct (estimateTokens_spec None "hello") as (H0 & Hpos & Hceil & Hdet).
  repeat split; try done; apply (Hceil eq_refl).
Defined.

Example estimateTokens_hello : estimateTokens None "hello" = 2.
Proof. reflexivity. Qed.

(** ** The payment-aware fetcher *)

Lemma substring_length (n : nat) (s : string) :
  String.length (String.substring 0 n s) = Nat.min n (String.length s).
Proof.
  revert n. induction s as [|c s IH]; intros [|n]; simpl; auto.
Qed.

(** For a budget that is not negative, [slice0] keeps the text when it fits
    and cuts it to exactly the budget otherwise. *)
Lemma slice0_length (s : string) (e : Z) :
  0 <= e ->
  Z.of_nat (String.length (slice0 s e)) = Z.min e (Z.of_nat (String.length s)).
Proof.
  intros He. unfold slice0. destruct (Z.ltb_spec e 0); [lia|].
  rewrite substring_length. lia.
Qed.

Section Fetcher.

Variable env : Env.
Variable envFetchTimeout : Z.
Variable u : string.
Variable opts : FetchOptions.

Lemma length_net_send (q : Request) (w : World) :
  length (net (send q w)) = S (length (net w)).
Proof. cbn. rewrite length_app. cbn. lia. Qed.

(** The run of the fetcher once the challenge is recognised and the
    acquisition has succeeded. *)
Lemma run_licensedFetchText_acquired (w : World) (first : Response)
    (acq : LedgerAcquireResponse) :
  respond env (length (net w)) (fetch_request envFetchTimeout opts u) = inr first ->
  resp_status first = 402 ->
  isX402 first = true ->
  truthy (apiKey (ledger opts)) = true ->
  respond env (S (length (net w))) (acquire_request u opts first) = inr acq ->
  run env (licensedFetchText envFetchTimeout u opts) w
  = (inr match respond env (S (S (length (net w))))
                     (fetch_request envFetchTimeout opts (licensed_url acq)) with
         | inr second => paid_result u opts first second acq
         | inl e => unpaid_result u opts first e
         end,
     send (fetch_request envFetchTimeout opts (licensed_url acq))
          (send (acquire_request u opts first) (send (fetch_request envFetchTimeout opts u) w))).
Proof.
  intros Hfirst Hstatus Hx Hkey Hacq.
  unfold licensedFetchText, attempt, fetchWithTimeout, acquireLicenseToken.
  cbn [run bind try_catch await].
  change (Fetch u _ _) with (fetch_request envFetchTimeout opts u).
  change (JsError + reply_type (fetch_request envFetchTimeout opts u))%type
    with (JsError + Response)%type in Hfirst.
  rewrite Hfirst. cbn [run bind try_catch].
  rewrite Hstatus, Hx, Hkey. cbn [negb Z.eqb Pos.eqb run bind try_catch await].
  change (PostAcquire _ _ _) with (acquire_request u opts first).
  rewrite length_net_send.
  change (JsError + reply_type (acquire_request u opts first))%type
    with (JsError + LedgerAcquireResponse)%type in Hacq.
  rewrite Hacq. cbn [run bind try_catch await].
  change (Fetch (licensed_url acq) _ _) with (fetch_request envFetchTimeout opts (licensed_url acq)).
  rewrite !length_net_send.
  change (JsError + reply_type (fetch_request envFetchTimeout opts (licensed_url acq)))%type
    with (JsError + Response)%type.
  destruct (respond env (S (S (length (net w))))
              (fetch_request envFetchTimeout opts (licensed_url acq))) as [e|second];
    unfold paid_result, unpaid_result; rewrite ?Hstatus; reflexivity.
Qed.

End Fetcher.

(** C1, as stated, fails at two inputs.  When the licensed URL redirects,
    the result carries the URL of the second response, not the licensed
    URL.  When the second fetch throws, there is no second response to
    build the result from, and the metadata is not attached. *)
Lemma paid_fetch_counterexamples :
  ~ paid_fetch_as_specified (paywalled_site (inr delivered)) 12000
      "https://example.com/a" default_options (fresh_world tracked_config)
      paywall granted /\
  ~ paid_fetch_as_specified (paywalled_site (inl connection_reset)) 12000
      "https://example.com/a" default_options (fresh_world tracked_config)
      paywall granted.
Proof.
  split; intros H.
  - destruct H as (r & w' & second & Hrun & _ & _ & _ & Hfinal & _);
      try reflexivity.
    vm_compute in Hrun. injection Hrun as <- _. vm_compute in Hfinal.
    discriminate.
  - destruct H as (r & w' & second & Hrun & _ & _ & _ & _ & _ & _ & _ & Hmeta);
      try reflexivity.
    vm_compute in Hrun. injection Hrun as <- _. discriminate.
Qed.

(** C1, amended. When the first fetch returns 402 with a recognised x402
    challenge, the acquisition succeeds and the second fetch returns a
    response, [licensedFetchText] sends exactly the first fetch, one
    acquisition and the fetch of the licensed URL, and returns
    [payment_attempted = true], the status, content type and body of the
    second response whatever its status, the body cut to the character
    budget, the acquisition metadata, and as [final_url] the URL of the
    second response, or the licensed URL when that URL is empty. *)
Theorem licensedFetchText_paid
    (env : Env) (envFetchTimeout : Z) (u : string) (opts : FetchOptions)
    (w : World) (first second : Response) (acq : LedgerAcquireResponse) :
  respond env (length (net w)) (fetch_request envFetchTimeout opts u)
    = inr first ->
  resp_status first = 402 ->
  isX402 first = true ->
  truthy (apiKey (ledger opts)) = true ->
  respond env (S (length (net w))) (acquire_request u opts first) = inr acq ->
  respond env (S (S (length (net w))))
          (fetch_request envFetchTimeout opts (licensed_url acq))
    = inr second ->
  exists (r : LicensedFetchResult) (w' : World),
    run env (licensedFetchText envFetchTimeout u opts) w = (inr r, w') /\
    net w' = (net w ++ [fetch_request envFetchTimeout opts u;
                        acquire_request u opts first;
                        fetch_request envFetchTimeout opts (licensed_url acq)])%list /\
    requested_url r = u /\
    payment_attempted r = true /\
    payment_required r = true /\
    final_url r = (if bool_decide (resp_url second = "")
                   then licensed_url acq else resp_url second) /\
    (resp_url second = "" \/ resp_url second = licensed_url acq ->
     final_url r = licensed_url acq) /\
    status r = resp_status second /\
    content_type r = headers_get (resp_headers second) "content-type" /\
    content_text r
      = Some (slice0 (default "" (resp_body second)) (budget opts)) /\
    (0 <= budget opts ->
     exists text : string,
       content_text r = Some text /\
       Z.of_nat (String.length text)
         = Z.min (budget opts)
                 (Z.of_nat (String.length (default "" (resp_body second))))) /\
    acquire r
      = Some {| m_licensed_url := licensed_url acq;
                m_cost := cost acq;
                m_currency := currency acq;
                m_expires_at := expires_at acq;
                m_license_version_id := acq_license_version_id acq;
                m_license_sig := acq_license_sig acq |} /\
    fetch_error r = None.
Proof.
  intros Hfirst Hstatus Hx Hkey Hacq Hsecond.
  rewrite (run_licensedFetchText_acquired env envFetchTimeout u opts w first
             acq Hfirst Hstatus Hx Hkey Hacq).
  change (JsError + reply_type
            (fetch_request envFetchTimeout opts (licensed_url acq)))%type
    with (JsError + Response)%type in Hsecond.
  rewrite Hsecond.
  eexists _, _. split; [reflexivity|].
  split; [cbn; by rewrite <- !app_assoc|].
  cbn [paid_result requested_url payment_attempted payment_required final_url
       status content_type content_text acquire fetch_error].
  repeat split.
  - unfold url_or. intros [-> | ->]; [done|]. by case_bool_decide.
  - intros Hb. eexists. split; [reflexivity|]. by apply slice0_length.
Qed.

Lemma licensedFetchText_paid_witness :
  exists (r : LicensedFetchResult) (w' : World),
    run (paywalled_site (inr delivered))
        (licensedFetchText 12000 "https://example.com/a" default_options)
        (fresh_world tracked_config) = (inr r, w') /\
    net w' = [fetch_request 12000 default_options "https://example.com/a";
              acquire_request "https://example.com/a" default_options paywall;
              fetch_request 12000 default_options
                            "https://example.com/licensed/a?token=t1"] /\
    payment_attempted r = true /\
    final_url r = "https://cdn.example.com/a" /\
    status r = 200 /\
    content_text r = Some "hello" /\
    acquire r = Some (metadata_of granted).
Proof.
  destruct (licensedFetchText_paid (paywalled_site (inr delivered)) 12000
              "https://example.com/a" default_options
              (fresh_world tracked_config) paywall delivered granted
              eq_refl eq_refl eq_refl eq_refl eq_refl eq_refl)
    as (r & w' & Hrun & Hnet & _ & Hpaid & _ & Hfinal & _ & Hstatus & _ &
        Htext & _ & Hmeta & _).
  exists r, w'. repeat split; assumption.
Defined.

(** C10. When the first fetch returns 402 with a recognised x402 challenge
    and the acquisition succeeds but the second fetch throws,
    [licensedFetchText] returns the status of the first response, which is
    402, and its body cut to the budget: for a budget that is not negative
    the content has the length of the body or that of the budget, whichever
    is smaller.  [payment_attempted] and [payment_required] are true, an
    error is set, and the acquisition metadata is absent; both fetches and
    the acquisition were sent. *)
Theorem licensedFetchText_second_fetch_throws
    (env : Env) (envFetchTimeout : Z) (u : string) (opts : FetchOptions)
    (w : World) (first : Response) (acq : LedgerAcquireResponse)
    (e : JsError) :
  respond env (length (net w)) (fetch_request envFetchTimeout opts u)
    = inr first ->
  resp_status first = 402 ->
  isX402 first = true ->
  truthy (apiKey (ledger opts)) = true ->
  respond env (S (length (net w))) (acquire_request u opts first) = inr acq ->
  respond env (S (S (length (net w))))
          (fetch_request envFetchTimeout opts (licensed_url acq))
    = inl e ->
  exists (r : LicensedFetchResult) (w' : World),
    run env (licensedFetchText envFetchTimeout u opts) w = (inr r, w') /\
    net w' = (net w ++ [fetch_request envFetchTimeout opts u;
                        acquire_request u opts first;
                        fetch_request envFetchTimeout opts (licensed_url acq)])%list /\
    status r = resp_status first /\
    status r = 402 /\
    content_type r = headers_get (resp_headers first) "content-type" /\
    content_text r
      = Some (slice0 (default "" (resp_body first)) (budget opts)) /\
    (0 <= budget opts ->
     exists text : string,
       content_text r = Some text /\
       Z.of_nat (String.length text)
         = Z.min (budget opts)
                 (Z.of_nat (String.length (default "" (resp_body first))))) /\
    payment_attempted r = true /\
    payment_required r = true /\
    fetch_error r = Some (error_text e) /\
    acquire r = None.
Proof.
  intros Hfirst Hstatus Hx Hkey Hacq Hsecond.
  rewrite (run_licensedFetchText_acquired env envFetchTimeout u opts w first
             acq Hfirst Hstatus Hx Hkey Hacq).
  change (JsError + reply_type
            (fetch_request envFetchTimeout opts (licensed_url acq)))%type
    with (JsError + Response)%type in Hsecond.
  rewrite Hsecond.
  eexists _, _. split; [reflexivity|].
  split; [cbn; by rewrite <- !app_assoc|].
  cbn [unpaid_result status content_type content_text payment_attempted
       payment_required fetch_error acquire].
  do 4 (split; [done|]). split; [|by repeat split].
  intros Hb. eexists. split; [reflexivity|]. by apply slice0_length.
Qed.

(** A body of 16 characters, returned whole under the default budget and
    cut to its first five under a budget of five. *)
Lemma licensedFetchText_second_fetch_throws_witness :
  (exists (r : LicensedFetchResult) (w' : World),
     run (paywalled_site (inl connection_reset))
         (licensedFetchText 12000 "https://example.com/a" default_options)
         (fresh_world tracked_config) = (inr r, w') /\
     length (net w') = 3%nat /\
     status r = 402 /\
     content_text r = Some "Payment required" /\
     payment_attempted r = true /\
     payment_required r = true /\
     fetch_error r = Some "fetch failed" /\
     acquire r = None) /\
  (exists (r : LicensedFetchResult) (w' : World),
     run (paywalled_site (inl connection_reset))
         (licensedFetchText 12000 "https://example.com/a" five_chars)
         (fresh_world tracked_config) = (inr r, w') /\
     length (net w') = 3%nat /\
     status r = 402 /\
     content_text r = Some "Payme" /\
     (exists text : string,
        content_text r = Some text /\ Z.of_nat (String.length text) = 5) /\
     payment_attempted r = true /\
     payment_required r = true /\
     fetch_error r = Some "fetch failed" /\
     acquire r = None).
Proof.
  split.
  - destruct (licensedFetchText_second_fetch_throws
                (paywalled_site (inl connection_reset)) 12000
                "https://example.com/a" default_options
                (fresh_world tracked_config) paywall granted connection_reset
                eq_refl eq_refl eq_refl eq_refl eq_refl eq_refl)
      as (r & w' & Hrun & Hnet & _ & Hstatus & _ & Htext & _ & Hpa & Hpr &
          Herr & Hacq).
    exists r, w'. repeat split; try assumption. by rewrite Hnet.
  - destruct (licensedFetchText_second_fetch_throws
                (paywalled_site (inl connection_reset)) 12000
                "https://example.com/a" five_chars
                (fresh_world tracked_config) paywall granted connection_reset
                eq_refl eq_refl eq_refl eq_refl eq_refl eq_refl)
      as (r & w' & Hrun & Hnet & _ & Hstatus & _ & Htext & Hlen & Hpa & Hpr &
          Herr & Hacq).
    exists r, w'. split; [assumption|]. split; [by rewrite Hnet|].
    split; [assumption|]. split; [assumption|].
    split; [apply Hlen; cbn; lia|]. by repeat split.
Defined.

(** Whatever the web and the ledger answer, the fetcher returns a result:
    it never throws, and it sends at most two fetches and at most one
    acquisition. *)
Lemma licensedFetchText_total
    (env : Env) (envFetchTimeout : Z) (u : string) (opts : FetchOptions)
    (w : World) :
  exists (r : LicensedFetchResult) (w' : World) (qs : list Request),
    run env (licensedFetchText envFetchTimeout u opts) w = (inr r, w') /\
    net w' = (net w ++ qs)%list /\
    requested_url r = u /\
    service w' = service w /\
    (length (filter is_fetch qs) <= 2)%nat /\
    (length (filter is_acquire qs) <= 1)%nat.
Proof.
  unfold licensedFetchText, attempt, fetchWithTimeout, acquireLicenseToken.
  cbn [run bind try_catch await].
  destruct (respond env (length (net w)) _) as [e1|first];
    cbn [run bind try_catch].
  { eexists _, _, [_]. do 4 (split; [done|]). split; vm_compute; lia. }
  destruct (negb (resp_status first =? 402)); cbn [run bind try_catch].
  { eexists _, _, [_]. do 4 (split; [done|]). split; vm_compute; lia. }
  destruct (negb (isX402 first)); cbn [run bind try_catch].
  { eexists _, _, [_]. do 4 (split; [done|]). split; vm_compute; lia. }
  destruct (negb (truthy (apiKey (ledger opts))));
    cbn [run bind try_catch await].
  { eexists _, _, [_]. do 4 (split; [done|]). split; vm_compute; lia. }
  destruct (respond env (length (net (send _ w))) (PostAcquire _ _ _))
    as [e2|acq]; cbn [run bind try_catch await].
  { eexists _, _, [_; _]. split; [done|].
    split; [cbn; by rewrite <- app_assoc|]. do 2 (split; [done|]).
    split; vm_compute; lia. }
  destruct (respond env _ (Fetch _ _ _)) as [e3|second];
    cbn [run bind try_catch await];
    (eexists _, _, [_; _; _]; split; [done|];
     split; [cbn; by rewrite <- !app_assoc|]; do 2 (split; [done|]);
     split; vm_compute; lia).
Qed.

(** The terminal results of the other paths, on concrete sites. *)
Example fetch_served_at_once :
  run open_site (licensedFetchText 12000 "https://example.com/h" default_options)
      (fresh_world tracked_config)
  = (inr {| requested_url := "https://example.com/h";
            final_url := "https://example.com/h";
            status := 200;
            content_type := Some "text/plain";
            content_text := Some "hello";
            payment_attempted := false; payment_required := false;
            x402 := None; acquire := None; fetch_error := None |},
     {| service := new_Service tracked_config;
        net := [fetch_request 12000 default_options "https://example.com/h"];
        ticks := 0 |}).
Proof. reflexivity. Qed.

Example fetch_unrecognised_challenge :
  fst (run plain_paywall
           (licensedFetchText 12000 "https://example.com/p" five_chars)
           (fresh_world tracked_config))
  = inr {| requested_url := "https://example.com/p";
           final_url := "https://example.com/p";
           status := 402;
           content_type := Some "text/html";
           content_text := Some "Subsc";
           payment_attempted := false; payment_required := true;
           x402 := Some {| x_price := Some "0.01"; x_payto := None;
                           x_stage := None; x_distribution := None;
                           x_facilitator_url := None |};
           acquire := None;
           fetch_error := Some
             "HTTP 402 received but did not advertise x402 in payment-required header" |}.
Proof. reflexivity. Qed.

Example fetch_network_failure :
  fst (run unreachable
           (licensedFetchText 12000 "https://example.com/h" default_options)
           (fresh_world tracked_config))
  = inr {| requested_url := "https://example.com/h";
           final_url := "https://example.com/h";
           status := 0;
           content_type := None; content_text := None;
           payment_attempted := false; payment_required := false;
           x402 := None; acquire := None;
           fetch_error := Some "timeout of 5000ms exceeded" |}.
Proof. reflexivity. Qed.

Example challenge_is_matched_without_case :
  includes (toLowerCase "scheme=X402; version=1") "x402" = true /\
  includes (toLowerCase "Basic realm=site") "x402" = false.
Proof. split; reflexivity. Qed.

Example logUsage_zero_tokens :
  run (ledger_with (DataArray []))
      (logUsage tracked_config "https://example.com/a" 0
                (no_license "https://example.com/a") None None)
      (fresh_world tracked_config)
  = (inr false, fresh_world tracked_config).
Proof. reflexivity. Qed.

Example logUsage_accepted :
  let '(r, w') :=
    run (ledger_with (DataArray []))
        (logUsage tracked_config "https://example.com/a" 120
                  (license_of_record "https://example.com/a" general_opt_in)
                  None None)
        (fresh_world tracked_config) in
  r = inr true /\
  total_tokens (sessionSummary (service w')) = 120 /\
  length (net w') = 1%nat.
Proof. repeat split. Qed.

Example logUsage_rejected :
  let '(r, w') :=
    run unreachable
        (logUsage tracked_config "https://example.com/a" 120
                  (license_of_record "https://example.com/a" general_opt_in)
                  (Some train) (Some public))
        (fresh_world tracked_config) in
  r = inr false /\
  total_tokens (sessionSummary (service w')) = 0 /\
  errors (sessionSummary (service w')) = 1.
Proof. repeat split. Qed.

(** * Further properties *)

(** ** The paths of the fetcher *)

Section FetcherPaths.

Variable env : Env.
Variable envFetchTimeout : Z.
Variable u : string.
Variable opts : FetchOptions.

(** Every run of the fetcher is one of six. *)
Lemma licensedFetchText_cases (w : World) :
  let q1 := fetch_request envFetchTimeout opts u in
  let n := length (net w) in
  (exists e : JsError,
     respond env n q1 = inl e /\
     run env (licensedFetchText envFetchTimeout u opts) w
       = (inr (failed_result u e), send q1 w)) \/
  (exists first : Response,
     respond env n q1 = inr first /\
     ((resp_status first <> 402 /\
       run env (licensedFetchText envFetchTimeout u opts) w
         = (inr (direct_result u opts first), send q1 w)) \/
      (resp_status first = 402 /\ isX402 first = false /\
       run env (licensedFetchText envFetchTimeout u opts) w
         = (inr (unrecognised_result u opts first), send q1 w)) \/
      (resp_status first = 402 /\ isX402 first = true /\
       truthy (apiKey (ledger opts)) = false /\
       run env (licensedFetchText envFetchTimeout u opts) w
         = (inr (unpaid_result u opts first missing_key_error), send q1 w)) \/
      (resp_status first = 402 /\ isX402 first = true /\
       truthy (apiKey (ledger opts)) = true /\
       let q2 := acquire_request u opts first in
       ((exists e : JsError,
           respond env (S n) q2 = inl e /\
           run env (licensedFetchText envFetchTimeout u opts) w
             = (inr (unpaid_result u opts first e), send q2 (send q1 w))) \/
        (exists acq : LedgerAcquireResponse,
           respond env (S n) q2 = inr acq /\
           let q3 := fetch_request envFetchTimeout opts (licensed_url acq) in
           run env (licensedFetchText envFetchTimeout u opts) w
             = (inr match respond env (S (S n)) q3 with
                    | inr second => paid_result u opts first second acq
                    | inl e => unpaid_result u opts first e
                    end,
                send q3 (send q2 (send q1 w)))))))).
Proof.
  cbv zeta.
  destruct (respond env (length (net w)) (fetch_request envFetchTimeout opts u))
    as [e|first] eqn:Hfirst.
  { left. exists e. split; [done|].
    unfold licensedFetchText, attempt, fetchWithTimeout.
    cbn [run bind try_catch await].
    change (Fetch u _ _) with (fetch_request envFetchTimeout opts u).
    change (JsError + reply_type (fetch_request envFetchTimeout opts u))%type
      with (JsError + Response)%type in Hfirst.
    by rewrite Hfirst. }
  right. exists first. split; [done|].
  assert (Hhead : forall k : JsError + Response -> Prog LicensedFetchResult,
    run env (Await (fetch_request envFetchTimeout opts u) k) w
    = run env (k (inr first)) (send (fetch_request envFetchTimeout opts u) w)).
  { intros k. cbn [run].
    change (JsError + reply_type (fetch_request envFetchTimeout opts u))%type
      with (JsError + Response)%type in Hfirst.
    by rewrite Hfirst. }
  destruct (Z.eqb_spec (resp_status first) 402) as [Hs|Hs].
  2:{ left. split; [done|].
      unfold licensedFetchText, attempt, fetchWithTimeout.
      cbn [bind try_catch await].
      change (Fetch u _ _) with (fetch_request envFetchTimeout opts u).
      rewrite Hhead. cbn [run bind try_catch].
      apply Z.eqb_neq in Hs. by rewrite Hs. }
  right.
  destruct (isX402 first) eqn:Hx.
  2:{ left. split; [done|]. split; [done|].
      unfold licensedFetchText, attempt, fetchWithTimeout.
      cbn [bind try_catch await].
      change (Fetch u _ _) with (fetch_request envFetchTimeout opts u).
      rewrite Hhead. cbn [run bind try_catch].
      rewrite Hs, Hx. cbn [negb Z.eqb Pos.eqb run].
      unfold unrecognised_result. by rewrite Hs. }
  right.
  destruct (truthy (apiKey (ledger opts))) eqn:Hkey.
  2:{ left. do 3 (split; [done|]).
      unfold licensedFetchText, attempt, fetchWithTimeout, acquireLicenseToken.
      cbn [bind try_catch await].
      change (Fetch u _ _) with (fetch_request envFetchTimeout opts u).
      rewrite Hhead. cbn [run bind try_catch].
      rewrite Hs, Hx, Hkey. cbn [negb Z.eqb Pos.eqb run bind try_catch].
      unfold unpaid_result. by rewrite Hs. }
  right. do 3 (split; [done|]).
  destruct (respond env (S (length (net w))) (acquire_request u opts first))
    as [e|acq] eqn:Hacq.
  - left. exists e. split; [done|].
    unfold licensedFetchText, attempt, fetchWithTimeout, acquireLicenseToken.
    cbn [bind try_catch await].
    change (Fetch u _ _) with (fetch_request envFetchTimeout opts u).
    rewrite Hhead. cbn [run bind try_catch].
    rewrite Hs, Hx, Hkey. cbn [negb Z.eqb Pos.eqb run bind try_catch await].
    change (PostAcquire _ _ _) with (acquire_request u opts first).
    rewrite length_net_send.
    change (JsError + reply_type (acquire_request u opts first))%type
      with (JsError + LedgerAcquireResponse)%type in Hacq.
    rewrite Hacq. cbn [run bind try_catch].
    unfold unpaid_result. by rewrite Hs.
  - right. exists acq. split; [done|].
    by apply run_licensedFetchText_acquired.
Qed.

End FetcherPaths.

(** X1. Whatever the web and the ledger answer, [licensedFetchText] returns
    a result and never throws.  It first sends the fetch of the requested
    URL; it sends at most one acquisition after it and at most one more
    fetch after that, and nothing else: no lookup, no usage log.  It leaves
    the service object, cache and counters, as they were. *)
Theorem licensedFetchText_is_bounded
    (env : Env) (envFetchTimeout : Z) (u : string) (opts : FetchOptions)
    (w : World) :
  exists (r : LicensedFetchResult) (w' : World) (qs : list Request),
    run env (licensedFetchText envFetchTimeout u opts) w = (inr r, w') /\
    net w' = (net w ++ fetch_request envFetchTimeout opts u :: qs)%list /\
    (qs = [] \/
     (exists first : Response, qs = [acquire_request u opts first]) \/
     (exists (first : Response) (acq : LedgerAcquireResponse),
        qs = [acquire_request u opts first;
              fetch_request envFetchTimeout opts (licensed_url acq)])) /\
    service w' = service w /\
    ticks w' = ticks w /\
    requested_url r = u.
Proof.
  destruct (licensedFetchText_cases env envFetchTimeout u opts w)
    as [(e & _ & ->)
       |(first & _ & [(_ & ->)|[(_ & _ & ->)|[(_ & _ & _ & ->)
          |(_ & _ & _ & [(e & _ & ->)|(acq & _ & ->)])]]])].
  - eexists _, _, []. by repeat split; auto.
  - eexists _, _, []. by repeat split; auto.
  - eexists _, _, []. by repeat split; auto.
  - eexists _, _, []. by repeat split; auto.
  - eexists _, _, [_]. split; [done|]. split; [cbn; by rewrite <- app_assoc|].
    split; [right; left; by eexists|]. by repeat split.
  - eexists _, _, [_; _]. split; [done|].
    split; [cbn; by rewrite <- !app_assoc|].
    split; [right; right; by eexists _, _|].
    do 2 (split; [done|]).
    by destruct (respond env _ _).
Qed.

(** X2. The fields of every result of [licensedFetchText] agree with one
    another: a payment is attempted only when one is required; a challenge
    is reported exactly when a payment is required; acquisition metadata
    comes only with an attempted payment and without an error; a result
    without content is the one of a failed first fetch, with status 0 and
    an error; and an attempted payment without metadata carries an error. *)
Theorem licensedFetchText_result_is_consistent
    (env : Env) (envFetchTimeout : Z) (u : string) (opts : FetchOptions)
    (w : World) :
  exists (r : LicensedFetchResult) (w' : World),
    run env (licensedFetchText envFetchTimeout u opts) w = (inr r, w') /\
    (payment_attempted r = true -> payment_required r = true) /\
    (payment_required r = true <-> is_Some (x402 r)) /\
    (is_Some (acquire r) ->
     payment_attempted r = true /\ fetch_error r = None) /\
    (content_text r = None <->
     status r = 0 /\ payment_required r = false /\ is_Some (fetch_error r)
     /\ exists e : JsError,
          respond env (length (net w))
                  (fetch_request envFetchTimeout opts u) = inl e) /\
    (payment_attempted r = true -> acquire r = None ->
     is_Some (fetch_error r)) /\
    (payment_required r = false -> acquire r = None).
Proof.
  assert (Hsome : forall (A : Type) (x : A), is_Some (Some x)) by eauto.
  assert (Hnone : forall A : Type, ~ is_Some (@None A))
    by (intros A [x Hx]; discriminate).
  destruct (licensedFetchText_cases env envFetchTimeout u opts w)
    as [(e & He & ->)
       |(first & Hf & [(_ & ->)|[(_ & _ & ->)|[(_ & _ & _ & ->)
          |(_ & _ & _ & [(e & _ & ->)|(acq & _ & ->)])]]])];
    change (JsError + reply_type (fetch_request envFetchTimeout opts u))%type
      with (JsError + Response)%type in *.
  - eexists _, _. split; [done|]. cbn.
    repeat split; try done; try (intros H; by apply Hnone in H); eauto.
  - eexists _, _. split; [done|]. cbn.
    repeat split; try done; try (intros H; by apply Hnone in H).
    intros (_ & _ & _ & e & He). congruence.
  - eexists _, _. split; [done|]. cbn.
    repeat split; try done; try (intros H; by apply Hnone in H); eauto.
    by intros (_ & ? & _).
  - eexists _, _. split; [done|]. cbn.
    repeat split; try done; try (intros H; by apply Hnone in H); eauto.
    by intros (_ & ? & _).
  - eexists _, _. split; [done|]. cbn.
    repeat split; try done; try (intros H; by apply Hnone in H); eauto.
    by intros (_ & ? & _).
  - eexists _, _. split; [done|].
    destruct (respond env _ (fetch_request envFetchTimeout opts (licensed_url acq)));
      cbn;
      repeat split; try done; try (intros H; by apply Hnone in H); eauto;
      by intros (_ & ? & _).
Qed.

Lemma substring_whole (n : nat) (s : string) :
  (String.length s <= n)%nat -> String.substring 0 n s = s.
Proof.
  revert n. induction s as [|c s IH]; intros [|n] Hn; simpl in *;
    try done; try lia.
  rewrite IH; [done|lia].
Qed.

Lemma substring_is_prefix (n : nat) (s : string) :
  exists rest : string, s = String.substring 0 n s ++ rest.
Proof.
  revert n. induction s as [|c s IH]; intros [|n]; simpl.
  - by exists "".
  - by exists "".
  - by eexists.
  - destruct (IH n) as [rest Hrest]. exists rest.
    rewrite Hrest at 1. reflexivity.
Qed.

(** The truncation applied to every returned body, [text.slice(0,
    maxChars)]: the result is always a prefix of the text; for a budget
    that is not negative, a text within the budget is returned whole and a
    longer one is cut to exactly the budget; a negative budget -k is not
    refused but drops the last k characters. *)
Lemma slice0_truncates (s : string) (e : Z) :
  let len := Z.of_nat (String.length s) in
  (exists rest : string, s = slice0 s e ++ rest) /\
  (len <= e -> slice0 s e = s) /\
  (0 <= e < len -> Z.of_nat (String.length (slice0 s e)) = e) /\
  (e < 0 -> Z.of_nat (String.length (slice0 s e)) = Z.max (len + e) 0).
Proof.
  cbv zeta. unfold slice0. split; [apply substring_is_prefix|].
  split; [|split].
  - intros Hfit. destruct (Z.ltb_spec e 0); [lia|].
    apply substring_whole. lia.
  - intros Hcut. destruct (Z.ltb_spec e 0); [lia|].
    rewrite substring_length. lia.
  - intros Hneg. destruct (Z.ltb_spec e 0); [|lia].
    rewrite substring_length. lia.
Qed.

(** X3. With a budget that is not negative, the content of every result of
    [licensedFetchText], on whatever path it was produced, is at most as
    long as the budget. *)
Theorem licensedFetchText_content_within_budget
    (env : Env) (envFetchTimeout : Z) (u : string) (opts : FetchOptions)
    (w : World) :
  0 <= budget opts ->
  exists (r : LicensedFetchResult) (w' : World),
    run env (licensedFetchText envFetchTimeout u opts) w = (inr r, w') /\
    forall text : string,
      content_text r = Some text ->
      Z.of_nat (String.length text) <= budget opts.
Proof.
  intros Hb.
  assert (Hcut : forall (body text : string),
    Some (slice0 body (budget opts)) = Some text ->
    Z.of_nat (String.length text) <= budget opts).
  { intros body text [= <-]. rewrite slice0_length by done. lia. }
  destruct (licensedFetchText_cases env envFetchTimeout u opts w)
    as [(e & _ & ->)
       |(first & _ & [(_ & ->)|[(_ & _ & ->)|[(_ & _ & _ & ->)
          |(_ & _ & _ & [(e & _ & ->)|(acq & _ & ->)])]]])];
    eexists _, _; (split; [done|]); try (by cbn); try (cbn; by eauto).
  destruct (respond env _ _); cbn; by eauto.
Qed.

Lemma licensedFetchText_content_within_budget_witness :
  exists (r : LicensedFetchResult) (w' : World),
    run plain_paywall
        (licensedFetchText 12000 "https://example.com/p" five_chars)
        (fresh_world tracked_config) = (inr r, w') /\
    forall text : string,
      content_text r = Some text -> Z.of_nat (String.length text) <= 5.
Proof.
  apply (licensedFetchText_content_within_budget plain_paywall 12000
           "https://example.com/p" five_chars (fresh_world tracked_config)).
  cbn. lia.
Defined.

(** X4. When the first fetch throws (DNS, connection, timeout), the fetcher
    stops there: the fetch is the only request, the result has status 0,
    the requested URL as [final_url], no content, both payment flags false
    and the text of the error. *)
Theorem licensedFetchText_first_fetch_throws
    (env : Env) (envFetchTimeout : Z) (u : string) (opts : FetchOptions)
    (w : World) (e : JsError) :
  respond env (length (net w)) (fetch_request envFetchTimeout opts u) = inl e ->
  exists (r : LicensedFetchResult) (w' : World),
    run env (licensedFetchText envFetchTimeout u opts) w = (inr r, w') /\
    net w' = (net w ++ [fetch_request envFetchTimeout opts u])%list /\
    status r = 0 /\
    final_url r = u /\
    content_type r = None /\
    content_text r = None /\
    payment_attempted r = false /\
    payment_required r = false /\
    x402 r = None /\
    acquire r = None /\
    fetch_error r = Some (error_text e).
Proof.
  intros He.
  change (JsError + reply_type (fetch_request envFetchTimeout opts u))%type
    with (JsError + Response)%type in He.
  destruct (licensedFetchText_cases env envFetchTimeout u opts w)
    as [(e' & He' & ->)|(first & Hf & _)];
    change (JsError + reply_type (fetch_request envFetchTimeout opts u))%type
      with (JsError + Response)%type in *; [|congruence].
  assert (e' = e) as -> by congruence.
  eexists _, _. by repeat split.
Qed.

Lemma licensedFetchText_first_fetch_throws_witness :
  exists (r : LicensedFetchResult) (w' : World),
    run unreachable
        (licensedFetchText 12000 "https://example.com/h" default_options)
        (fresh_world tracked_config) = (inr r, w') /\
    net w' = [fetch_request 12000 default_options "https://example.com/h"] /\
    status r = 0 /\
    final_url r = "https://example.com/h" /\
    content_type r = None /\
    content_text r = None /\
    payment_attempted r = false /\
    payment_required r = false /\
    x402 r = None /\
    acquire r = None /\
    fetch_error r = Some "timeout of 5000ms exceeded".
Proof.
  apply (licensedFetchText_first_fetch_throws unreachable 12000
           "https://example.com/h" default_options
           (fresh_world tracked_config) timeout_error).
  reflexivity.
Defined.

(** X5. A first response whose status is not 402 ends the fetch, whatever
    that status is: the fetch is the only request, the ledger is not
    contacted, and the result has the status and content type of the
    response, its body cut to the budget (whole when it fits, empty when
    the body cannot be read, and for a budget that is not negative never
    longer than the budget), the URL of the response unless that is empty,
    both payment flags false and no error. *)
Theorem licensedFetchText_without_paywall
    (env : Env) (envFetchTimeout : Z) (u : string) (opts : FetchOptions)
    (w : World) (first : Response) :
  respond env (length (net w)) (fetch_request envFetchTimeout opts u)
    = inr first ->
  resp_status first <> 402 ->
  exists (r : LicensedFetchResult) (w' : World),
    run env (licensedFetchText envFetchTimeout u opts) w = (inr r, w') /\
    net w' = (net w ++ [fetch_request envFetchTimeout opts u])%list /\
    status r = resp_status first /\
    final_url r = (if bool_decide (resp_url first = "")
                   then u else resp_url first) /\
    content_type r = headers_get (resp_headers first) "content-type" /\
    content_text r
      = Some (slice0 (default "" (resp_body first)) (budget opts)) /\
    (0 <= budget opts ->
     exists text : string,
       content_text r = Some text /\
       Z.of_nat (String.length text)
         = Z.min (budget opts)
                 (Z.of_nat (String.length (default "" (resp_body first))))) /\
    (forall body : string,
       resp_body first = Some body ->
       Z.of_nat (String.length body) <= budget opts ->
       content_text r = Some body) /\
    (resp_body first = None -> content_text r = Some "") /\
    payment_attempted r = false /\
    payment_required r = false /\
    x402 r = None /\
    acquire r = None /\
    fetch_error r = None.
Proof.
  intros Hf Hs.
  change (JsError + reply_type (fetch_request envFetchTimeout opts u))%type
    with (JsError + Response)%type in Hf.
  destruct (licensedFetchText_cases env envFetchTimeout u opts w)
    as [(e' & He' & _)|(first' & Hf' & Hcases)];
    change (JsError + reply_type (fetch_request envFetchTimeout opts u))%type
      with (JsError + Response)%type in *; [congruence|].
  assert (first' = first) as -> by congruence.
  destruct Hcases as [(_ & ->)|[(? & _)|[(? & _)|(? & _)]]]; try done.
  eexists _, _. split; [done|]. cbn.
  repeat split; try done.
  - intros Hb. eexists. split; [reflexivity|]. by apply slice0_length.
  - intros body -> Hfit. cbn. f_equal.
    by apply (slice0_truncates body (budget opts)).
  - intros ->. cbn. f_equal. unfold slice0.
    by destruct (budget opts <? 0), (Z.to_nat _).
Qed.

(** A page of five characters, returned whole under the default budget and
    cut to its first three under a budget of three. *)
Lemma licensedFetchText_without_paywall_witness :
  (exists (r : LicensedFetchResult) (w' : World),
     run open_site
         (licensedFetchText 12000 "https://example.com/h" default_options)
         (fresh_world tracked_config) = (inr r, w') /\
     net w' = [fetch_request 12000 default_options "https://example.com/h"] /\
     status r = 200 /\
     final_url r = "https://example.com/h" /\
     content_text r = Some "hello" /\
     payment_attempted r = false /\
     payment_required r = false /\
     fetch_error r = None) /\
  (exists (r : LicensedFetchResult) (w' : World),
     run open_site
         (licensedFetchText 12000 "https://example.com/h" three_chars)
         (fresh_world tracked_config) = (inr r, w') /\
     status r = 200 /\
     content_text r = Some "hel" /\
     (exists text : string,
        content_text r = Some text /\ Z.of_nat (String.length text) = 3) /\
     fetch_error r = None).
Proof.
  split.
  - destruct (licensedFetchText_without_paywall open_site 12000
                "https://example.com/h" default_options
                (fresh_world tracked_config)
                {| resp_url := "https://example.com/h"; resp_status := 200;
                   resp_headers := [("content-type", "text/plain")];
                   resp_body := Some "hello" |} eq_refl ltac:(discriminate))
      as (r & w' & Hrun & Hnet & Hst & Hfin & _ & Htext & _ & _ & _ & Hpa &
          Hpr & _ & _ & Herr).
    exists r, w'. by repeat split.
  - destruct (licensedFetchText_without_paywall open_site 12000
                "https://example.com/h" three_chars
                (fresh_world tracked_config)
                {| resp_url := "https://example.com/h"; resp_status := 200;
                   resp_headers := [("content-type", "text/plain")];
                   resp_body := Some "hello" |} eq_refl ltac:(discriminate))
      as (r & w' & Hrun & _ & Hst & _ & _ & Htext & Hlen & _ & _ & _ & _ & _ &
          _ & Herr).
    exists r, w'. split; [assumption|]. split; [assumption|].
    split; [assumption|]. split; [apply Hlen; cbn; lia|assumption].
Defined.

(** X6. A 402 whose [payment-required] and [x-payment-protocol] headers do
    not name x402 is not paid for: the fetch is the only request, the
    ledger is not contacted, and the result carries the 402, the body of
    the response cut to the budget, [payment_required = true],
    [payment_attempted = false], the challenge fields read from the headers
    and an explanatory error. *)
Theorem licensedFetchText_unrecognised_402
    (env : Env) (envFetchTimeout : Z) (u : string) (opts : FetchOptions)
    (w : World) (first : Response) :
  respond env (length (net w)) (fetch_request envFetchTimeout opts u)
    = inr first ->
  resp_status first = 402 ->
  isX402 first = false ->
  exists (r : LicensedFetchResult) (w' : World),
    run env (licensedFetchText envFetchTimeout u opts) w = (inr r, w') /\
    net w' = (net w ++ [fetch_request envFetchTimeout opts u])%list /\
    status r = 402 /\
    content_type r = headers_get (resp_headers first) "content-type" /\
    content_text r
      = Some (slice0 (default "" (resp_body first)) (budget opts)) /\
    payment_attempted r = false /\
    payment_required r = true /\
    x402 r = Some (challenge_of first) /\
    acquire r = None /\
    is_Some (fetch_error r).
Proof.
  intros Hf Hs Hx.
  change (JsError + reply_type (fetch_request envFetchTimeout opts u))%type
    with (JsError + Response)%type in Hf.
  destruct (licensedFetchText_cases env envFetchTimeout u opts w)
    as [(e' & He' & _)|(first' & Hf' & Hcases)];
    change (JsError + reply_type (fetch_request envFetchTimeout opts u))%type
      with (JsError + Response)%type in *; [congruence|].
  assert (first' = first) as -> by congruence.
  destruct Hcases as [(? & _)|[(_ & _ & ->)|[(_ & ? & _)|(_ & ? & _)]]];
    try congruence.
  eexists _, _. split; [done|]. cbn. by repeat split; eauto.
Qed.

Lemma licensedFetchText_unrecognised_402_witness :
  exists (r : LicensedFetchResult) (w' : World),
    run plain_paywall
        (licensedFetchText 12000 "https://example.com/p" five_chars)
        (fresh_world tracked_config) = (inr r, w') /\
    net w' = [fetch_request 12000 five_chars "https://example.com/p"] /\
    status r = 402 /\
    content_text r = Some "Subsc" /\
    payment_attempted r = false /\
    payment_required r = true /\
    acquire r = None /\
    is_Some (fetch_error r).
Proof.
  destruct (licensedFetchText_unrecognised_402 plain_paywall 12000
              "https://example.com/p" five_chars (fresh_world tracked_config)
              {| resp_url := "https://example.com/p"; resp_status := 402;
                 resp_headers := [("content-type", "text/html");
                                  ("x-license-price", "0.01")];
                 resp_body := Some "Subscribers only" |}
              eq_refl eq_refl eq_refl)
    as (r & w' & Hrun & Hnet & Hst & _ & Htext & Hpa & Hpr & _ & Hacq & Herr).
  exists r, w'. by repeat split.
Defined.

(** X7. When the challenge is recognised but the acquisition fails, the
    second fetch is never attempted and the result falls back on the first
    response: its 402, its body cut to the budget (for a budget that is not
    negative, to the length of the body or of the budget, whichever is
    smaller), both payment flags true, no metadata, and the text of the
    error.  Without a configured key the
    acquisition fails before any request to the ledger; with a key, the
    rejected request is the only one sent to it. *)
Theorem licensedFetchText_acquisition_fails
    (env : Env) (envFetchTimeout : Z) (u : string) (opts : FetchOptions)
    (w : World) (first : Response) :
  respond env (length (net w)) (fetch_request envFetchTimeout opts u)
    = inr first ->
  resp_status first = 402 ->
  isX402 first = true ->
  (truthy (apiKey (ledger opts)) = false ->
   exists (r : LicensedFetchResult) (w' : World),
     run env (licensedFetchText envFetchTimeout u opts) w = (inr r, w') /\
     net w' = (net w ++ [fetch_request envFetchTimeout opts u])%list /\
     r = unpaid_result u opts first missing_key_error /\
     fetch_error r = Some (message missing_key_error) /\
     (0 <= budget opts ->
      exists text : string,
        content_text r = Some text /\
        Z.of_nat (String.length text)
          = Z.min (budget opts)
                  (Z.of_nat (String.length (default "" (resp_body first)))))) /\
  (forall e : JsError,
     truthy (apiKey (ledger opts)) = true ->
     respond env (S (length (net w))) (acquire_request u opts first) = inl e ->
     exists (r : LicensedFetchResult) (w' : World),
       run env (licensedFetchText envFetchTimeout u opts) w = (inr r, w') /\
       net w' = (net w ++ [fetch_request envFetchTimeout opts u;
                           acquire_request u opts first])%list /\
       r = unpaid_result u opts first e /\
       status r = 402 /\
       content_text r
         = Some (slice0 (default "" (resp_body first)) (budget opts)) /\
       (0 <= budget opts ->
        exists text : string,
          content_text r = Some text /\
          Z.of_nat (String.length text)
            = Z.min (budget opts)
                    (Z.of_nat (String.length (default "" (resp_body first))))) /\
       payment_attempted r = true /\
       payment_required r = true /\
       acquire r = None /\
       fetch_error r = Some (error_text e)).
Proof.
  intros Hf Hs Hx.
  change (JsError + reply_type (fetch_request envFetchTimeout opts u))%type
    with (JsError + Response)%type in Hf.
  destruct (licensedFetchText_cases env envFetchTimeout u opts w)
    as [(e' & He' & _)|(first' & Hf' & Hcases)];
    change (JsError + reply_type (fetch_request envFetchTimeout opts u))%type
      with (JsError + Response)%type in *; [congruence|].
  assert (first' = first) as -> by congruence.
  destruct Hcases as [(? & _)|[(_ & ? & _)|[(_ & _ & Hk & Hrun)
                     |(_ & _ & Hk & Hrun)]]]; try congruence.
  - split; [|intros; congruence].
    intros _. eexists _, _. split; [exact Hrun|].
    do 3 (split; [done|]).
    intros Hb. eexists. split; [reflexivity|]. by apply slice0_length.
  - split; [intros; congruence|].
    intros e _ He. cbv zeta in Hrun.
    change (JsError + reply_type (acquire_request u opts first))%type
      with (JsError + LedgerAcquireResponse)%type in *.
    destruct Hrun as [(e2 & He2 & ->)|(acq & Hacq & _)]; [|congruence].
    assert (e2 = e) as -> by congruence.
    eexists _, _. split; [done|].
    split; [cbn; by rewrite <- app_assoc|]. cbn. rewrite Hs.
    do 3 (split; [done|]). split; [|by repeat split].
    intros Hb. eexists. split; [reflexivity|]. by apply slice0_length.
Qed.

Lemma licensedFetchText_acquisition_fails_witness :
  (exists (r : LicensedFetchResult) (w' : World),
     run refusing_ledger
         (licensedFetchText 12000 "https://example.com/a" keyless_options)
         (fresh_world keyless_config) = (inr r, w') /\
     net w' = [fetch_request 12000 keyless_options "https://example.com/a"] /\
     r = unpaid_result "https://example.com/a" keyless_options paywall
                       missing_key_error /\
     fetch_error r = Some (message missing_key_error)) /\
  (exists (r : LicensedFetchResult) (w' : World),
     run refusing_ledger
         (licensedFetchText 12000 "https://example.com/a" default_options)
         (fresh_world tracked_config) = (inr r, w') /\
     net w' = [fetch_request 12000 default_options "https://example.com/a";
               acquire_request "https://example.com/a" default_options paywall] /\
     status r = 402 /\
     content_text r = Some "Payment required" /\
     payment_attempted r = true /\
     acquire r = None /\
     fetch_error r = Some "Request failed with status code 402") /\
  (exists (r : LicensedFetchResult) (w' : World),
     run refusing_ledger
         (licensedFetchText 12000 "https://example.com/a" five_chars)
         (fresh_world tracked_config) = (inr r, w') /\
     status r = 402 /\
     content_text r = Some "Payme" /\
     (exists text : string,
        content_text r = Some text /\ Z.of_nat (String.length text) = 5) /\
     acquire r = None).
Proof.
  split; [|split].
  - destruct (proj1 (licensedFetchText_acquisition_fails refusing_ledger 12000
                       "https://example.com/a" keyless_options
                       (fresh_world keyless_config) paywall
                       eq_refl eq_refl eq_refl) eq_refl)
      as (r & w' & Hrun & Hnet & Hr & Herr & _).
    exists r, w'. by repeat split.
  - destruct (proj2 (licensedFetchText_acquisition_fails refusing_ledger 12000
                       "https://example.com/a" default_options
                       (fresh_world tracked_config) paywall
                       eq_refl eq_refl eq_refl)
                    payment_declined eq_refl eq_refl)
      as (r & w' & Hrun & Hnet & _ & Hst & Htext & _ & Hpa & _ & Hacq & Herr).
    exists r, w'. by repeat split.
  - destruct (proj2 (licensedFetchText_acquisition_fails refusing_ledger 12000
                       "https://example.com/a" five_chars
                       (fresh_world tracked_config) paywall
                       eq_refl eq_refl eq_refl)
                    payment_declined eq_refl eq_refl)
      as (r & w' & Hrun & _ & _ & Hst & Htext & Hlen & _ & _ & Hacq & _).
    exists r, w'. split; [assumption|]. split; [assumption|].
    split; [assumption|]. split; [apply Hlen; cbn; lia|assumption].
Defined.

(** ** Recognising the challenge *)

Lemma prefix_spec (p s : string) :
  String.prefix p s = true <-> exists post : string, s = p ++ post.
Proof.
  revert p. induction s as [|b s IH]; intros [|a p]; simpl.
  - split; [intros _; by exists ""|done].
  - split; [done|]. intros [post Hpost]. discriminate.
  - split; [intros _; by exists (String b s)|done].
  - destruct (ascii_dec a b) as [->|Hne].
    + rewrite IH. split; intros [post Hpost]; exists post.
      * rewrite Hpost. reflexivity.
      * by injection Hpost.
    + split; [done|]. intros [post Hpost].
      injection Hpost as ? ?. congruence.
Qed.

Lemma includes_spec (s needle : string) :
  includes s needle = true <->
  exists pre post : string, s = pre ++ needle ++ post.
Proof.
  induction s as [|c s IH]; cbn [includes].
  - rewrite orb_false_r, prefix_spec. split.
    + intros [post Hpost]. by exists "", post.
    + intros (pre & post & Hs). destruct pre; [|discriminate].
      by exists post.
  - rewrite orb_true_iff, prefix_spec, IH. split.
    + intros [[post Hpost]|(pre & post & Hs)].
      * by exists "", post.
      * exists (String c pre), post. rewrite Hs. reflexivity.
    + intros (pre & post & Hs). destruct pre as [|c' pre].
      * left. by exists post.
      * right. injection Hs as -> Hs. by exists pre, post.
Qed.

Lemma toLowerCase_app (a b : string) :
  toLowerCase (a ++ b) = toLowerCase a ++ toLowerCase b.
Proof.
  induction a as [|c a IH]; [done|].
  change (String (lower_ascii c) (toLowerCase (a ++ b)) =
          String (lower_ascii c) (toLowerCase a ++ toLowerCase b)).
  by rewrite IH.
Qed.

Lemma toLowerCase_split (v a b : string) :
  toLowerCase v = a ++ b ->
  exists a' b' : string,
    v = a' ++ b' /\ toLowerCase a' = a /\ toLowerCase b' = b.
Proof.
  revert v. induction a as [|c a IH]; intros v Hv.
  - by exists "", v.
  - destruct v as [|d v]; [discriminate|].
    injection Hv as Hc Hv. destruct (IH v Hv) as (a' & b' & -> & <- & <-).
    exists (String d a'), b'. split; [reflexivity|]. split; [|reflexivity].
    change (String (lower_ascii d) (toLowerCase a') =
            String c (toLowerCase a')). by rewrite Hc.
Qed.

Lemma mentions_x402_spec (value : option string) :
  includes (toLowerCase (default "" value)) "x402" = true <->
  mentions_x402 value.
Proof.
  rewrite includes_spec. unfold mentions_x402. split.
  - intros (pre & post & Hv). destruct value as [v|]; cbn in Hv.
    + apply toLowerCase_split in Hv as (pre' & rest & -> & _ & Hrest).
      apply toLowerCase_split in Hrest as (mark & post' & -> & Hmark & _).
      by exists pre', mark, post'.
    + destruct pre; discriminate.
  - intros (pre & mark & post & -> & Hmark). cbn.
    exists (toLowerCase pre), (toLowerCase post).
    by rewrite !toLowerCase_app, Hmark.
Qed.

(** X8. A 402 is recognised as an x402 challenge exactly when the value of
    its [payment-required] header or of its [x-payment-protocol] header
    contains the letters x402, the x in either case.  The vendor headers
    that carry the price, the payee or the stage do not count: without one
    of the two headers the response is not recognised. *)
Theorem isX402_recognition (first : Response) :
  (isX402 first = true <->
   mentions_x402 (headers_get (resp_headers first) "payment-required") \/
   mentions_x402 (headers_get (resp_headers first) "x-payment-protocol")) /\
  (headers_get (resp_headers first) "payment-required" = None ->
   headers_get (resp_headers first) "x-payment-protocol" = None ->
   isX402 first = false).
Proof.
  unfold isX402. cbv zeta. split.
  - by rewrite orb_true_iff, !mentions_x402_spec.
  - by intros -> ->.
Qed.

Example upper_case_challenge_is_recognised :
  isX402 {| resp_url := ""; resp_status := 402;
            resp_headers := [("x-payment-protocol", "X402/1.0")];
            resp_body := None |} = true /\
  isX402 {| resp_url := ""; resp_status := 402;
            resp_headers := [("x402-price", "0.002"); ("x402-payto", "acct")];
            resp_body := None |} = false.
Proof. split; reflexivity. Qed.

(** ** Stage and distribution of the challenge *)

Lemma parseStage_other (s : string) (fallback : LicenseStage) :
  s <> "infer" -> s <> "embed" -> s <> "tune" -> s <> "train" ->
  parseStage (Some s) fallback = fallback.
Proof.
  intros H1 H2 H3 H4. unfold parseStage.
  repeat (destruct s as [|[[] [] [] [] [] [] [] []] s]; try reflexivity);
    congruence.
Qed.

Lemma parseDistribution_other (s : string) (fallback : Distribution) :
  s <> "private" -> s <> "public" ->
  parseDistribution (Some s) fallback = fallback.
Proof.
  intros H1 H2. unfold parseDistribution.
  repeat (destruct s as [|[[] [] [] [] [] [] [] []] s]; try reflexivity);
    congruence.
Qed.

(** X9. The stage and the distribution used for the acquisition: a header
    that names a stage (infer, embed, tune, train) or a distribution
    (private, public), exactly so spelled, overrides what the caller asked
    for; an absent header and any other value, ['default'] and other
    spellings included, leave the caller's choice. *)
Theorem challenge_overrides_caller
    (value : option string) (stage : LicenseStage) (dist : Distribution) :
  (forall s : LicenseStage, parseStage (Some (stage_name s)) stage = s) /\
  (forall d : Distribution,
     parseDistribution (Some (distribution_name d)) dist = d) /\
  ((forall s : LicenseStage, value <> Some (stage_name s)) ->
   parseStage value stage = stage) /\
  ((forall d : Distribution, value <> Some (distribution_name d)) ->
   parseDistribution value dist = dist).
Proof.
  split; [by intros []|]. split; [by intros []|]. split.
  - intros Hno. destruct value as [s|]; [|done].
    apply parseStage_other; intros ->.
    + by apply (Hno infer). + by apply (Hno embed).
    + by apply (Hno tune). + by apply (Hno train).
  - intros Hno. destruct value as [s|]; [|done].
    apply parseDistribution_other; intros ->.
    + by apply (Hno private). + by apply (Hno public).
Qed.

Example stage_header_edge_cases :
  parseStage (Some "train") infer = train /\
  parseStage (Some "default") embed = embed /\
  parseStage (Some "Train") infer = infer /\
  parseStage None tune = tune /\
  parseDistribution (Some "public") private = public /\
  parseDistribution (Some "") private = private.
Proof. repeat split. Qed.

(** ** What each call does to the world *)

Lemma run_logUsage (env : Env) (cfg : LicenseServiceConfig) (u : string)
    (tokens : Z) (lic : LicenseInfo) (stage : option LicenseStage)
    (dist : option Distribution) (w : World) :
  run env (logUsage cfg u tokens lic stage dist) w =
  if negb (enableTracking cfg) || negb (truthy (apiKey cfg)) || (tokens =? 0)
  then (inr false, w)
  else
    let q := usage_request cfg u tokens lic stage dist (clock env (ticks w)) in
    match respond env (length (net w)) q with
    | inr _ =>
        (inr true,
         store (with_summary (add_total_tokens tokens) (service w))
               (send q (tick w)))
    | inl _ =>
        (inr false,
         store (with_summary inc_errors (service w)) (send q (tick w)))
    end.
Proof.
  unfold logUsage.
  destruct (negb (enableTracking cfg) || negb (truthy (apiKey cfg)));
    [done|].
  destruct (tokens =? 0); [done|].
  cbn. unfold usage_request.
  by destruct (respond env (length (net w)) _) as [e|[]].
Qed.

Lemma run_acquireLicenseToken (env : Env) (cfg : LicenseServiceConfig)
    (params : AcquireParams) (w : World) :
  run env (acquireLicenseToken cfg params) w =
  if truthy (apiKey cfg) then
    let q :=
      PostAcquire
        {| b_url := p_url params;
           b_estimated_tokens := p_estimatedTokens params;
           b_stage := p_stage params;
           b_distribution := p_distribution params;
           b_payment_method := p_paymentMethod params;
           b_payment_proof := p_paymentProof params;
           b_payment_amount := p_paymentAmount params |}
        (licenseAcquireTimeout cfg) (apiKey cfg) in
    (respond env (length (net w)) q, send q w)
  else (inl missing_key_error, w).
Proof.
  unfold acquireLicenseToken. destruct (truthy (apiKey cfg)); [|done].
  cbn. by destruct (respond env (length (net w)) _).
Qed.

Section Calls.

Variable env : Env.
Variable cfg : LicenseServiceConfig.

Lemma run_checkLicense_cases (u : string) (w : World) :
  (enableTracking cfg = false /\
   run env (checkLicense cfg u) w = (inr (no_license u), w)) \/
  (enableTracking cfg = true /\ enableCache cfg = true /\
   exists c : CacheEntry,
     licenseCache (service w) !! u = Some c /\
     run env (checkLicense cfg u) w = (inr (license c), tick w)) \/
  (enableTracking cfg = true /\
   live_entry cfg (service w) (clock env (ticks w)) u = None /\
   run env (checkLicense cfg u) w
     = completed env cfg u
         (respond env (length (net w)) (lookup_request cfg u))
         (send (lookup_request cfg u) (probed cfg u w))).
Proof.
  destruct (enableTracking cfg) eqn:Ht.
  2:{ left. split; [done|]. by apply run_checkLicense_off. }
  destruct (live_entry cfg (service w) (clock env (ticks w)) u) as [l|] eqn:Hl.
  - right; left. split; [done|].
    pose proof (run_checkLicense_hit env cfg u w l Ht Hl) as Hrun.
    unfold live_entry in Hl. destruct (enableCache cfg); [|done].
    split; [done|].
    destruct (licenseCache (service w) !! u) as [c|]; [|done].
    destruct (expires c >? clock env (ticks w)); [|done].
    injection Hl as <-. by exists c.
  - right; right. split; [done|]. split; [done|].
    by apply run_checkLicense_miss.
Qed.

(** The service after the part of a check that follows its [await]. *)
Lemma completed_service (u : string) (reply : JsError + LookupData)
    (w : World) :
  service (snd (completed env cfg u reply w)) = service w \/
  service (snd (completed env cfg u reply w))
    = with_summary inc_errors (service w) \/
  (exists r : LedgerRecord,
     service (snd (completed env cfg u reply w))
       = with_summary (tally (license_of_record u r))
           (if enableCache cfg then
              cache_set u {| license := license_of_record u r;
                             expires := clock env (ticks w) + cacheTTL cfg * 1000 |}
                        (service w)
            else service w)).
Proof.
  destruct reply as [e|data]; cbn [completed snd].
  - right; left. done.
  - destruct (licenseArray data) as [|first rest]; [by left|].
    right; right. exists (chosen_record first (first :: rest)).
    unfold recorded. by destruct (enableCache cfg).
Qed.

(** A property of the service that the steps of the methods keep is kept
    by every call; [cleanup] is the one call that empties the cache. *)
Lemma perform_keeps (P : Service -> Prop) :
  (forall (u : string) (reply : JsError + LookupData) (w : World),
     P (service w) -> P (service (snd (completed env cfg u reply w)))) ->
  (forall (n : Z) (s : Service),
     enableTracking cfg = true -> truthy (apiKey cfg) = true -> n <> 0 ->
     P s -> P (with_summary (add_total_tokens n) s)) ->
  (forall s : Service,
     enableTracking cfg = true -> truthy (apiKey cfg) = true ->
     P s -> P (with_summary inc_errors s)) ->
  (forall s : Service,
     P s -> P {| licenseCache := licenseCache s;
                 sessionSummary := zero_summary cfg |}) ->
  forall (c : Call) (w : World),
    c <> Cleanup ->
    P (service w) -> P (service (perform env cfg c w)).
Proof.
  intros Hcompleted Htokens Herrors Hreset c w Hc Hw.
  destruct c as [u|urls|params|u tokens lic stage dist| | | |t u opts];
    cbn [perform].
  - destruct (run_checkLicense_cases u w)
      as [[_ ->]|[(_ & _ & c & _ & ->)|(_ & _ & ->)]]; [done|done|].
    apply Hcompleted. by world_simpl.
  - pose proof (checkLicenseBatch_outcomes env cfg urls w) as Hb.
    destruct (checkLicenseBatch env cfg urls w) as [m w'].
    destruct Hb as (_ & _ & Hpres & _). cbn [snd]. by apply Hpres.
  - rewrite run_acquireLicenseToken. by destruct (truthy (apiKey cfg)).
  - rewrite run_logUsage.
    destruct (enableTracking cfg) eqn:Ht; [|done].
    destruct (truthy (apiKey cfg)) eqn:Hkey; [|done].
    destruct (Z.eqb_spec tokens 0) as [|Hne]; [done|].
    cbn [negb orb]. cbv zeta.
    destruct (respond env _ _); cbn [snd service store]; auto.
  - done.
  - cbn. by apply Hreset.
  - done.
  - destruct (licensedFetchText_cases env t u (on_ledger cfg opts) w)
      as [(e & _ & ->)
         |(first & _ & [(_ & ->)|[(_ & _ & ->)|[(_ & _ & _ & ->)
            |(_ & _ & _ & [(e & _ & ->)|(acq & _ & ->)])]]])]; done.
Qed.

Lemma perform_service_invariant (P : Service -> Prop) :
  (forall (u : string) (reply : JsError + LookupData) (w : World),
     P (service w) -> P (service (snd (completed env cfg u reply w)))) ->
  (forall (n : Z) (s : Service),
     enableTracking cfg = true -> truthy (apiKey cfg) = true -> n <> 0 ->
     P s -> P (with_summary (add_total_tokens n) s)) ->
  (forall s : Service,
     enableTracking cfg = true -> truthy (apiKey cfg) = true ->
     P s -> P (with_summary inc_errors s)) ->
  (forall s : Service,
     P s -> P {| licenseCache := licenseCache s;
                 sessionSummary := zero_summary cfg |}) ->
  (forall s : Service,
     P s -> P {| licenseCache := ∅; sessionSummary := sessionSummary s |}) ->
  forall (c : Call) (w : World),
    P (service w) -> P (service (perform env cfg c w)).
Proof.
  intros Hcompleted Htokens Herrors Hreset Hcleanup c w Hw.
  assert (Hother : c <> Cleanup -> P (service (perform env cfg c w)))
    by (intros Hc; by apply perform_keeps).
  destruct c; try (by apply Hother). cbn. by apply Hcleanup.
Qed.

Lemma session_service_invariant (P : Service -> Prop) :
  (forall (c : Call) (w : World),
     P (service w) -> P (service (perform env cfg c w))) ->
  forall (calls : list Call) (w : World),
    P (service w) -> P (service (session env cfg calls w)).
Proof.
  intros Hstep calls. induction calls as [|c calls IH]; intros w Hw; [done|].
  cbn [session foldl]. apply IH. by apply Hstep.
Qed.

End Calls.

Lemma session_snoc (env : Env) (cfg : LicenseServiceConfig)
    (calls : list Call) (c : Call) (w : World) :
  session env cfg (calls ++ [c]) w
  = perform env cfg c (session env cfg calls w).
Proof. unfold session. by rewrite foldl_app. Qed.

(** ** The counters of a session *)

Lemma tally_consistent (cfg : LicenseServiceConfig) (lic : LicenseInfo)
    (m : LicenseTrackingSummary) :
  summary_consistent cfg m -> summary_consistent cfg (tally lic m).
Proof.
  unfold summary_consistent, tally. intros (H1 & H2 & H3 & H4 & H5 & H6).
  destruct (license_found lic); [destruct (action lic)|]; cbn;
    repeat split; try done; lia.
Qed.

(** X10. In every session on a new service, whatever is called and whatever
    the ledger answers, the summary adds up: [total_urls] is the sum of
    [licensed_content], [unlicensed_content] and [denied_content]; none of
    these counters nor [errors] is negative; and [tracking_enabled] is the
    configured flag. *)
Theorem session_summary_adds_up
    (env : Env) (cfg : LicenseServiceConfig) (calls : list Call) :
  summary_consistent cfg
    (sessionSummary (service (session env cfg calls (fresh_world cfg)))).
Proof.
  set (P := fun s : Service => summary_consistent cfg (sessionSummary s)).
  change (P (service (session env cfg calls (fresh_world cfg)))).
  apply session_service_invariant.
  - apply perform_service_invariant; unfold P.
    + intros u reply w Hw.
      destruct (completed_service env cfg u reply w) as [->|[->|[r ->]]];
        [done| |].
      * destruct Hw as (H1 & H2 & H3 & H4 & H5 & H6).
        unfold summary_consistent. cbn. repeat split; try done; lia.
      * cbn [with_summary sessionSummary]. apply tally_consistent.
        by destruct (enableCache cfg).
    + intros n s _ _ _ Hs. exact Hs.
    + intros s _ _ (H1 & H2 & H3 & H4 & H5 & H6).
      unfold summary_consistent. cbn. repeat split; try done; lia.
    + intros s _. cbn. by repeat split.
    + intros s Hs. exact Hs.
  - cbn. by repeat split.
Qed.

(** ** The requests of a session *)

Lemma sent_app (kind : Request -> bool) (a b : list Request) :
  sent kind (a ++ b) = sent kind a + sent kind b.
Proof. unfold sent. rewrite List.filter_app, length_app. lia. Qed.

Lemma sent_nonneg (kind : Request -> bool) (qs : list Request) :
  0 <= sent kind qs.
Proof. unfold sent. lia. Qed.

Lemma sent_all (kind : Request -> bool) (qs : list Request) :
  Forall (fun q => kind q = true) qs -> sent kind qs = Z.of_nat (length qs).
Proof.
  unfold sent. induction 1 as [|q qs Hq _ IH]; [done|].
  cbn [List.filter]. rewrite Hq. cbn [length]. lia.
Qed.

Lemma sent_none (kind : Request -> bool) (qs : list Request) :
  Forall (fun q => kind q = false) qs -> sent kind qs = 0.
Proof.
  unfold sent. induction 1 as [|q qs Hq _ IH]; [done|].
  cbn [List.filter]. by rewrite Hq.
Qed.

Lemma sent_zero (kind : Request -> bool) (qs : list Request) :
  sent kind qs = 0 -> Forall (fun q => kind q = false) qs.
Proof.
  unfold sent. induction qs as [|q qs IH]; [constructor|].
  cbn [List.filter]. destruct (kind q) eqn:Hq; cbn [length]; [lia|].
  intros H. constructor; [done|by apply IH].
Qed.

Section BatchCounts.

Variable env : Env.
Variable cfg : LicenseServiceConfig.

(** With tracking disabled a batch settles at once and touches nothing. *)
Lemma checkLicenseBatch_off (urls : list string) (w : World) :
  enableTracking cfg = false ->
  snd (checkLicenseBatch env cfg urls w) = w.
Proof.
  intros Hoff.
  assert (Hd : forall urls, exists ts,
    dispatch env cfg urls w = (ts, w) /\ parked ts = []).
  { intros l. induction l as [|u l (ts & Hts & Hp)]; [by exists []|].
    cbn [dispatch]. rewrite start_checkLicense_off, Hts by done.
    by eexists. }
  unfold checkLicenseBatch. destruct urls as [|u urls]; [done|].
  destruct (Hd (u :: urls)) as (ts & -> & ->). done.
Qed.

(** The requests of the dispatch are the lookups of the parked checks. *)
Lemma dispatch_parked (urls : list string) (w : World) :
  let '(ts, w1) := dispatch env cfg urls w in
  net w1 = (net w ++ map (lookup_request cfg) (parked ts).*1)%list.
Proof.
  revert w. induction urls as [|u urls IH]; intros w; cbn [dispatch].
  { cbn. by rewrite app_nil_r. }
  destruct (start_checkLicense_cases env cfg u w)
    as [[Hoff ->]|[(c & Hc & ->)|(rest & -> & Hrest)]].
  - specialize (IH w). by destruct (dispatch env cfg urls w) as [ts w2].
  - specialize (IH (tick w)).
    by destruct (dispatch env cfg urls (tick w)) as [ts w2].
  - specialize (IH (send (lookup_request cfg u) (probed cfg u w))).
    destruct (dispatch env cfg urls _) as [ts w2].
    rewrite IH. world_simpl. cbn [parked fmap list_fmap map fst].
    by rewrite <- app_assoc.
Qed.

Lemma completed_grows (u : string) (reply : JsError + LookupData)
    (w : World) :
  grows_within 1 (sessionSummary (service w))
    (sessionSummary (service (snd (completed env cfg u reply w)))).
Proof.
  destruct (completed_service env cfg u reply w) as [->|[->|[r ->]]];
    unfold grows_within.
  - lia.
  - cbn. lia.
  - cbn [with_summary sessionSummary].
    assert (Hsame : sessionSummary
              (if enableCache cfg
               then cache_set u
                      {| license := license_of_record u r;
                         expires := clock env (ticks w) + cacheTTL cfg * 1000 |}
                      (service w)
               else service w) = sessionSummary (service w))
      by (by destruct (enableCache cfg)).
    rewrite Hsame. unfold tally.
    destruct (license_found _); [destruct (action _)|]; cbn; lia.
Qed.

Lemma settle_grows (requests : list Request) (base : nat)
    (arrived : list (string * Prog LicenseInfo))
    (results : gmap string LicenseInfo) (w1 : World) :
  Forall (parked_ok env cfg requests base) arrived ->
  grows_within (Z.of_nat (length arrived)) (sessionSummary (service w1))
    (sessionSummary (service (snd (settle env arrived results w1)))).
Proof.
  revert results w1.
  induction arrived as [|[u rest] arrived IH]; intros results w1 Harr.
  { unfold grows_within. cbn. lia. }
  apply Forall_cons in Harr as [(n & _ & _ & Hrun) Harr].
  cbn [settle fst snd] in *. rewrite Hrun.
  pose proof (completed_grows u (respond env n (lookup_request cfg u)) w1)
    as Hstep.
  destruct (completed env cfg u (respond env n (lookup_request cfg u)) w1)
    as [r w2]. cbn [snd] in Hstep.
  specialize (IH (record_outcome u r results) w2 Harr).
  unfold grows_within in *. cbn [length]. lia.
Qed.

(** A batch sends lookups only, and counts no more URLs and errors than it
    sent lookups. *)
Lemma checkLicenseBatch_grows (urls : list string) (w : World) :
  exists qs : list Request,
    net (snd (checkLicenseBatch env cfg urls w)) = (net w ++ qs)%list /\
    Forall (fun q => is_lookup q = true) qs /\
    grows_within (Z.of_nat (length qs)) (sessionSummary (service w))
      (sessionSummary (service (snd (checkLicenseBatch env cfg urls w)))).
Proof.
  unfold checkLicenseBatch. destruct urls as [|u0 urls].
  { exists []. cbn. rewrite app_nil_r. split; [done|]. split; [done|].
    unfold grows_within. lia. }
  pose proof (dispatch_spec env cfg (u0 :: urls) w) as Hd.
  pose proof (dispatch_parked (u0 :: urls) w) as Hp.
  destruct (dispatch env cfg (u0 :: urls) w) as [ts w1].
  destruct Hd as (Hsvc & _ & _ & Hts).
  pose proof (parked_forall env cfg w (net w1) ts Hts) as Hparked.
  rewrite <- (arrival_order_perm env (parked ts)) in Hparked.
  pose proof (settle_spec env cfg (net w1) (length (net w))
                (arrival_order env (parked ts)) (settled_now ts ∅) w1 Hparked)
    as Hs.
  pose proof (settle_grows (net w1) (length (net w))
                (arrival_order env (parked ts)) (settled_now ts ∅) w1 Hparked)
    as Hg.
  destruct (settle env _ _ w1) as [m w'].
  destruct Hs as (_ & Hnet & _). cbn [snd] in *.
  exists (map (lookup_request cfg) (parked ts).*1).
  split; [congruence|]. split.
  - apply Forall_forall. intros q Hq.
    apply list_elem_of_fmap in Hq as (u & -> & _). done.
  - rewrite length_map, length_fmap, <- (arrival_order_length env (parked ts)).
    by rewrite <- Hsvc.
Qed.

End BatchCounts.

Section SessionRequests.

Variable env : Env.
Variable cfg : LicenseServiceConfig.

(** What one call sends and counts. *)
Lemma perform_requests (c : Call) (w : World) :
  exists qs : list Request,
    net (perform env cfg c w) = (net w ++ qs)%list /\
    Forall (permitted cfg) qs /\
    sent is_lookup qs <= checks_of c /\
    (enableTracking cfg = true -> enableCache cfg = false ->
     sent is_lookup qs = checks_of c) /\
    (sessionSummary (service (perform env cfg c w)) = zero_summary cfg \/
     (grows_within (sent is_lookup qs + sent is_usage_log qs)
        (sessionSummary (service w))
        (sessionSummary (service (perform env cfg c w))) /\
      total_urls (sessionSummary (service (perform env cfg c w)))
        - total_urls (sessionSummary (service w)) <= sent is_lookup qs)).
Proof.
  assert (Hidle : forall w' : World,
    net w' = net w -> sessionSummary (service w') = sessionSummary (service w) ->
    checks_of c = 0 \/
    (checks_of c = 1 /\ (enableTracking cfg = false \/ enableCache cfg = true)) ->
    exists qs : list Request,
      net w' = (net w ++ qs)%list /\
      Forall (permitted cfg) qs /\
      sent is_lookup qs <= checks_of c /\
      (enableTracking cfg = true -> enableCache cfg = false ->
       sent is_lookup qs = checks_of c) /\
      (sessionSummary (service w') = zero_summary cfg \/
       (grows_within (sent is_lookup qs + sent is_usage_log qs)
          (sessionSummary (service w)) (sessionSummary (service w')) /\
        total_urls (sessionSummary (service w'))
          - total_urls (sessionSummary (service w)) <= sent is_lookup qs))).
  { intros w' Hnet Hsum Hc. exists []. rewrite app_nil_r, Hsum.
    assert (0 <= checks_of c) by (destruct Hc as [->|[-> _]]; lia).
    split; [done|]. split; [done|]. unfold grows_within, sent. cbn.
    split; [lia|]. split; [|right; lia].
    intros Ht Hcache. destruct Hc as [->|[_ [?|?]]]; [done|congruence..]. }
  destruct c as [u|urls|params|u tokens lic stage dist| | | |t u opts];
    cbn [perform].
  - (* checkLicense *)
    destruct (run_checkLicense_cases env cfg u w)
      as [[Hoff ->]|[(_ & Hcache & c & _ & ->)|(Ht & _ & ->)]].
    + apply Hidle; [done|done|]. right. split; [done|by left].
    + apply Hidle; [done|done|]. right. split; [done|by right].
    + exists [lookup_request cfg u].
      pose proof (completed_net env cfg u
                    (respond env (length (net w)) (lookup_request cfg u))
                    (send (lookup_request cfg u) (probed cfg u w))) as Hnet.
      pose proof (completed_grows env cfg u
                    (respond env (length (net w)) (lookup_request cfg u))
                    (send (lookup_request cfg u) (probed cfg u w))) as Hg.
      revert Hnet Hg. world_simpl. intros Hnet Hg.
      split; [done|]. split; [by repeat constructor|].
      split; [done|]. split; [done|]. right.
      unfold grows_within, sent, lookup_request in *. cbn. lia.
  - (* checkLicenseBatch *)
    destruct (enableTracking cfg) eqn:Ht.
    2:{ rewrite checkLicenseBatch_off by done.
        exists []. rewrite app_nil_r. split; [done|]. split; [done|].
        unfold sent. cbn. split; [lia|]. split; [done|]. right.
        unfold grows_within. lia. }
    destruct (checkLicenseBatch_grows env cfg urls w) as (qs & Hnet & Hall & Hg).
    pose proof (checkLicenseBatch_outcomes env cfg urls w) as Hb.
    pose proof (checkLicenseBatch_requests env cfg urls w Ht) as Hexact.
    destruct (checkLicenseBatch env cfg urls w) as [m w']. cbn [snd] in *.
    destruct Hb as (_ & (qs' & Hnet' & Hlen & Hqs) & _).
    assert (qs' = qs) as -> by (apply (app_inv_head (net w)); congruence).
    exists qs. split; [done|]. split.
    { eapply Forall_impl; [exact Hqs|]. by intros q (u & _ & ->). }
    rewrite (sent_all is_lookup qs Hall).
    split; [cbn; lia|]. split.
    { intros _ Hcache. cbn [checks_of].
      assert (qs = map (lookup_request cfg) urls) as ->.
      { apply (app_inv_head (net w)). rewrite <- Hnet. apply Hexact.
        intros u _. by left. }
      by rewrite length_map. }
    right. pose proof (sent_nonneg is_usage_log qs).
    unfold grows_within in *. lia.
  - (* acquireLicenseToken *)
    rewrite run_acquireLicenseToken.
    destruct (truthy (apiKey cfg)) eqn:Hkey; [|apply Hidle; auto].
    eexists [_]. cbn [snd]. split; [done|].
    split; [by repeat constructor|].
    unfold grows_within, sent. cbn. repeat split; try done; right; lia.
  - (* logUsage *)
    rewrite run_logUsage.
    destruct (enableTracking cfg) eqn:Ht; [|apply Hidle; auto].
    destruct (truthy (apiKey cfg)) eqn:Hkey; [|apply Hidle; auto].
    destruct (Z.eqb_spec tokens 0) as [|Hne]; [apply Hidle; auto|].
    cbn [negb orb]. cbv zeta.
    exists [usage_request cfg u tokens lic stage dist (clock env (ticks w))].
    unfold grows_within, sent, usage_request.
    destruct (respond env _ _); cbn;
      (split; [done|]); (split; [by repeat constructor|]);
      repeat split; try done; right; lia.
  - apply Hidle; auto.
  - exists []. rewrite app_nil_r. split; [done|]. split; [done|].
    unfold sent. cbn. repeat split; try done. by left.
  - apply Hidle; auto.
  - (* licensedFetchText *)
    assert (Hquiet : forall (w' : World) (qs : list Request),
      net w' = (net w ++ qs)%list -> service w' = service w ->
      Forall (permitted cfg) qs -> sent is_lookup qs = 0 ->
      exists qs : list Request,
        net w' = (net w ++ qs)%list /\
        Forall (permitted cfg) qs /\
        sent is_lookup qs <= 0 /\
        (enableTracking cfg = true -> enableCache cfg = false ->
         sent is_lookup qs = 0) /\
        (sessionSummary (service w') = zero_summary cfg \/
         (grows_within (sent is_lookup qs + sent is_usage_log qs)
            (sessionSummary (service w)) (sessionSummary (service w')) /\
          total_urls (sessionSummary (service w'))
            - total_urls (sessionSummary (service w)) <= sent is_lookup qs))).
    { intros w' qs Hnet -> Hperm Hzero. exists qs. rewrite Hzero.
      pose proof (sent_nonneg is_usage_log qs).
      split; [done|]. split; [done|]. split; [done|]. split; [done|].
      right. unfold grows_within. lia. }
    cbn [checks_of].
    destruct (licensedFetchText_cases env t u (on_ledger cfg opts) w)
      as [(e & _ & ->)
         |(first & _ & [(_ & ->)|[(_ & _ & ->)|[(_ & _ & _ & ->)
            |(_ & _ & Hkey & [(e & _ & ->)|(acq & _ & ->)])]]])];
      cbn [snd]; try pose proof I as Hkey.
    all: eapply Hquiet;
      [cbn [net send]; rewrite <- ?app_assoc; reflexivity
      |reflexivity
      |repeat constructor; exact Hkey || exact I
      |reflexivity].
Qed.

(** What a session sends and counts. *)
Lemma session_requests (calls : list Call) (w : World) :
  exists qs : list Request,
    net (session env cfg calls w) = (net w ++ qs)%list /\
    Forall (permitted cfg) qs /\
    sent is_lookup qs <= checks calls /\
    (enableTracking cfg = true -> enableCache cfg = false ->
     sent is_lookup qs = checks calls).
Proof.
  revert w. induction calls as [|c calls IH]; intros w.
  { exists []. by rewrite app_nil_r. }
  cbn [session foldl checks foldr].
  destruct (perform_requests c w) as (qs1 & Hnet1 & Hp1 & Hle1 & Heq1 & _).
  destruct (IH (perform env cfg c w)) as (qs2 & Hnet2 & Hp2 & Hle2 & Heq2).
  exists (qs1 ++ qs2)%list. unfold session in Hnet2.
  split; [by rewrite Hnet2, Hnet1, <- app_assoc|].
  split; [by apply Forall_app|]. rewrite sent_app. unfold checks in *.
  split; [lia|]. intros Ht Hc. rewrite Heq1, Heq2 by done. done.
Qed.

End SessionRequests.

(** X11. Whatever is called in a session and whatever is answered, every
    request that leaves is permitted by the configuration: a lookup only
    with tracking enabled; an acquisition only with a ledger key; a usage
    log only with tracking enabled, a ledger key and a number of tokens
    other than zero; each with its configured timeout and the configured
    key.  Lookups do not need a key. *)
Theorem session_sends_what_is_configured
    (env : Env) (cfg : LicenseServiceConfig) (calls : list Call) :
  Forall (permitted cfg) (net (session env cfg calls (fresh_world cfg))).
Proof.
  destruct (session_requests env cfg calls (fresh_world cfg))
    as (qs & -> & Hqs & _). done.
Qed.

Lemma permitted_kinds (cfg : LicenseServiceConfig) (qs : list Request) :
  Forall (permitted cfg) qs ->
  (enableTracking cfg = false ->
   sent is_lookup qs = 0 /\ sent is_usage_log qs = 0) /\
  (truthy (apiKey cfg) = false ->
   sent is_acquire qs = 0 /\ sent is_usage_log qs = 0).
Proof.
  intros Hqs. split; intros Hoff; split; apply sent_none;
    (eapply Forall_impl; [exact Hqs|]);
    intros [u t k|b t k|e t k|u a t]; cbn; try done;
    intros [? ?]; try congruence; intuition congruence.
Qed.

(** X12. With tracking disabled the service never changes, whatever is
    called: nothing is cached and nothing is counted, and neither a lookup
    nor a usage log is ever sent.  Acquisitions and fetches do not depend
    on the flag. *)
Theorem session_without_tracking
    (env : Env) (cfg : LicenseServiceConfig) (calls : list Call) :
  enableTracking cfg = false ->
  service (session env cfg calls (fresh_world cfg)) = new_Service cfg /\
  sent is_lookup (net (session env cfg calls (fresh_world cfg))) = 0 /\
  sent is_usage_log (net (session env cfg calls (fresh_world cfg))) = 0.
Proof.
  intros Hoff. split.
  - set (P := fun s : Service => s = new_Service cfg).
    change (P (service (session env cfg calls (fresh_world cfg)))).
    apply session_service_invariant; [|done].
    intros c w Hw. unfold P in *.
    destruct c as [u|urls|params|u tokens lic stage dist| | | |t u opts];
      cbn [perform].
    + by rewrite run_checkLicense_off.
    + by rewrite checkLicenseBatch_off.
    + rewrite run_acquireLicenseToken. by destruct (truthy (apiKey cfg)).
    + rewrite run_logUsage, Hoff. done.
    + done.
    + cbn. by rewrite Hw.
    + cbn. by rewrite Hw.
    + destruct (licensedFetchText_cases env t u (on_ledger cfg opts) w)
        as [(e & _ & ->)
           |(first & _ & [(_ & ->)|[(_ & _ & ->)|[(_ & _ & _ & ->)
              |(_ & _ & _ & [(e & _ & ->)|(acq & _ & ->)])]]])]; done.
  - destruct (session_requests env cfg calls (fresh_world cfg))
      as (qs & -> & Hqs & _).
    exact (proj1 (permitted_kinds cfg qs Hqs) Hoff).
Qed.

Lemma session_without_tracking_witness :
  service (session patchy_ledger untracked_config busy_session
                   (fresh_world untracked_config))
    = new_Service untracked_config /\
  sent is_lookup (net (session patchy_ledger untracked_config busy_session
                               (fresh_world untracked_config))) = 0 /\
  sent is_usage_log (net (session patchy_ledger untracked_config busy_session
                                  (fresh_world untracked_config))) = 0.
Proof.
  apply (session_without_tracking patchy_ledger untracked_config busy_session).
  reflexivity.
Defined.

(** X13. Without a ledger key no tokens are ever recorded: in every session
    [total_tokens] stays 0, and neither an acquisition nor a usage log is
    sent.  Lookups are still made and counted. *)
Theorem session_without_key
    (env : Env) (cfg : LicenseServiceConfig) (calls : list Call) :
  truthy (apiKey cfg) = false ->
  total_tokens (sessionSummary (service (session env cfg calls (fresh_world cfg))))
    = 0 /\
  sent is_acquire (net (session env cfg calls (fresh_world cfg))) = 0 /\
  sent is_usage_log (net (session env cfg calls (fresh_world cfg))) = 0.
Proof.
  intros Hkey. split.
  - set (P := fun s : Service => total_tokens (sessionSummary s) = 0).
    change (P (service (session env cfg calls (fresh_world cfg)))).
    apply session_service_invariant; [|done].
    apply perform_service_invariant; unfold P.
    + intros u reply w Hw.
      destruct (completed_service env cfg u reply w) as [->|[->|[r ->]]];
        [done|done|].
      cbn [with_summary sessionSummary].
      assert (Hsame : forall (lic : LicenseInfo) (m : LicenseTrackingSummary),
        total_tokens (tally lic m) = total_tokens m).
      { intros lic m. unfold tally.
        by destruct (license_found lic); [destruct (action lic)|]. }
      rewrite Hsame. by destruct (enableCache cfg).
    + intros; congruence.
    + intros; congruence.
    + done.
    + done.
  - destruct (session_requests env cfg calls (fresh_world cfg))
      as (qs & -> & Hqs & _).
    exact (proj2 (permitted_kinds cfg qs Hqs) Hkey).
Qed.

Lemma session_without_key_witness :
  total_tokens (sessionSummary (service
    (session patchy_ledger keyless_config busy_session
             (fresh_world keyless_config)))) = 0 /\
  sent is_acquire (net (session patchy_ledger keyless_config busy_session
                                (fresh_world keyless_config))) = 0 /\
  sent is_usage_log (net (session patchy_ledger keyless_config busy_session
                                  (fresh_world keyless_config))) = 0.
Proof.
  apply (session_without_key patchy_ledger keyless_config busy_session).
  reflexivity.
Defined.

(** X14. With the cache disabled nothing is ever stored, and with tracking
    enabled every check asks the ledger: in every session the cache stays
    empty and the number of lookups sent is the number of URLs checked, one
    for each single check and one for each element of each batch, repeated
    URLs included. *)
Theorem session_without_cache
    (env : Env) (cfg : LicenseServiceConfig) (calls : list Call) :
  enableCache cfg = false ->
  licenseCache (service (session env cfg calls (fresh_world cfg))) = ∅ /\
  (enableTracking cfg = true ->
   sent is_lookup (net (session env cfg calls (fresh_world cfg)))
     = checks calls).
Proof.
  intros Hcache. split.
  - set (P := fun s : Service => licenseCache s = ∅).
    change (P (service (session env cfg calls (fresh_world cfg)))).
    apply session_service_invariant; [|done].
    apply perform_service_invariant; unfold P; try done.
    intros u reply w Hw.
    destruct (completed_service env cfg u reply w) as [->|[->|[r ->]]];
      [done|done|].
    by rewrite Hcache.
  - intros Ht.
    destruct (session_requests env cfg calls (fresh_world cfg))
      as (qs & -> & _ & _ & Hexact).
    by apply Hexact.
Qed.

Lemma session_without_cache_witness :
  licenseCache (service (session patchy_ledger uncached_config busy_session
                                 (fresh_world uncached_config))) = ∅ /\
  (enableTracking uncached_config = true ->
   sent is_lookup (net (session patchy_ledger uncached_config busy_session
                                (fresh_world uncached_config)))
     = checks busy_session).
Proof.
  apply (session_without_cache patchy_ledger uncached_config busy_session).
  reflexivity.
Defined.

Example five_checks_five_lookups :
  checks busy_session = 5 /\
  sent is_lookup (net (session patchy_ledger uncached_config busy_session
                               (fresh_world uncached_config))) = 5 /\
  sent is_lookup (net (session patchy_ledger tracked_config busy_session
                               (fresh_world tracked_config))) = 3.
Proof. vm_compute. done. Qed.

(** X15. The summary never counts what was not asked of the ledger: in
    every session [total_urls] is at most the number of lookups sent, and
    [total_urls] and [errors] together are at most the number of lookups
    and usage logs sent.  A check answered from the cache is not counted,
    and neither is a lookup that returns no record. *)
Theorem session_counts_only_lookups
    (env : Env) (cfg : LicenseServiceConfig) (calls : list Call) :
  let w := session env cfg calls (fresh_world cfg) in
  let m := sessionSummary (service w) in
  0 <= total_urls m /\
  0 <= errors m /\
  total_urls m <= sent is_lookup (net w) /\
  total_urls m + errors m
    <= sent is_lookup (net w) + sent is_usage_log (net w).
Proof.
  cbv zeta.
  set (I := fun w : World =>
    0 <= total_urls (sessionSummary (service w)) /\
    0 <= errors (sessionSummary (service w)) /\
    total_urls (sessionSummary (service w)) <= sent is_lookup (net w) /\
    total_urls (sessionSummary (service w)) + errors (sessionSummary (service w))
      <= sent is_lookup (net w) + sent is_usage_log (net w)).
  change (I (session env cfg calls (fresh_world cfg))).
  assert (Hsession : forall (calls : list Call) (w : World),
    I w -> I (session env cfg calls w)).
  { clear calls. intros calls. induction calls as [|c calls IH]; [done|].
    intros w (H1 & H2 & H3 & H4). cbn [session foldl]. apply IH.
    destruct (perform_requests env cfg c w)
      as (qs & Hnet & _ & _ & _ & [Hzero|[(G1 & G2 & G3) G4]]);
      unfold I; rewrite Hnet, !sent_app;
      pose proof (sent_nonneg is_lookup qs);
      pose proof (sent_nonneg is_usage_log qs).
    - rewrite Hzero. cbn. lia.
    - lia. }
  apply Hsession. unfold I, sent. cbn. lia.
Qed.

Example cached_checks_are_not_counted :
  let w := session (ledger_with (DataArray [general_opt_in])) tracked_config
             [CheckLicense "https://example.com/a";
              CheckLicense "https://example.com/a";
              CheckLicenseBatch ["https://example.com/a"]]
             (fresh_world tracked_config) in
  total_urls (sessionSummary (service w)) = 1 /\
  sent is_lookup (net w) = 1.
Proof. vm_compute. done. Qed.

(** ** The licenses of a session *)

Lemma url_answer_of (u : string) (reply : JsError + LookupData) :
  url (answer_of u reply) = u.
Proof.
  destruct reply as [e|data]; cbn; [done|]. by destruct (licenseArray data).
Qed.

Lemma error_answer_of (u : string) (reply : JsError + LookupData) :
  is_Some (error (answer_of u reply)) -> exists e : JsError, reply = inl e.
Proof.
  destruct reply as [e|data]; cbn; [by eexists|].
  destruct (licenseArray data); cbn; by intros [? ?].
Qed.

Lemma session_cache_keyed (env : Env) (cfg : LicenseServiceConfig)
    (calls : list Call) :
  cache_keyed (service (session env cfg calls (fresh_world cfg))).
Proof.
  apply (session_service_invariant env cfg cache_keyed); [|by intros u c Hc].
  apply (perform_service_invariant env cfg cache_keyed); try done.
  - intros u reply w Hw.
    destruct (completed_service env cfg u reply w) as [->|[->|[r ->]]];
      [done|done|].
    destruct (enableCache cfg); [|done].
    intros u' c. cbn [with_summary cache_set licenseCache]. intros Hc.
    destruct (decide (u = u')) as [->|Hne].
    + rewrite lookup_insert_eq in Hc. by injection Hc as <-.
    + rewrite lookup_insert_ne in Hc by done. exact (Hw u' c Hc).
Qed.

(** X16. At any point of a session, the license returned for a URL names
    that URL, for a single check and for every entry of the map of a batch,
    also when it comes from the cache.  A license that reports an error
    comes from a lookup that this very call sent and that was rejected: the
    cache never serves an error. *)
Theorem session_answers_name_their_url
    (env : Env) (cfg : LicenseServiceConfig) (calls : list Call) :
  let w := session env cfg calls (fresh_world cfg) in
  (forall u : string,
     exists (lic : LicenseInfo) (w' : World),
       run env (checkLicense cfg u) w = (inr lic, w') /\
       url lic = u /\
       (is_Some (error lic) ->
        net w' = (net w ++ [lookup_request cfg u])%list /\
        exists e : JsError,
          respond env (length (net w)) (lookup_request cfg u) = inl e)) /\
  (forall urls : list string,
     let '(m, w') := checkLicenseBatch env cfg urls w in
     forall (u : string) (l : LicenseInfo),
       m !! u = Some l ->
       url l = u /\
       (is_Some (error l) ->
        exists n : nat,
          (length (net w) <= n)%nat /\
          net w' !! n = Some (lookup_request cfg u) /\
          exists e : JsError,
            respond env n (lookup_request cfg u) = inl e)).
Proof.
  cbv zeta. pose proof (session_cache_keyed env cfg calls) as Hkeyed.
  generalize dependent (session env cfg calls (fresh_world cfg)).
  intros w Hkeyed. split.
  - intros u.
    destruct (run_checkLicense_cases env cfg u w)
      as [[_ ->]|[(_ & _ & c & Hc & ->)|(_ & _ & ->)]].
    + eexists _, _. split; [done|]. split; [done|]. by intros [? ?].
    + destruct (Hkeyed u c Hc) as [Hurl Herr].
      eexists _, _. split; [done|]. split; [done|].
      rewrite Herr. by intros [? ?].
    + match goal with
      | |- context [completed env cfg u ?reply ?wx] =>
          pose proof (completed_answer env cfg u reply wx) as Hans;
          pose proof (completed_net env cfg u reply wx) as Hnet;
          destruct (completed env cfg u reply wx) as [r w']
      end.
      cbn [fst snd] in Hans, Hnet. subst r. revert Hnet. world_simpl.
      intros Hnet.
      eexists _, _. split; [done|]. split; [apply url_answer_of|].
      intros Herr. split; [done|]. by apply error_answer_of in Herr.
  - intros urls.
    pose proof (checkLicenseBatch_outcomes env cfg urls w) as Hb.
    destruct (checkLicenseBatch env cfg urls w) as [m w'].
    destruct Hb as (_ & _ & _ & Hval).
    intros u l Hl.
    destruct (Hval u l Hl) as [[_ ->]|[(c & Hc & ->)|(n & Hn & Hsent & ->)]].
    + split; [done|]. by intros [? ?].
    + destruct (Hkeyed u c Hc) as [Hurl Herr].
      split; [done|]. rewrite Herr. by intros [? ?].
    + split; [apply url_answer_of|]. intros Herr.
      exists n. split; [done|]. split; [done|].
      by apply error_answer_of in Herr.
Qed.

(** ** The life of a cache entry *)

Section CacheEntries.

Variable env : Env.
Variable cfg : LicenseServiceConfig.

Lemma completed_cache_frame (u u' : string) (reply : JsError + LookupData)
    (w : World) :
  u <> u' ->
  licenseCache (service (snd (completed env cfg u reply w))) !! u'
  = licenseCache (service w) !! u'.
Proof.
  intros Hne.
  destruct (completed_service env cfg u reply w) as [->|[->|[r ->]]];
    [done|done|].
  destruct (enableCache cfg); [|done].
  cbn [with_summary cache_set licenseCache]. by rewrite lookup_insert_ne.
Qed.

Lemma completed_cache_grows (u u' : string) (reply : JsError + LookupData)
    (w : World) :
  is_Some (licenseCache (service w) !! u') ->
  is_Some (licenseCache (service (snd (completed env cfg u reply w))) !! u').
Proof.
  intros Hsome.
  destruct (completed_service env cfg u reply w) as [->|[->|[r ->]]];
    [done|done|].
  destruct (enableCache cfg); [|done].
  cbn [with_summary cache_set licenseCache].
  destruct (decide (u = u')) as [->|Hne].
  - rewrite lookup_insert_eq. by eexists.
  - by rewrite lookup_insert_ne.
Qed.

Lemma settle_frame (requests : list Request) (base : nat) (u' : string)
    (arrived : list (string * Prog LicenseInfo))
    (results : gmap string LicenseInfo) (w1 : World) :
  Forall (parked_ok env cfg requests base) arrived ->
  u' ∉ arrived.*1 ->
  licenseCache (service (snd (settle env arrived results w1))) !! u'
  = licenseCache (service w1) !! u'.
Proof.
  revert results w1.
  induction arrived as [|[u rest] arrived IH]; intros results w1 Harr Hnot;
    [done|].
  apply Forall_cons in Harr as [(n & _ & _ & Hrun) Harr].
  cbn [settle fst snd] in *. rewrite Hrun.
  pose proof (completed_cache_frame u u'
                (respond env n (lookup_request cfg u)) w1) as Hstep.
  destruct (completed env cfg u (respond env n (lookup_request cfg u)) w1)
    as [r w2]. cbn [snd] in Hstep.
  rewrite IH; [|done|set_solver]. apply Hstep. set_solver.
Qed.

Lemma parked_urls (ts : list (string * Task LicenseInfo)) (u : string) :
  u ∈ (parked ts).*1 -> u ∈ ts.*1.
Proof.
  induction ts as [|[u0 [r|rest]] ts IH]; cbn [parked]; [done| |];
    rewrite ?fmap_cons; cbn [fst]; set_solver.
Qed.

Lemma checkLicenseBatch_frame (urls : list string) (u' : string) (w : World) :
  u' ∉ urls ->
  licenseCache (service (snd (checkLicenseBatch env cfg urls w))) !! u'
  = licenseCache (service w) !! u'.
Proof.
  intros Hnot. unfold checkLicenseBatch. destruct urls as [|u0 urls]; [done|].
  pose proof (dispatch_spec env cfg (u0 :: urls) w) as Hd.
  destruct (dispatch env cfg (u0 :: urls) w) as [ts w1].
  destruct Hd as (Hsvc & Hurls & _ & Hts).
  pose proof (parked_forall env cfg w (net w1) ts Hts) as Hparked.
  rewrite <- (arrival_order_perm env (parked ts)) in Hparked.
  rewrite <- Hsvc.
  apply (settle_frame (net w1) (length (net w))); [done|].
  rewrite (arrival_order_perm env (parked ts)).
  intros Hin. apply parked_urls in Hin. by rewrite Hurls in Hin.
Qed.

End CacheEntries.

(** X17. A cache entry lives until [cleanup]: no other call removes it, not
    even when it has expired, so the cache only grows; and the entry of a
    URL is written only by a check of that very URL, alone or in a batch.
    Every other call, whatever its outcome, leaves the entry as it was. *)
Theorem cache_entries_persist
    (env : Env) (cfg : LicenseServiceConfig) (c : Call) (w : World)
    (u : string) :
  (c <> Cleanup ->
   is_Some (licenseCache (service w) !! u) ->
   is_Some (licenseCache (service (perform env cfg c w)) !! u)) /\
  (~ touches c u ->
   licenseCache (service (perform env cfg c w)) !! u
   = licenseCache (service w) !! u).
Proof.
  split.
  - intros Hc.
    apply (perform_keeps env cfg (fun s => is_Some (licenseCache s !! u)));
      try done.
    intros u' reply w'. apply completed_cache_grows.
  - intros Hno.
    destruct c as [u'|urls|params|u' tokens lic stage dist| | | |t u' opts];
      cbn [perform touches] in *.
    + destruct (run_checkLicense_cases env cfg u' w)
        as [[_ ->]|[(_ & _ & c & _ & ->)|(_ & _ & ->)]]; [done|done|].
      rewrite completed_cache_frame by done. by world_simpl.
    + by apply checkLicenseBatch_frame.
    + rewrite run_acquireLicenseToken. by destruct (truthy (apiKey cfg)).
    + rewrite run_logUsage.
      destruct (negb (enableTracking cfg) || negb (truthy (apiKey cfg))
                || (tokens =? 0)); [done|].
      cbv zeta. by destruct (respond env _ _).
    + done.
    + done.
    + done.
    + destruct (licensedFetchText_cases env t u' (on_ledger cfg opts) w)
        as [(e & _ & ->)
           |(first & _ & [(_ & ->)|[(_ & _ & ->)|[(_ & _ & _ & ->)
              |(_ & _ & _ & [(e & _ & ->)|(acq & _ & ->)])]]])]; done.
Qed.

Example expired_entry_stays_until_cleanup :
  let late : Env :=
    {| clock := fun n => 1000000 * Z.of_nat n;
       respond := respond unreachable;
       arrival := arrival unreachable |} in
  let w := session late tracked_config
             [CheckLicense "https://example.com/a";
              CheckLicense "https://example.com/b";
              ResetSession]
             after_first_check in
  is_Some (live_entry tracked_config (service after_first_check) 0
                      "https://example.com/a") /\
  live_entry tracked_config (service w) (clock late (ticks w))
             "https://example.com/a" = None /\
  licenseCache (service w) !! "https://example.com/a"
    = licenseCache (service after_first_check) !! "https://example.com/a" /\
  licenseCache (service (perform late tracked_config Cleanup w))
    !! "https://example.com/a" = None.
Proof. vm_compute. repeat split; eauto. Qed.

(** ** Resetting and cleaning up *)

(** X18. [resetSession] puts the counters back to zero but keeps the cache:
    a URL whose license is cached and not expired is, right after the
    reset, still answered from the cache, without a request, and is not
    counted in the new summary. *)
Theorem resetSession_keeps_the_cache
    (env : Env) (cfg : LicenseServiceConfig) (u : string) (l : LicenseInfo)
    (w : World) :
  enableTracking cfg = true ->
  live_entry cfg (service w) (clock env (ticks w)) u = Some l ->
  exists w' : World,
    run env (resetSession cfg ;;; checkLicense cfg u) w = (inr l, w') /\
    net w' = net w /\
    licenseCache (service w') = licenseCache (service w) /\
    sessionSummary (service w') = zero_summary cfg /\
    total_urls (sessionSummary (service w')) = 0.
Proof.
  intros Ht Hl. cbn [resetSession modify bind run].
  rewrite (run_checkLicense_hit env cfg u _ l Ht); [|exact Hl].
  eexists. by repeat split.
Qed.

Lemma resetSession_keeps_the_cache_witness :
  exists w' : World,
    run (ledger_with (DataArray [general_opt_in]))
        (resetSession tracked_config ;;;
         checkLicense tracked_config "https://example.com/a")
        after_first_check
      = (inr (license_of_record "https://example.com/a" general_opt_in), w') /\
    net w' = net after_first_check /\
    licenseCache (service w') = licenseCache (service after_first_check) /\
    sessionSummary (service w') = zero_summary tracked_config /\
    total_urls (sessionSummary (service w')) = 0.
Proof.
  apply (resetSession_keeps_the_cache
           (ledger_with (DataArray [general_opt_in])) tracked_config
           "https://example.com/a"
           (license_of_record "https://example.com/a" general_opt_in)
           after_first_check); reflexivity.
Defined.

(** X19. [cleanup] empties the cache and leaves the counters: right after
    it, with tracking enabled, a check of any URL asks the ledger again,
    with exactly one lookup, and returns what that lookup leads to,
    whatever was cached before. *)
Theorem cleanup_forgets_the_cache
    (env : Env) (cfg : LicenseServiceConfig) (u : string) (w : World) :
  enableTracking cfg = true ->
  (exists w0 : World,
     run env cleanup w = (inr tt, w0) /\
     licenseCache (service w0) = ∅ /\
     sessionSummary (service w0) = sessionSummary (service w) /\
     net w0 = net w) /\
  exists w' : World,
    run env (cleanup ;;; checkLicense cfg u) w
      = (inr (answer_of u (respond env (length (net w)) (lookup_request cfg u))),
         w') /\
    net w' = (net w ++ [lookup_request cfg u])%list.
Proof.
  intros Ht. split; [by eexists|].
  cbn [cleanup modify bind run].
  set (w0 := store _ w).
  assert (Hmiss : live_entry cfg (service w0) (clock env (ticks w0)) u = None).
  { apply uncached_live_entry. right. apply lookup_empty. }
  rewrite (run_checkLicense_miss env cfg u w0 Ht Hmiss).
  match goal with
  | |- context [completed env cfg u ?reply ?wx] =>
      pose proof (completed_answer env cfg u reply wx) as Hans;
      pose proof (completed_net env cfg u reply wx) as Hnet;
      destruct (completed env cfg u reply wx) as [r w']
  end.
  cbn [fst snd] in Hans, Hnet. subst r. revert Hnet. world_simpl.
  intros Hnet. by exists w'.
Qed.

Lemma cleanup_forgets_the_cache_witness :
  (exists w0 : World,
     run (ledger_with (DataArray [commercial_opt_out])) cleanup
         after_first_check = (inr tt, w0) /\
     licenseCache (service w0) = ∅ /\
     sessionSummary (service w0) = sessionSummary (service after_first_check) /\
     net w0 = net after_first_check) /\
  exists w' : World,
    run (ledger_with (DataArray [commercial_opt_out]))
        (cleanup ;;; checkLicense tracked_config "https://example.com/a")
        after_first_check
      = (inr (answer_of "https://example.com/a"
                (respond (ledger_with (DataArray [commercial_opt_out]))
                         (length (net after_first_check))
                         (lookup_request tracked_config "https://example.com/a"))),
         w') /\
    net w' = (net after_first_check
              ++ [lookup_request tracked_config "https://example.com/a"])%list.
Proof.
  apply (cleanup_forgets_the_cache
           (ledger_with (DataArray [commercial_opt_out])) tracked_config
           "https://example.com/a" after_first_check).
  reflexivity.
Defined.

(** ** The usage logged by the tool handlers *)

Lemma run_bind {A B : Type} (env : Env) (p : Prog A) (f : A -> Prog B)
    (w : World) :
  run env (bind p f) w =
  match run env p w with
  | (inr a, w1) => run env (f a) w1
  | (inl e, w1) => (inl e, w1)
  end.
Proof.
  revert w. induction p as [a|e|k IH|k IH|s k IH|q k IH]; intros w;
    cbn [bind run]; auto.
Qed.

Lemma js_truthy_acquired (id : Z) :
  js_truthy (JNum (inject_Z id)) = negb (id =? 0).
Proof. reflexivity. Qed.

(** X20. The license under which the handlers log usage: the one of the
    lookup when it carries a license version; otherwise, when the page was
    paid for, a license made from the acquisition, found and allowed, of
    type x402, with the acquired version and signature; otherwise what the
    lookup gave.  So the usage license carries a license version exactly
    when the lookup or the acquisition supplies one, and the lookup's
    version is used even for a page that was paid for. *)
Theorem buildUsageLicense_choice
    (u : string) (lic : option LicenseInfo)
    (fetched : option LicensedFetchResult) :
  (forall l : LicenseInfo,
     lic = Some l -> js_truthy (license_version_id l) = true ->
     buildUsageLicense u lic fetched = lic) /\
  (forall (f : LicensedFetchResult) (m : AcquireMeta),
     (forall l : LicenseInfo,
        lic = Some l -> js_truthy (license_version_id l) = false) ->
     fetched = Some f -> acquire f = Some m -> m_license_version_id m <> 0 ->
     buildUsageLicense u lic fetched = Some (acquired_license u m)) /\
  (~ supplies_id lic fetched -> buildUsageLicense u lic fetched = lic) /\
  ((exists l : LicenseInfo,
      buildUsageLicense u lic fetched = Some l /\
      js_truthy (license_version_id l) = true)
   <-> supplies_id lic fetched).
Proof.
  assert (Hlookup : forall l : LicenseInfo,
    lic = Some l -> js_truthy (license_version_id l) = true ->
    buildUsageLicense u lic fetched = lic).
  { intros l -> Ht. unfold buildUsageLicense. by rewrite Ht. }
  assert (Hacquired : forall (f : LicensedFetchResult) (m : AcquireMeta),
    (forall l : LicenseInfo,
       lic = Some l -> js_truthy (license_version_id l) = false) ->
    fetched = Some f -> acquire f = Some m -> m_license_version_id m <> 0 ->
    buildUsageLicense u lic fetched = Some (acquired_license u m)).
  { intros f m Hno -> Hm Hne. unfold buildUsageLicense. rewrite Hm.
    apply Z.eqb_neq in Hne. rewrite Hne.
    destruct lic as [l|]; [|done]. by rewrite (Hno l eq_refl). }
  assert (Hneither : ~ supplies_id lic fetched ->
                     buildUsageLicense u lic fetched = lic).
  { intros Hno. unfold buildUsageLicense.
    destruct (match lic with
              | Some l => js_truthy (license_version_id l)
              | None => false
              end); [done|].
    destruct fetched as [f|]; [|done].
    destruct (acquire f) as [m|] eqn:Hm; [|done].
    destruct (Z.eqb_spec (m_license_version_id m) 0) as [Hz|Hz]; [done|].
    exfalso. apply Hno. right. by exists f, m. }
  split; [exact Hlookup|]. split; [exact Hacquired|].
  split; [exact Hneither|]. split.
  - intros (l & Hl & Ht).
    destruct lic as [l0|] eqn:Hlic.
    + destruct (js_truthy (license_version_id l0)) eqn:Ht0.
      { left. by exists l0. }
      destruct fetched as [f|] eqn:Hf.
      2:{ unfold buildUsageLicense in Hl. rewrite Ht0 in Hl. congruence. }
      destruct (acquire f) as [m|] eqn:Hm.
      2:{ unfold buildUsageLicense in Hl. rewrite Ht0, Hm in Hl. congruence. }
      destruct (Z.eqb_spec (m_license_version_id m) 0) as [Hz|Hz].
      { unfold buildUsageLicense in Hl. rewrite Ht0, Hm, Hz in Hl.
        cbn in Hl. congruence. }
      right. by exists f, m.
    + destruct fetched as [f|] eqn:Hf; [|done].
      destruct (acquire f) as [m|] eqn:Hm.
      2:{ unfold buildUsageLicense in Hl. by rewrite Hm in Hl. }
      destruct (Z.eqb_spec (m_license_version_id m) 0) as [Hz|Hz].
      { unfold buildUsageLicense in Hl. rewrite Hm, Hz in Hl. done. }
      right. by exists f, m.
  - intros [(l & Hl & Ht)|(f & m & Hf & Hm & Hne)].
    + exists l. split; [|done]. rewrite (Hlookup l Hl Ht). exact Hl.
    + destruct lic as [l0|] eqn:Hlic.
      * destruct (js_truthy (license_version_id l0)) eqn:Ht0.
        { exists l0. split; [|done]. by apply (Hlookup l0). }
        exists (acquired_license u m). split.
        { apply (Hacquired f m); try done. by intros l [= <-]. }
        cbn [acquired_license license_version_id].
        rewrite js_truthy_acquired. by apply negb_true_iff, Z.eqb_neq.
      * exists (acquired_license u m). split.
        { by apply (Hacquired f m). }
        cbn [acquired_license license_version_id].
        rewrite js_truthy_acquired. by apply negb_true_iff, Z.eqb_neq.
Qed.

(** X21. One turn of the handlers' fetch loop returns what the fetcher
    returned and never throws.  After the fetcher's requests it posts one
    usage log exactly when the usage is due: the page came with a 2xx
    status and a text that is not empty, the lookup or the acquisition
    gives a license to log under, the text has tokens, tracking is enabled
    and a ledger key is set.  The entry counts the tokens of the text that
    the fetcher returned and carries the stage and distribution of the
    tool call, not those of the challenge; [total_tokens] grows by that
    count when the ledger accepts the entry (exactly so while the total
    stays within 2^53, as a sum of numbers beyond) and [errors] by one
    when it does not.  Otherwise nothing more is sent and nothing is
    counted: the text of an unpaid 402 is never logged. *)
Theorem fetchAndLog_usage
    (env : Env) (cfg : LicenseServiceConfig) (tokenEncoder : Encoder)
    (envFetchTimeout : Z) (a : FetchArgs)
    (licenses : gmap string LicenseInfo) (u : string) (w : World) :
  exists (fetched : LicensedFetchResult) (w1 w' : World),
    run env (licensedFetchText envFetchTimeout u (handler_options cfg a)) w
      = (inr fetched, w1) /\
    run env (fetchAndLog cfg tokenEncoder envFetchTimeout a licenses u) w
      = (inr fetched, w') /\
    licenseCache (service w') = licenseCache (service w) /\
    (forall (content : string) (l : LicenseInfo),
       usage_due cfg tokenEncoder licenses u fetched content l ->
       let tokens := estimateTokens tokenEncoder content in
       let q := usage_request cfg u tokens l (Some (a_stage a))
                              (Some (a_distribution a)) (clock env (ticks w1)) in
       net w' = (net w1 ++ [q])%list /\
       sessionSummary (service w')
         = match respond env (length (net w1)) q with
           | inr _ => add_total_tokens tokens (sessionSummary (service w))
           | inl _ => inc_errors (sessionSummary (service w))
           end /\
       (forall ok : unit,
          respond env (length (net w1)) q = inr ok ->
          Z.abs (total_tokens (sessionSummary (service w)) + tokens) <= 2 ^ 53 ->
          total_tokens (sessionSummary (service w'))
            = total_tokens (sessionSummary (service w)) + tokens)) /\
    ((forall (content : string) (l : LicenseInfo),
        ~ usage_due cfg tokenEncoder licenses u fetched content l) ->
     w' = w1).
Proof.
  destruct (licensedFetchText_total env envFetchTimeout u
              (handler_options cfg a) w)
    as (fetched & w1 & qs & Hrun & _ & _ & Hsvc & _).
  exists fetched, w1. unfold fetchAndLog. rewrite run_bind, Hrun, run_bind.
  assert (Hskip : forall w' : World,
    w' = w1 ->
    (forall (content : string) (l : LicenseInfo),
       ~ usage_due cfg tokenEncoder licenses u fetched content l) ->
    licenseCache (service w') = licenseCache (service w) /\
    (forall (content : string) (l : LicenseInfo),
       usage_due cfg tokenEncoder licenses u fetched content l ->
       let tokens := estimateTokens tokenEncoder content in
       let q := usage_request cfg u tokens l (Some (a_stage a))
                              (Some (a_distribution a)) (clock env (ticks w1)) in
       net w' = (net w1 ++ [q])%list /\
       sessionSummary (service w')
         = match respond env (length (net w1)) q with
           | inr _ => add_total_tokens tokens (sessionSummary (service w))
           | inl _ => inc_errors (sessionSummary (service w))
           end /\
       (forall ok : unit,
          respond env (length (net w1)) q = inr ok ->
          Z.abs (total_tokens (sessionSummary (service w)) + tokens) <= 2 ^ 53 ->
          total_tokens (sessionSummary (service w'))
            = total_tokens (sessionSummary (service w)) + tokens)) /\
    ((forall (content : string) (l : LicenseInfo),
        ~ usage_due cfg tokenEncoder licenses u fetched content l) ->
     w' = w1)).
  { intros w' -> Hno. split; [by rewrite Hsvc|]. split; [|done].
    intros content l Hdue. by destruct (Hno content l). }
  destruct (truthy (content_text fetched)) eqn:Htext.
  2:{ cbn [andb run]. eexists. split; [done|]. split; [done|].
      apply Hskip; [done|]. intros content l (Hc & Hne & _).
      rewrite Hc in Htext. cbn in Htext.
      by rewrite bool_decide_eq_false_2 in Htext. }
  destruct (content_text fetched) as [content|] eqn:Hcontent; [|done].
  cbn in Htext. apply negb_true_iff, bool_decide_eq_false in Htext.
  destruct (Z.leb_spec 200 (status fetched)) as [Hlo|Hlo].
  2:{ cbn [andb run]. eexists. split; [done|]. split; [done|].
      apply Hskip; [done|]. intros c l (_ & _ & ? & _). lia. }
  destruct (Z.ltb_spec (status fetched) 300) as [Hhi|Hhi].
  2:{ cbn [andb run]. eexists. split; [done|]. split; [done|].
      apply Hskip; [done|]. intros c l (_ & _ & ? & _). lia. }
  cbn [andb]. change (default "" (Some content)) with content.
  cbv zeta. unfold logUsageFromContent.
  destruct (buildUsageLicense u (licenses !! u) (Some fetched))
    as [l|] eqn:Hl.
  2:{ cbn [run]. eexists. split; [done|]. split; [done|].
      apply Hskip; [done|]. intros c l (_ & _ & _ & ? & _). congruence. }
  cbv zeta.
  destruct (Z.eqb_spec (estimateTokens tokenEncoder content) 0) as [Hz|Hz].
  { cbn [run]. eexists. split; [done|]. split; [done|].
    apply Hskip; [done|]. intros c l' (Hc & _ & _ & _ & Hne & _).
    congruence. }
  rewrite run_bind, run_logUsage.
  destruct (enableTracking cfg) eqn:Ht.
  2:{ cbn [negb orb run]. eexists. split; [done|]. split; [done|].
      apply Hskip; [done|]. intros c l' (_ & _ & _ & _ & _ & ? & _).
      congruence. }
  destruct (truthy (apiKey cfg)) eqn:Hkey.
  2:{ cbn [negb orb run]. eexists. split; [done|]. split; [done|].
      apply Hskip; [done|]. intros c l' (_ & _ & _ & _ & _ & _ & ?).
      congruence. }
  apply Z.eqb_neq in Hz. rewrite Hz. cbn [negb orb]. cbv zeta.
  apply Z.eqb_neq in Hz.
  assert (Hdue : usage_due cfg tokenEncoder licenses u fetched content l)
    by (by repeat split).
  destruct (respond env (length (net w1)) _) as [e|[]] eqn:Hreply;
    cbn [run]; eexists; (split; [done|]); (split; [done|]);
    (split; [by rewrite <- Hsvc|]);
    (split; [|intros Hno; by destruct (Hno content l)]);
    intros c l' (Hc & _ & _ & Hl' & _);
    assert (c = content) as -> by congruence;
    assert (l' = l) as -> by congruence;
    (split; [done|]);
    (split; [rewrite Hreply; by rewrite <- Hsvc|]);
    intros ok Hok Hsafe.
  - rewrite Hreply in Hok. discriminate.
  - cbn [snd service store with_summary sessionSummary add_total_tokens
         total_tokens].
    rewrite Hsvc. by apply js_add_exact.
Qed.

Example paid_page_is_logged_under_the_acquired_license :
  let w := snd (run (paywalled_site (inr delivered))
                    (fetchAndLog tracked_config one_token_per_char 12000
                                 default_args ∅ "https://example.com/a")
                    (fresh_world tracked_config)) in
  net w !! 3%nat
    = Some (usage_request tracked_config "https://example.com/a" 5
              (acquired_license "https://example.com/a" (metadata_of granted))
              (Some infer) (Some private) 0) /\
  length (net w) = 4%nat /\
  total_tokens (sessionSummary (service w)) = 5.
Proof. vm_compute. done. Qed.

Example unpaid_paywall_is_not_logged :
  let w := snd (run refusing_ledger
                    (fetchAndLog tracked_config one_token_per_char 12000
                                 default_args ∅ "https://example.com/a")
                    (fresh_world tracked_config)) in
  sent is_usage_log (net w) = 0 /\
  sessionSummary (service w) = zero_summary tracked_config.
Proof. vm_compute. done. Qed.

(** ** The body of a search request *)

Lemma keys_apply_defaults (defaults : gmap string Param)
    (o : list (string * Param)) :
  (apply_defaults defaults o).*1 = o.*1.
Proof.
  induction o as [|[k v] o IH]; [done|].
  unfold apply_defaults in *. cbn [map fmap list_fmap fst]. by f_equal.
Qed.

Lemma keys_set_field (key : string) (v : Param) (o : list (string * Param)) :
  (set_field key v o).*1 = o.*1.
Proof.
  induction o as [|[k x] o IH]; [done|].
  unfold set_field in *. cbn [map fmap list_fmap fst].
  case_bool_decide; cbn [fst]; by f_equal.
Qed.

Lemma keys_drop_relative_dates (o : list (string * Param)) :
  (drop_relative_dates o).*1 = o.*1.
Proof.
  unfold drop_relative_dates. destruct (_ && _); [|done].
  by rewrite !keys_set_field.
Qed.

Lemma field_absent (o : list (string * Param)) (key : string) :
  key ∉ o.*1 -> field o key = PUndefined.
Proof.
  induction o as [|[k v] o IH]; [done|]. cbn. intros Hnot.
  rewrite bool_decide_eq_false_2 by set_solver. apply IH. set_solver.
Qed.

Lemma field_apply_defaults (defaults : gmap string Param)
    (o : list (string * Param)) (key : string) :
  key ∈ o.*1 ->
  field (apply_defaults defaults o) key
  = default (field o key) (defaults !! key).
Proof.
  induction o as [|[k v] o IH]; [by intros ?%elem_of_nil|]. cbn.
  intros Hin. case_bool_decide as Hk; [by subst|].
  apply IH. set_solver.
Qed.

Lemma field_cons (k : string) (v : Param) (o : list (string * Param))
    (key : string) :
  field ((k, v) :: o) key = if bool_decide (k = key) then v else field o key.
Proof. reflexivity. Qed.

Lemma set_field_cons (key0 : string) (v0 : Param) (k : string) (v : Param)
    (o : list (string * Param)) :
  set_field key0 v0 ((k, v) :: o)
  = (k, if bool_decide (k = key0) then v0 else v) :: set_field key0 v0 o.
Proof. unfold set_field. cbn [map fst]. by case_bool_decide. Qed.

Lemma field_set_field (key0 : string) (v0 : Param)
    (o : list (string * Param)) (key : string) :
  field (set_field key0 v0 o) key
  = if bool_decide (key = key0 /\ key ∈ o.*1) then v0 else field o key.
Proof.
  induction o as [|[k v] o IH].
  { rewrite bool_decide_eq_false_2; [done|]. by intros [_ ?%elem_of_nil]. }
  rewrite set_field_cons, !field_cons, IH. cbn [fmap list_fmap fst].
  destruct (decide (k = key)) as [->|Hne].
  - rewrite (bool_decide_eq_true_2 (key = key)) by done.
    destruct (decide (key = key0)) as [->|Hne0].
    + rewrite !bool_decide_eq_true_2; [done| |done]. split; [done|]. by left.
    + rewrite (bool_decide_eq_false_2 (key = key0)) by done.
      rewrite bool_decide_eq_false_2; [done|]. by intros [? _].
  - rewrite (bool_decide_eq_false_2 (k = key)) by done.
    apply (f_equal (fun b : bool => if b then v0 else field o key)).
    apply bool_decide_ext. set_solver.
Qed.

Lemma field_filter_kept (o : list (string * Param)) (key : string) :
  NoDup o.*1 ->
  field (List.filter (fun kv => kept kv.2) o) key
  = if kept (field o key) then field o key else PUndefined.
Proof.
  induction o as [|[k v] o IH]; [done|]. cbn [fmap list_fmap fst].
  intros [Hk Ho]%NoDup_cons. cbn [List.filter field snd].
  destruct (decide (k = key)) as [->|Hne].
  - rewrite bool_decide_eq_true_2 by done.
    destruct (kept v) eqn:Hv; cbn [field].
    + by rewrite bool_decide_eq_true_2.
    + apply field_absent. intros Hin. apply Hk.
      apply list_elem_of_fmap in Hin as ([k' v'] & -> & Hin).
      apply list_elem_of_fmap. exists (k', v'). split; [done|].
      apply list_elem_of_In. apply list_elem_of_In in Hin.
      by apply List.filter_In in Hin as [? _].
  - rewrite (bool_decide_eq_false_2 (k = key)) by done.
    destruct (kept v); cbn [field];
      rewrite ?(bool_decide_eq_false_2 (k = key)) by done; by apply IH.
Qed.

Lemma truthy_kept (v : Param) :
  param_truthy v = true -> v = PArray [] \/ kept v = true.
Proof.
  destruct v as [| | | |s|[|x l]|]; cbn; auto.
Qed.

Lemma search_keys_spec (API_KEY : string) (defaults params : gmap string Param) :
  (drop_relative_dates
     (apply_defaults defaults (searchParams API_KEY params))).*1
  = search_keys.
Proof. by rewrite keys_drop_relative_dates, keys_apply_defaults. Qed.

Lemma NoDup_search_keys : NoDup search_keys.
Proof. compute_done. Qed.

(** A property of the body, read off the object before the cleaning. *)
Lemma field_cleanedParams (API_KEY : string)
    (defaults params : gmap string Param) (key : string) :
  field (cleanedParams API_KEY defaults params) key
  = let v := field (drop_relative_dates
                      (apply_defaults defaults (searchParams API_KEY params)))
                   key in
    if kept v then v else PUndefined.
Proof.
  unfold cleanedParams. apply field_filter_kept.
  rewrite search_keys_spec. apply NoDup_search_keys.
Qed.

(** X22. The body that [search] posts holds only properties of the search
    literal, each once, and no value that is undefined, null, the empty
    string or an empty array.  When it holds a truthy start date or end
    date, it holds neither [days] nor [time_range] with a truthy value:
    absolute dates put the relative ones aside, whoever set them. *)
Theorem search_body_is_clean
    (API_KEY : string) (defaults params : gmap string Param) :
  let body := cleanedParams API_KEY defaults params in
  NoDup body.*1 /\
  (forall (key : string) (v : Param),
     (key, v) ∈ body ->
     key ∈ search_keys /\
     v <> PUndefined /\ v <> PNull /\ v <> PStr "" /\ v <> PArray []) /\
  (param_truthy (field body "start_date") = true \/
   param_truthy (field body "end_date") = true ->
   param_truthy (field body "days") = false /\
   param_truthy (field body "time_range") = false).
Proof.
  cbv zeta. split; [|split].
  - unfold cleanedParams.
    set (o := drop_relative_dates _).
    assert (Hnodup : NoDup o.*1)
      by (unfold o; rewrite search_keys_spec; apply NoDup_search_keys).
    clearbody o. induction o as [|[k v] o IH]; [constructor|].
    cbn [fmap list_fmap fst] in Hnodup.
    apply NoDup_cons in Hnodup as [Hk Ho]. cbn [List.filter snd].
    assert (Hsub : forall k', k' ∈ (List.filter (fun kv => kept kv.2) o).*1 ->
                              k' ∈ o.*1).
    { intros k' Hin. apply list_elem_of_fmap in Hin as ([k1 v1] & -> & Hin).
      apply list_elem_of_fmap. exists (k1, v1). split; [done|].
      apply list_elem_of_In. apply list_elem_of_In in Hin.
      by apply List.filter_In in Hin as [? _]. }
    destruct (kept v); [|by apply IH].
    cbn [fmap list_fmap fst]. apply NoDup_cons. split; [|by apply IH].
    intros Hin. apply Hk. by apply Hsub.
  - intros key v Hin. unfold cleanedParams in Hin.
    apply list_elem_of_In, List.filter_In in Hin as [Hin Hkept].
    apply list_elem_of_In in Hin. cbn in Hkept. split.
    + rewrite <- (search_keys_spec API_KEY defaults params).
      apply list_elem_of_fmap. by exists (key, v).
    + destruct v as [| | | |s|[|x l]|]; try done.
      repeat split; try done. intros [= ->]. done.
  - rewrite !field_cleanedParams. cbv zeta.
    set (o := apply_defaults defaults (searchParams API_KEY params)).
    assert (Hkeys : o.*1 = search_keys)
      by (unfold o; by rewrite keys_apply_defaults).
    unfold drop_relative_dates.
    destruct ((param_truthy (field o "start_date")
               || param_truthy (field o "end_date"))
              && (param_truthy (field o "time_range")
                  || param_truthy (field o "days"))) eqn:Hconflict.
    + intros _. rewrite !field_set_field, !keys_set_field, Hkeys. cbn. done.
    + intros Hdate.
      assert (Hsome : param_truthy (field o "start_date")
                      || param_truthy (field o "end_date") = true).
      { apply orb_true_iff.
        destruct Hdate as [Hd|Hd]; [left|right];
          by destruct (kept (field o _)). }
      rewrite Hsome in Hconflict. cbn in Hconflict.
      apply orb_false_iff in Hconflict as [Hrange Hdays].
      split.
      * destruct (kept (field o "days")); [done|done].
      * destruct (kept (field o "time_range")); [done|done].
Qed.

(** X23. [DEFAULT_PARAMETERS] does not give defaults, it overrides: for each
    property of the search literal that the environment's object names,
    [api_key] included, the body holds the environment's value whatever
    the caller passed; a value there that the cleaning drops (null, the
    empty string, an empty array) removes the property from the body.  The
    one exception is the rule on dates, which can still put [days] and
    [time_range] aside. *)
Theorem search_defaults_override
    (API_KEY : string) (defaults params : gmap string Param)
    (key : string) (d : Param) :
  key ∈ search_keys ->
  defaults !! key = Some d ->
  let body := cleanedParams API_KEY defaults params in
  (key <> "days" -> key <> "time_range" ->
   field body key = if kept d then d else PUndefined) /\
  (forall other : gmap string Param,
     key <> "days" -> key <> "time_range" ->
     field (cleanedParams API_KEY defaults other) key = field body key) /\
  (field body key = d \/ field body key = PUndefined).
Proof.
  intros Hkey Hd. cbv zeta.
  assert (Hfield : forall p : gmap string Param,
    field (apply_defaults defaults (searchParams API_KEY p)) key = d).
  { intros p. rewrite field_apply_defaults by exact Hkey. by rewrite Hd. }
  assert (Hbody : forall p : gmap string Param,
    key <> "days" -> key <> "time_range" ->
    field (cleanedParams API_KEY defaults p) key
    = if kept d then d else PUndefined).
  { intros p Hdays Hrange. rewrite field_cleanedParams. cbv zeta.
    unfold drop_relative_dates. destruct (_ && _).
    - rewrite !field_set_field.
      rewrite !bool_decide_eq_false_2 by (intros [? _]; congruence).
      by rewrite Hfield.
    - by rewrite Hfield. }
  split; [by apply Hbody|]. split.
  { intros other Hdays Hrange. by rewrite !Hbody. }
  rewrite field_cleanedParams. cbv zeta.
  unfold drop_relative_dates. destruct (_ && _).
  - rewrite !field_set_field, Hfield.
    repeat case_bool_decide; cbn [kept]; auto; destruct (kept d); auto.
  - rewrite Hfield. destruct (kept d); auto.
Qed.

Lemma search_defaults_override_witness :
  let body := cleanedParams "tvly-key" twenty_results dated_news in
  ("max_results" <> "days" -> "max_results" <> "time_range" ->
   field body "max_results"
   = if kept (PNum (inject_Z 20)) then PNum (inject_Z 20) else PUndefined) /\
  (forall other : gmap string Param,
     "max_results" <> "days" -> "max_results" <> "time_range" ->
     field (cleanedParams "tvly-key" twenty_results other) "max_results"
     = field body "max_results") /\
  (field body "max_results" = PNum (inject_Z 20) \/
   field body "max_results" = PUndefined).
Proof.
  apply (search_defaults_override "tvly-key" twenty_results dated_news
           "max_results" (PNum (inject_Z 20))).
  - compute_done.
  - reflexivity.
Defined.

Example search_body_of_dated_news :
  cleanedParams "tvly-key" twenty_results dated_news
  = [("query", PStr "rocq");
     ("max_results", PNum (inject_Z 20));
     ("start_date", PStr "2026-01-01");
     ("api_key", PStr "tvly-key")].
Proof. vm_compute. reflexivity. Qed.
